(** * jsn: a JSON scanner, value reader and marshaling engine

    A shallow embedding of the Go package [jsn] (scanner.go, reader.go,
    decorator.go, writer.go) and the properties of it that its
    specification states.

    Conventions of the embedding.
    - A Go [string] or [[]byte] is a [list byte]; a Go [byte] is [Byte.byte].
    - The scanner cursor [cur] (a Go [int] that indexes a slice) is a [nat].
    - A Go function returning [(T, error)] from the decoder returns [Res T];
      [Marshal] returns the pair as the source does.
    - Every [for] loop of the scanner is a [Fixpoint] on the number of bytes
      left; the recursive descent of [ReadValue] is a [Fixpoint] on fuel, and
      [ReadValue_fuel_enough] shows that the fuel it is started with is
      never used up.
    - The standard library functions the package calls ([strconv.ParseUint],
      [strconv.ParseFloat], [strconv.FormatFloat], [strconv.FormatInt],
      the conversion [string(rune)], [sort.Slice]) are modelled in
      [Module strconv], [Module utf8] and [Module sort] from their documented
      behaviour, in exact integer arithmetic. *)

From Stdlib Require Import String.
From Stdlib Require Import ZArith NArith List Lia Bool.
From Stdlib Require Import Strings.Byte.
From Stdlib Require Import Permutation Sorting.Sorted.
From Stdlib Require Import Floats.SpecFloat.
Import ListNotations.

Set Implicit Arguments.

(* ================================================================== *)
(** * Bytes *)

Abbreviation bytes := (list byte).

(** [[]byte("...")] *)
Definition B (s : string) : bytes := list_byte_of_string s.

Definition byte_to_Z (c : byte) : Z := Z.of_N (Byte.to_N c).

(** Conversion of an integer to [byte], truncating to 8 bits as Go's
    arithmetic on [byte] does. *)
Definition byte_of_Z (z : Z) : byte :=
  match Byte.of_N (Z.to_N (z mod 256)) with
  | Some c => c
  | None => x00
  end.

Definition byte_leb (a c : byte) : bool := (byte_to_Z a <=? byte_to_Z c)%Z.
Definition byte_ltb (a c : byte) : bool := (byte_to_Z a <? byte_to_Z c)%Z.

Fixpoint bytes_eqb (a c : bytes) : bool :=
  match a, c with
  | [], [] => true
  | x :: a', y :: c' => Byte.eqb x y && bytes_eqb a' c'
  | _, _ => false
  end.

(** Go's [<] on strings: byte-wise lexicographic order. *)
Fixpoint bytes_ltb (a c : bytes) : bool :=
  match a, c with
  | _, [] => false
  | [], _ :: _ => true
  | x :: a', y :: c' =>
      if byte_ltb x y then true
      else if byte_ltb y x then false
      else bytes_ltb a' c'
  end.

(** [s[lo:hi]] *)
Definition slice (s : bytes) (lo hi : nat) : bytes := firstn (hi - lo) (skipn lo s).

(** [s[i]] (the embedding reads [0] out of range; every use is guarded). *)
Definition index (s : bytes) (i : nat) : byte := nth i s x00.

(* ================================================================== *)
(** * Errors *)

Inductive error : Type :=
| ErrUnexpectedToken
| ErrUnexpectedEOF
| ErrInvalidNumber
| ErrInvalidString
| ErrInvalidUnicodeEscape
| ErrNumericValueOutOfRange
| ErrInvalidFloatPrecision (p : Z)      (* "invalid float precision: %d" *)
| ErrUnsupportedFloat (v : spec_float)  (* "unsupported float value: %v" *)
| UnsupportedTypeError (type : bytes)   (* "jsn: unsupported type: ..." *)
| ErrForeign (msg : bytes).             (* an error made outside the package:
                                           by a user callback or an io.Writer *)

Inductive Res (A : Type) : Type :=
| Ok (a : A)
| Err (e : error).
Arguments Ok {A} a.
Arguments Err {A} e.

(* ================================================================== *)
(** * The parts of Go's standard library that the package calls *)

Module utf8.

  (** [string(r)] for a rune [r]: its UTF-8 encoding; a rune that is not a
      Unicode scalar value (a surrogate half, or out of range) converts to
      U+FFFD, the three bytes EF BF BD. *)
Definition RuneError : bytes := [xef; xbf; xbd].

Definition string_of_rune (r : Z) : bytes :=
    if (r <? 0)%Z then RuneError
    else if (r <=? 0x7F)%Z then [byte_of_Z r]
    else if (r <=? 0x7FF)%Z then
      [byte_of_Z (Z.lor 0xC0 (Z.shiftr r 6));
       byte_of_Z (Z.lor 0x80 (Z.land r 0x3F))]
    else if ((0xD800 <=? r) && (r <=? 0xDFFF))%Z then RuneError
    else if (r <=? 0xFFFF)%Z then
      [byte_of_Z (Z.lor 0xE0 (Z.shiftr r 12));
       byte_of_Z (Z.lor 0x80 (Z.land (Z.shiftr r 6) 0x3F));
       byte_of_Z (Z.lor 0x80 (Z.land r 0x3F))]
    else if (r <=? 0x10FFFF)%Z then
      [byte_of_Z (Z.lor 0xF0 (Z.shiftr r 18));
       byte_of_Z (Z.lor 0x80 (Z.land (Z.shiftr r 12) 0x3F));
       byte_of_Z (Z.lor 0x80 (Z.land (Z.shiftr r 6) 0x3F));
       byte_of_Z (Z.lor 0x80 (Z.land r 0x3F))]
    else RuneError.

  (** A UTF-16 surrogate half. *)
Definition is_surrogate (r : Z) : bool := ((0xD800 <=? r) && (r <=? 0xDFFF))%Z.
Definition is_high_surrogate (r : Z) : bool := ((0xD800 <=? r) && (r <=? 0xDBFF))%Z.
Definition is_low_surrogate (r : Z) : bool := ((0xDC00 <=? r) && (r <=? 0xDFFF))%Z.

  (** The scalar value a high/low surrogate pair stands for (UTF-16). *)
Definition combine_surrogates (hi lo : Z) : Z :=
    (0x10000 + (hi - 0xD800) * 0x400 + (lo - 0xDC00))%Z.

End utf8.

Module strconv.

Inductive NumErr := ErrSyntax | ErrRange.

Definition is_digit (c : byte) : bool := byte_leb "0" c && byte_leb c "9".

Definition digit_val (c : byte) : Z := (byte_to_Z c - 48)%Z.

Definition hex_val (c : byte) : option Z :=
    if byte_leb "0" c && byte_leb c "9" then Some (byte_to_Z c - 48)%Z
    else if byte_leb "a" c && byte_leb c "f" then Some (byte_to_Z c - 97 + 10)%Z
    else if byte_leb "A" c && byte_leb c "F" then Some (byte_to_Z c - 65 + 10)%Z
    else None.

Fixpoint hex_acc (acc : Z) (s : bytes) : option Z :=
    match s with
    | [] => Some acc
    | c :: s' =>
        match hex_val c with
        | Some d => hex_acc (acc * 16 + d)%Z s'
        | None => None
        end
    end.

  (** [strconv.ParseUint(s, 16, 16)]: [s] must be a non-empty run of
      hexadecimal digits (no sign, no prefix, no underscore) whose value
      fits 16 bits; [None] stands for any error. *)
Definition ParseUint_16_16 (s : bytes) : option Z :=
    match s with
    | [] => None
    | _ =>
        match hex_acc 0 s with
        | Some v => if (v <=? 0xFFFF)%Z then Some v else None
        | None => None
        end
    end.

  (** ** [strconv.ParseFloat(s, 64)] on decimal literals

      The literal is read as Go's [readFloat] reads a base-10 literal:
      an optional sign, digits with at most one point and at least one
      digit, an optional exponent whose accumulation stops growing at
      10000.  Its exact value [D * 10^k] is then rounded to the nearest
      binary64 number, ties to even; a result beyond the largest finite
      number is [±Inf] with [ErrRange], and a result too small for a
      subnormal is zero with no error.  The other forms [ParseFloat]
      takes (hexadecimal, [inf], [nan], digit separators) are answered
      [ErrSyntax] here: [parseNumber] passes none of them on. *)

Definition prec64 : Z := 53.
Definition emax64 : Z := 1024.

  (** Leading decimal digits of [s]: their value appended to [acc], their
      number, and the rest of [s]. *)
Fixpoint read_digits (s : bytes) (acc : Z) (n : Z) : Z * Z * bytes :=
    match s with
    | c :: s' =>
        if is_digit c then read_digits s' (acc * 10 + digit_val c)%Z (n + 1)%Z
        else (acc, n, s)
    | [] => (acc, n, s)
    end.

  (** Exponent digits, as [readFloat] accumulates them. *)
Fixpoint read_exp (s : bytes) (e : Z) (n : Z) : Z * Z * bytes :=
    match s with
    | c :: s' =>
        if is_digit c
        then read_exp s' (if (e <? 10000)%Z then e * 10 + digit_val c else e)%Z (n + 1)%Z
        else (e, n, s)
    | [] => (e, n, s)
    end.

  (** The binary64 number nearest to [D * 10^k], for [D >= 0]. *)
Definition round_decimal (neg : bool) (D k : Z) : spec_float :=
    match D with
    | Zpos m =>
        if (0 <=? k)%Z
        then binary_round prec64 emax64 neg (m * Z.to_pos (10 ^ k))%positive 0
        else
          let '(q, e, l) := SFdiv_core_binary prec64 emax64 D 0 (10 ^ (- k)) 0 in
          binary_round_aux prec64 emax64 neg q e l
    | _ => S754_zero neg
    end.

Definition read_sign (s : bytes) : bool * bytes :=
  match s with
  | "+"%byte :: r => (false, r)
  | "-"%byte :: r => (true, r)
  | _ => (false, s)
  end.

(** The digits after a point, appended to the integer part [ip]. *)
Definition read_frac (ip : Z) (s : bytes) : Z * Z * bytes :=
  match s with
  | "."%byte :: r => read_digits r ip 0
  | _ => (ip, 0%Z, s)
  end.

Definition read_exp_sign (s : bytes) : Z * bytes :=
  match s with
  | "+"%byte :: r => (1%Z, r)
  | "-"%byte :: r => ((-1)%Z, r)
  | _ => (1%Z, s)
  end.

(** The exponent part: [None] for a marker that no digit follows. *)
Definition read_exponent (s : bytes) : option (Z * bytes) :=
  match s with
  | "e"%byte :: r | "E"%byte :: r =>
      let '(esign, r1) := read_exp_sign r in
      let '(e, ne, r2) := read_exp r1 0 0 in
      if (ne =? 0)%Z then None else Some ((e * esign)%Z, r2)
  | _ => Some (0%Z, s)
  end.

Definition ParseFloat (s : bytes) : spec_float * option NumErr :=
  let '(neg, s1) := read_sign s in
  let '(ip, ni, s2) := read_digits s1 0 0 in
  let '(D, nf, s3) := read_frac ip s2 in
  if (ni + nf =? 0)%Z then (S754_zero false, Some ErrSyntax)
  else
    match read_exponent s3 with
    | None => (S754_zero false, Some ErrSyntax)
    | Some (e, []) =>
        match round_decimal neg D (e - nf) with
        | S754_infinity sg => (S754_infinity sg, Some ErrRange)
        | f => (f, None)
        end
    | Some (_, _ :: _) => (S754_zero false, Some ErrSyntax)
    end.

(** ** [strconv.FormatInt(i, 10)] and [strconv.FormatUint(u, 10)] *)

Fixpoint digits_rev (fuel : nat) (n : Z) : bytes :=
    match fuel with
    | O => []
    | S fuel' =>
        if (n <=? 0)%Z then []
        else byte_of_Z (48 + n mod 10) :: digits_rev fuel' (n / 10)%Z
    end.

  (** The decimal digits of [n > 0], most significant first; empty for [0]. *)
Definition digits_of (n : Z) : bytes :=
    rev (digits_rev (S (Z.to_nat (Z.log2 n))) n).

Definition FormatUint (u : Z) : bytes :=
    if (u <=? 0)%Z then B "0" else digits_of u.

Definition FormatInt (i : Z) : bytes :=
    if (i <? 0)%Z then "-"%byte :: digits_of (- i) else FormatUint i.

  (** ** [strconv.FormatFloat(v, 'g', prec, 64)] for [prec >= 0]

      The value is converted to decimal exactly and rounded to [prec]
      significant digits ([1] when [prec] is [0]), ties to even, and
      trailing zeros are dropped; the digits are then laid out by Go's
      [%e] when the decimal exponent is below [-4] or not below the
      precision, and by [%f] otherwise.  A negative [prec] (the shortest
      representation) is outside this model: [parseMarshalOptions]
      rejects it. *)

  (** Digits [d] with the decimal point [dp] places after the start:
      the number [0.d * 10^dp]. *)
Record decimalSlice : Type := mkDecimal { d : bytes; dp : Z }.
Definition nd (x : decimalSlice) : Z := Z.of_nat (length (d x)).

Fixpoint find_scale (fuel : nat) (num den j : Z) : Z :=
    match fuel with
    | O => j
    | S fuel' =>
        if (den <=? num * 10 ^ j)%Z then j
        else find_scale fuel' num den (j + 1)%Z
    end.

  (** The [e] with [10^(e-1) <= num/den < 10^e], for [num, den > 0]. *)
Definition decimal_exponent (num den : Z) : Z :=
    if (den <=? num)%Z then Z.of_nat (length (digits_of (num / den)))
    else (1 - find_scale (S (Z.to_nat (Z.log2 den))) num den 1)%Z.

Fixpoint drop_zeros (r : bytes) : bytes :=
    match r with
    | "0"%byte :: r' => drop_zeros r'
    | _ => r
    end.

Definition trim_zeros (s : bytes) : bytes := rev (drop_zeros (rev s)).

  (** [num/den] rounded to [p >= 1] significant decimal digits. *)
Definition round_digits (num den p : Z) : decimalSlice :=
    let e := decimal_exponent num den in
    let a := (num * 10 ^ Z.max 0 (p - e))%Z in
    let b := (den * 10 ^ Z.max 0 (e - p))%Z in
    let n0 := (a / b)%Z in
    let r := (a mod b)%Z in
    let n := if (b <? 2 * r)%Z || ((b =? 2 * r)%Z && Z.odd n0)
             then (n0 + 1)%Z else n0 in
    mkDecimal (trim_zeros (digits_of n))
              (if (n =? 10 ^ p)%Z then e + 1 else e)%Z.

Definition digit_at (x : decimalSlice) (j : Z) : byte :=
    if ((0 <=? j) && (j <? nd x))%Z then nth (Z.to_nat j) (d x) "0"%byte
    else "0"%byte.

Definition zeros (n : Z) : bytes := repeat "0"%byte (Z.to_nat n).

  (** [%e]: [d.ddde±dd] with [prec] digits after the point. *)
Definition fmtE (neg : bool) (x : decimalSlice) (prec : Z) : bytes :=
    (if neg then B "-" else [])
    ++ [match d x with c :: _ => c | [] => "0"%byte end]
    ++ (if (0 <? prec)%Z then
          let m := Z.min (nd x) (prec + 1) in
          B "." ++ slice (d x) 1 (Z.to_nat m) ++ zeros (prec + 1 - Z.max 1 m)
        else [])
    ++ B "e"
    ++ (let exp := if (nd x =? 0)%Z then 0%Z else (dp x - 1)%Z in
        (if (exp <? 0)%Z then B "-" else B "+")
        ++ (let exp := Z.abs exp in
            if (exp <? 10)%Z then ["0"%byte; byte_of_Z (exp + 48)]
            else if (exp <? 100)%Z
                 then [byte_of_Z (exp / 10 + 48); byte_of_Z (exp mod 10 + 48)]
                 else [byte_of_Z (exp / 100 + 48);
                       byte_of_Z ((exp / 10) mod 10 + 48);
                       byte_of_Z (exp mod 10 + 48)])).

  (** [%f]: integer part, then [prec] digits after the point. *)
Definition fmtF (neg : bool) (x : decimalSlice) (prec : Z) : bytes :=
    (if neg then B "-" else [])
    ++ (if (0 <? dp x)%Z then
          let m := Z.min (nd x) (dp x) in
          firstn (Z.to_nat m) (d x) ++ zeros (dp x - m)
        else B "0")
    ++ (if (0 <? prec)%Z then
          B "." ++ map (fun i => digit_at x (dp x + Z.of_nat i)) (seq 0 (Z.to_nat prec))
        else []).

  (** The choice [%g] makes between [%e] and [%f]. *)
Definition fmtG (neg : bool) (x : decimalSlice) (prec : Z) : bytes :=
    let eprec := if ((nd x <? prec) && (dp x <=? nd x))%Z then nd x else prec in
    let exp := (dp x - 1)%Z in
    if ((exp <? -4) || (eprec <=? exp))%Z then
      fmtE neg x ((if (nd x <? prec)%Z then nd x else prec) - 1)
    else
      fmtF neg x (Z.max ((if (dp x <? prec)%Z then nd x else prec) - dp x) 0).

Definition FormatFloat_g (v : spec_float) (prec : Z) : bytes :=
    let prec := if (prec <=? 0)%Z then 1%Z else prec in
    match v with
    | S754_nan => B "NaN"
    | S754_infinity false => B "+Inf"
    | S754_infinity true => B "-Inf"
    | S754_zero neg => fmtG neg (mkDecimal [] 0) prec
    | S754_finite neg m e =>
        let num := if (0 <=? e)%Z then (Zpos m * 2 ^ e)%Z else Zpos m in
        let den := if (0 <=? e)%Z then 1%Z else (2 ^ (- e))%Z in
        fmtG neg (round_digits num den prec) prec
    end.

End strconv.

Module sort.

Section Slice.
Variable A : Type.
Variable less : A -> A -> bool.

Fixpoint insert (x : A) (l : list A) : list A :=
      match l with
      | [] => [x]
      | y :: l' => if less x y then x :: l else y :: insert x l'
      end.

    (** [sort.Slice(l, less)].  The package sorts the entries of a map by
        key; the keys being distinct, every sorting algorithm gives the
        same list ([sort_Slice_unique]), here insertion sort. *)
Fixpoint Slice (l : list A) : list A :=
      match l with
      | [] => []
      | x :: l' => insert x (Slice l')
      end.
End Slice.

End sort.

(* ================================================================== *)
(** * scanner.go *)

Definition ScannerFlagDoNotSkipBOM : Z := 1.
Definition ScannerFlagDoNotSkipInitialWhitespace : Z := 2.

Record Scanner : Type := mkScanner {
  data : bytes;
  cur : nat;
  flags : Z
}.

Definition set_cur (s : Scanner) (c : nat) : Scanner :=
  mkScanner (data s) c (flags s).

Definition set_flags (s : Scanner) (f : Z) : Scanner :=
  mkScanner (data s) (cur s) f.

(** Bytes not yet consumed. *)
Definition remaining (s : Scanner) : nat := length (data s) - cur s.

Definition IsEOF (s : Scanner) : bool := length (data s) <=? cur s.

Definition SkipBOM (s : Scanner) : bool * Scanner :=
  if (3 <=? length (data s))
     && Byte.eqb (index (data s) 0) xef
     && Byte.eqb (index (data s) 1) xbb
     && Byte.eqb (index (data s) 2) xbf
  then (true, set_cur s (cur s + 3))
  else (false, s).

Definition next (s : Scanner) : byte * Scanner :=
  if length (data s) <=? cur s then (x00, s)
  else (index (data s) (cur s), set_cur s (cur s + 1)).

Definition peek (s : Scanner) : byte :=
  if length (data s) <=? cur s then x00
  else index (data s) (cur s).

Definition skipByte (b : byte) (s : Scanner) : bool * Scanner :=
  if length (data s) <=? cur s then (false, s)
  else if Byte.eqb (index (data s) (cur s)) b then (true, set_cur s (cur s + 1))
  else (false, s).

(** The whitespace set of strict JSON. *)
Definition is_whitespace (c : byte) : bool :=
  match c with
  | " "%byte | x09 | x0a | x0d => true
  | _ => false
  end.

Fixpoint skipWhitespace_loop (fuel : nat) (s : Scanner) : Scanner :=
  match fuel with
  | O => s
  | S fuel' =>
      if cur s <? length (data s) then
        if is_whitespace (index (data s) (cur s))
        then skipWhitespace_loop fuel' (set_cur s (cur s + 1))
        else s
      else s
  end.

Definition skipWhitespace (s : Scanner) : Scanner :=
  skipWhitespace_loop (remaining s) s.

Definition isDecimalDigit (s : Scanner) : bool :=
  (cur s <? length (data s))
  && byte_leb "0" (index (data s) (cur s))
  && byte_leb (index (data s) (cur s)) "9".

Fixpoint skipDecimalDigits_loop (fuel : nat) (s : Scanner) : Scanner :=
  match fuel with
  | O => s
  | S fuel' =>
      if isDecimalDigit s
      then skipDecimalDigits_loop fuel' (set_cur s (cur s + 1))
      else s
  end.

Definition skipDecimalDigits (s : Scanner) : bool * Scanner :=
  let startPos := cur s in
  let s' := skipDecimalDigits_loop (remaining s) s in
  (startPos <? cur s', s').

Fixpoint skipSequence_loop (seq : bytes) (i : nat) (s : Scanner) : bool :=
  match seq with
  | [] => true
  | b :: seq' =>
      if Byte.eqb (index (data s) (cur s + i)) b
      then skipSequence_loop seq' (S i) s
      else false
  end.

Definition skipSequence (seq : bytes) (s : Scanner) : bool * Scanner :=
  if length (data s) <? cur s + length seq then (false, s)
  else if skipSequence_loop seq 0 s then (true, set_cur s (cur s + length seq))
  else (false, s).

(** Finalize ensures that the scanner has consumed all input. *)
Definition Finalize (s : Scanner) : option error * Scanner :=
  let s := skipWhitespace s in
  if negb (IsEOF s) then (Some ErrUnexpectedToken, s)
  else (None, s).

Definition parseUnicode (s : Scanner) : Res Z * Scanner :=
  if length (data s) <? cur s + 4 then (Err ErrInvalidUnicodeEscape, s)
  else
    let hex := slice (data s) (cur s) (cur s + 4) in
    let s := set_cur s (cur s + 4) in
    match strconv.ParseUint_16_16 hex with
    | None => (Err ErrInvalidUnicodeEscape, s)
    | Some v => (Ok v, s)
    end.

(** How the fast path of [parseString] leaves its loop. *)
Inductive fast_exit : Type :=
| FastReturn (r : Res bytes)
| FastBreak (escaped : bool).

Fixpoint parseString_fast (fuel : nat) (start : nat) (s : Scanner)
  : fast_exit * Scanner :=
  match fuel with
  | O => (FastBreak false, s)
  | S fuel' =>
      if cur s <? length (data s) then
        let c := index (data s) (cur s) in
        if byte_leb c x1f then (FastReturn (Err ErrInvalidString), s)
        else if Byte.eqb c "\" then (FastBreak true, s)
        else if Byte.eqb c x22 then
          let result := slice (data s) start (cur s) in
          (FastReturn (Ok result), set_cur s (cur s + 1))
        else parseString_fast fuel' start (set_cur s (cur s + 1))
      else (FastBreak false, s)
  end.

(** The escape-aware loop.  Each round reads one byte with [next], so
    [fuel] rounds are enough when [fuel] is the number of bytes left; the
    branch for [O] is reached only with [cur] at the end of [data], where
    the source returns [ErrInvalidString] as well ([next] gives [0]). *)
Fixpoint parseString_slow (fuel : nat) (buf : bytes) (s : Scanner)
  : Res bytes * Scanner :=
  match fuel with
  | O => (Err ErrInvalidString, s)
  | S fuel' =>
      let '(c, s) := next s in
      if Byte.eqb c x00 then (Err ErrInvalidString, s)
      else if byte_leb c x1f then (Err ErrInvalidString, s)
      else if Byte.eqb c x22 then (Ok buf, s)
      else if Byte.eqb c "\" then
        if length (data s) <=? cur s then (Err ErrInvalidString, s)
        else
          let c := peek s in
          match c with
          | x22 | "\"%byte | "/"%byte =>
              parseString_slow fuel' (buf ++ [c]) (set_cur s (cur s + 1))
          | "b"%byte => parseString_slow fuel' (buf ++ [x08]) (set_cur s (cur s + 1))
          | "f"%byte => parseString_slow fuel' (buf ++ [x0c]) (set_cur s (cur s + 1))
          | "n"%byte => parseString_slow fuel' (buf ++ [x0a]) (set_cur s (cur s + 1))
          | "r"%byte => parseString_slow fuel' (buf ++ [x0d]) (set_cur s (cur s + 1))
          | "t"%byte => parseString_slow fuel' (buf ++ [x09]) (set_cur s (cur s + 1))
          | "u"%byte =>
              match parseUnicode (set_cur s (cur s + 1)) with
              | (Err e, s) => (Err e, s)
              | (Ok r, s) => parseString_slow fuel' (buf ++ utf8.string_of_rune r) s
              end
          | _ => (Err ErrInvalidString, s)
          end
      else parseString_slow fuel' (buf ++ [c]) s
  end.

Definition parseString (s : Scanner) : Res bytes * Scanner :=
  if negb (Byte.eqb (peek s) x22) then (Err ErrUnexpectedToken, s)
  else
    let s := set_cur s (cur s + 1) in
    let start := cur s in
    (* Fast path for unescaped strings *)
    match parseString_fast (remaining s) start s with
    | (FastReturn r, s) => (r, s)
    | (FastBreak false, s) => (Err ErrInvalidString, s)
    | (FastBreak true, s) =>
        (* Slow path for escaped strings *)
        let s := set_cur s start in
        parseString_slow (remaining s) [] s
    end.

(** The three parts of a number literal, in the order [parseNumber] checks
    them; each gives [false] where the source returns [ErrInvalidNumber]. *)
Definition parseNumber_int (s : Scanner) : bool * Scanner :=
  let '(zero, s) := skipByte "0" s in
  if zero then
    if isDecimalDigit s then (false, s) else (true, s)
  else
    if (length (data s) <=? cur s)
       || byte_ltb (index (data s) (cur s)) "1"
       || byte_ltb "9" (index (data s) (cur s))
    then (false, s)
    else (true, snd (skipDecimalDigits (set_cur s (cur s + 1)))).

Definition parseNumber_frac (s : Scanner) : bool * Scanner :=
  let '(dot, s) := skipByte "." s in
  if dot then
    let '(digits, s) := skipDecimalDigits s in
    if negb digits then (false, s)
    else
      (* After a valid decimal part, another dot is an error *)
      let '(dot2, s) := skipByte "." s in
      if dot2 then (false, s) else (true, s)
  else (true, s).

(** [s.skipByte('e') || s.skipByte('E')] *)
Definition skip_e (s : Scanner) : bool * Scanner :=
  let '(e1, s) := skipByte "e" s in
  if e1 then (true, s) else skipByte "E" s.

Definition parseNumber_exp (s : Scanner) : bool * Scanner :=
  let '(e, s) := skip_e s in
  if e then
    let '(plus, s) := skipByte "+" s in
    let s := if negb plus then snd (skipByte "-" s) else s in
    let '(digits, s) := skipDecimalDigits s in
    if negb digits then (false, s)
    else
      (* After a valid exponent, another exponent is an error *)
      let '(e2, s) := skip_e s in
      if e2 then (false, s) else (true, s)
  else (true, s).

Definition parseNumber (s : Scanner) : Res spec_float * Scanner :=
  let start := cur s in
  (* Optional minus *)
  let s := snd (skipByte "-" s) in
  (* Integer part *)
  let '(ok, s) := parseNumber_int s in
  if negb ok then (Err ErrInvalidNumber, s) else
  (* Fractional part *)
  let '(ok, s) := parseNumber_frac s in
  if negb ok then (Err ErrInvalidNumber, s) else
  (* Exponent part *)
  let '(ok, s) := parseNumber_exp s in
  if negb ok then (Err ErrInvalidNumber, s) else
  let num := slice (data s) start (cur s) in
  match strconv.ParseFloat num with
  | (val, None) => (Ok val, s)
  | (_, Some strconv.ErrRange) => (Err ErrNumericValueOutOfRange, s)
  | (_, Some strconv.ErrSyntax) => (Err ErrInvalidNumber, s)
  end.

(** An option given to [NewScanner]: a [ScannerFlag], or a value of any
    other type. *)
Inductive ScannerOpt : Type :=
| OptFlag (f : Z)
| OptOther.

Fixpoint apply_opts (opts : list ScannerOpt) (s : Scanner) : option Scanner :=
  match opts with
  | [] => Some s
  | OptFlag v :: opts' => apply_opts opts' (set_flags s (Z.lor (flags s) v))
  | OptOther :: _ => None
  end.

(** NewScanner creates a new scanner and skips the BOM and optional
    whitespace at the start of the data.  [None] is the panic on an option
    of an unsupported type. *)
Definition NewScanner (d : bytes) (opts : list ScannerOpt) : option Scanner :=
  match apply_opts opts (mkScanner d 0 0) with
  | None => None
  | Some s =>
      let s := if Z.land (flags s) ScannerFlagDoNotSkipBOM =? 0
               then snd (SkipBOM s) else s in
      let s := if Z.land (flags s) ScannerFlagDoNotSkipInitialWhitespace =? 0
               then skipWhitespace s else s in
      Some s
  end%Z.

(* ================================================================== *)
(** * Go values, as the package inspects them

    [marshalValue] receives an [any] and inspects it with [reflect];
    [ReadValue] returns an [any] that is [nil], a [bool], a [float64], a
    [string], a [[]any] or a [map[string]any].  [GoValue] is that view.

    A procedure handed to the package (a [func(ArrayWriter)], the
    [MarshalJSN] method of a type) can do one thing with the writer it
    is given, call [Element] or [Member], and then returns; it is
    represented by the calls it makes and the error it returns.

    A Go map has no order of its own.  [GoMap] lists its entries in the
    order in which an iteration over it happens to deliver them; its keys
    are pairwise distinct.  [map_set] is the assignment [m[k] = v]. *)

Record MethodSet (V : Type) : Type := mkMethods {
  ObjMarshaler : option (list (bytes * V) * option error);   (* MarshalJSN(w ObjectWriter) error *)
  ArrMarshaler : option (list V * option error);             (* MarshalJSN(w ArrayWriter) error *)
  StrMarshaler : option (bytes * option error);              (* MarshalJSN() (string, error) *)
  TextMarshaler : option (bytes * option error)              (* MarshalText() ([]byte, error) *)
}.

Unset Elimination Schemes.
Inductive GoValue : Type :=
| GoNil                                     (* the nil interface value *)
| GoNilPtr                                  (* a nil pointer, of some pointer type *)
| GoPtr (v : GoValue)                       (* a pointer to a variable of concrete type holding [v] *)
| GoPtrIface (v : GoValue)                  (* a pointer to a variable of interface type holding [v] *)
| GoBool (b : bool)
| GoInt (i : Z)                             (* int, int8, int16, int32, int64 *)
| GoUint (u : Z)                            (* uint, uint8, ..., uint64, uintptr *)
| GoFloat (f : spec_float)                  (* float32, float64 *)
| GoString (s : bytes)
| GoByteSeq (b : bytes)                     (* []byte, [N]byte *)
| GoSlice (elems : list GoValue)            (* a slice or array whose elements are not bytes *)
| GoMap (pairs : list (bytes * GoValue))    (* a map whose keys are of string kind *)
| GoFuncArr (calls : list GoValue)                             (* func(ArrayWriter) *)
| GoFuncArrErr (calls : list GoValue) (ret : option error)     (* func(ArrayWriter) error *)
| GoFuncObj (calls : list (bytes * GoValue))                   (* func(ObjectWriter) *)
| GoFuncObjErr (calls : list (bytes * GoValue)) (ret : option error)  (* func(ObjectWriter) error *)
| GoNamed (vm pm : MethodSet GoValue) (under : GoValue)
    (* a value of a defined type: [vm] its methods with a value receiver,
       [pm] those with a pointer receiver, [under] the value seen through
       its kind *)
| GoOther (type : bytes).
    (* a value with no JSON form of its own: a struct, a channel, a
       function of another type, a complex number, ... *)
Set Elimination Schemes.

Fixpoint map_set (k : bytes) (v : GoValue) (m : list (bytes * GoValue))
  : list (bytes * GoValue) :=
  match m with
  | [] => [(k, v)]
  | (k', v') :: m' =>
      if bytes_eqb k k' then (k, v) :: m' else (k', v') :: map_set k v m'
  end.

Fixpoint map_get (k : bytes) (m : list (bytes * GoValue)) : option GoValue :=
  match m with
  | [] => None
  | (k', v') :: m' => if bytes_eqb k k' then Some v' else map_get k m'
  end.

(* ================================================================== *)
(** * reader.go *)

Section ReadLoops.

  (** The recursive call [ReadValue(s)]; [None] when it ran out of fuel. *)
Variable rv : Scanner -> option (Res GoValue * Scanner).

  (** The loop of [ReadValue] over the members of an object. *)
Fixpoint ReadValue_object (fuel : nat) (m : list (bytes * GoValue)) (s : Scanner)
    : option (Res GoValue * Scanner) :=
    match fuel with
    | O => None
    | S fuel' =>
        let s := skipWhitespace s in
        if IsEOF s then Some (Err ErrUnexpectedEOF, s) else
        (* Key must be a string in strict JSON *)
        match parseString s with
        | (Err e, s) => Some (Err e, s)
        | (Ok key, s) =>
            let s := skipWhitespace s in
            if IsEOF s then Some (Err ErrUnexpectedEOF, s) else
            let '(colon, s) := skipByte ":" s in
            if negb colon then Some (Err ErrUnexpectedToken, s) else
            match rv s with
            | None => None
            | Some (Err e, s) => Some (Err e, s)
            | Some (Ok val, s) =>
                let m := map_set key val m in
                let s := skipWhitespace s in
                if IsEOF s then Some (Err ErrUnexpectedEOF, s) else
                let '(close, s) := skipByte "}" s in
                if close then Some (Ok (GoMap m), s) else
                let '(comma, s) := skipByte "," s in
                if negb comma then Some (Err ErrUnexpectedToken, s) else
                ReadValue_object fuel' m s
            end
        end
    end.

  (** The loop of [ReadValue] over the elements of an array. *)
Fixpoint ReadValue_array (fuel : nat) (arr : list GoValue) (s : Scanner)
    : option (Res GoValue * Scanner) :=
    match fuel with
    | O => None
    | S fuel' =>
        if IsEOF s then Some (Err ErrUnexpectedEOF, s) else
        match rv s with
        | None => None
        | Some (Err e, s) => Some (Err e, s)
        | Some (Ok val, s) =>
            let arr := arr ++ [val] in
            let s := skipWhitespace s in
            if IsEOF s then Some (Err ErrUnexpectedEOF, s) else
            let '(close, s) := skipByte "]" s in
            if close then Some (Ok (GoSlice arr), s) else
            let '(comma, s) := skipByte "," s in
            if negb comma then Some (Err ErrUnexpectedToken, s) else
            ReadValue_array fuel' arr (skipWhitespace s)
        end
    end.

End ReadLoops.

Fixpoint ReadValue_fuel (fuel : nat) (s : Scanner) : option (Res GoValue * Scanner) :=
  match fuel with
  | O => None
  | S fuel' =>
      let s := skipWhitespace s in
      if IsEOF s then Some (Err ErrUnexpectedEOF, s) else
      match peek s with
      | "{"%byte =>
          let s := set_cur s (cur s + 1) in
          let s := skipWhitespace s in
          let '(close, s) := skipByte "}" s in
          if close then Some (Ok (GoMap []), s)
          else ReadValue_object (ReadValue_fuel fuel') fuel' [] s
      | "["%byte =>
          let s := set_cur s (cur s + 1) in
          let s := skipWhitespace s in
          let '(close, s) := skipByte "]" s in
          if close then Some (Ok (GoSlice []), s)
          else ReadValue_array (ReadValue_fuel fuel') fuel' [] s
      | x22 =>
          match parseString s with
          | (Ok str, s) => Some (Ok (GoString str), s)
          | (Err e, s) => Some (Err e, s)
          end
      | "t"%byte =>
          let '(ok, s) := skipSequence (B "true") s in
          if negb ok then Some (Err ErrUnexpectedToken, s)
          else Some (Ok (GoBool true), s)
      | "f"%byte =>
          let '(ok, s) := skipSequence (B "false") s in
          if negb ok then Some (Err ErrUnexpectedToken, s)
          else Some (Ok (GoBool false), s)
      | "n"%byte =>
          let '(ok, s) := skipSequence (B "null") s in
          if negb ok then Some (Err ErrUnexpectedToken, s)
          else Some (Ok GoNil, s)
      | "-"%byte | "0"%byte | "1"%byte | "2"%byte | "3"%byte | "4"%byte
      | "5"%byte | "6"%byte | "7"%byte | "8"%byte | "9"%byte =>
          match parseNumber s with
          | (Ok f, s) => Some (Ok (GoFloat f), s)
          | (Err e, s) => Some (Err e, s)
          end
      | _ => Some (Err ErrUnexpectedToken, s)
      end
  end.

(** ReadValue reads any JSON value and returns it as a Go value.  Every
    nested call comes after at least one consumed byte, so one more unit of
    fuel than there are bytes left is enough ([ReadValue_fuel_enough]). *)
Definition ReadValue (s : Scanner) : Res GoValue * Scanner :=
  match ReadValue_fuel (S (remaining s)) s with
  | Some r => r
  | None => (Err ErrUnexpectedEOF, s)
  end.

(** ** The streaming readers

    A callback is a Go closure.  What it does to the variables it has
    captured is a function on a state [St]; besides, it returns an error
    or [nil].  Each reader returns the error, the state the callbacks have
    left, and the scanner.

    Both loops consume at least one byte in every round that ends in
    [continue], so one more round than there are bytes left is enough;
    [None] stands for running out of rounds. *)
Section Callbacks.

Variable St : Type.

Section ObjectCallback.

Variable callback : bytes -> GoValue -> St -> St * option error.

Fixpoint ReadObjectCallback_loop (fuel : nat) (st : St) (s : Scanner)
  : option (option error * St * Scanner) :=
  match fuel with
  | O => None
  | S fuel' =>
      (* Parse key *)
      let s := skipWhitespace s in
      match parseString s with
      | (Err e, s) => Some (Some e, st, s)
      | (Ok key, s) =>
          let s := skipWhitespace s in
          let '(colon, s) := skipByte ":" s in
          if negb colon then Some (Some ErrUnexpectedToken, st, s) else
          (* Parse value *)
          let s := skipWhitespace s in
          match ReadValue s with
          | (Err e, s) => Some (Some e, st, s)
          | (Ok value, s) =>
              match callback key value st with
              | (st, Some e) => Some (Some e, st, s)
              | (st, None) =>
                  let s := skipWhitespace s in
                  if IsEOF s then Some (Some ErrUnexpectedEOF, st, s) else
                  let '(comma, s) := skipByte "," s in
                  if comma then ReadObjectCallback_loop fuel' st s else
                  let '(close, s) := skipByte "}" s in
                  if close then Some (None, st, s)
                  else Some (Some ErrUnexpectedToken, st, s)
              end
          end
      end
  end.

(** ReadObjectCallback reads a JSON object and invokes the callback
    function for each key-value pair. *)
Definition ReadObjectCallback (s : Scanner) (st : St)
  : option error * St * Scanner :=
  let '(open, s) := skipByte "{" s in
  if negb open then (Some ErrUnexpectedToken, st, s) else
  let s := skipWhitespace s in
  let '(close, s) := skipByte "}" s in
  if close then (None, st, s) else
  match ReadObjectCallback_loop (S (remaining s)) st s with
  | Some r => r
  | None => (Some ErrUnexpectedEOF, st, s)
  end.

End ObjectCallback.

Section ArrayCallback.

Variable callback : GoValue -> St -> St * option error.

Fixpoint ReadArrayCallback_loop (fuel : nat) (st : St) (s : Scanner)
  : option (option error * St * Scanner) :=
  match fuel with
  | O => None
  | S fuel' =>
      let s := skipWhitespace s in
      if IsEOF s then Some (Some ErrUnexpectedEOF, st, s) else
      match ReadValue s with
      | (Err e, s) => Some (Some e, st, s)
      | (Ok value, s) =>
          match callback value st with
          | (st, Some e) => Some (Some e, st, s)
          | (st, None) =>
              let s := skipWhitespace s in
              if IsEOF s then Some (Some ErrUnexpectedEOF, st, s) else
              let '(comma, s) := skipByte "," s in
              if comma then ReadArrayCallback_loop fuel' st s else
              let '(close, s) := skipByte "]" s in
              if close then Some (None, st, s)
              else Some (Some ErrUnexpectedToken, st, s)
          end
      end
  end.

(** ReadArrayCallback reads a JSON array and invokes the callback function
    for each element. *)
Definition ReadArrayCallback (s : Scanner) (st : St)
  : option error * St * Scanner :=
  let '(open, s) := skipByte "[" s in
  if negb open then (Some ErrUnexpectedToken, st, s) else
  let s := skipWhitespace s in
  let '(close, s) := skipByte "]" s in
  if close then (None, st, s) else
  match ReadArrayCallback_loop (S (remaining s)) st s with
  | Some r => r
  | None => (Some ErrUnexpectedEOF, st, s)
  end.

End ArrayCallback.

End Callbacks.

(** ReadObject reads a JSON object and returns it as map[string]any.  Its
    callback is [m[key] = value]. *)
Definition ReadObject (s : Scanner) : Res (list (bytes * GoValue)) * Scanner :=
  let m : list (bytes * GoValue) := [] in
  match ReadObjectCallback (fun key value m => (map_set key value m, None)) s m with
  | (Some e, _, s) => (Err e, s)
  | (None, m, s) => (Ok m, s)
  end.

(** ReadArray reads a JSON array and returns it as []any.  Its callback is
    [arr = append(arr, value)]. *)
Definition ReadArray (s : Scanner) : Res (list GoValue) * Scanner :=
  let arr : list GoValue := [] in
  match ReadArrayCallback (fun value arr => (arr ++ [value], None)) s arr with
  | (Some e, _, s) => (Err e, s)
  | (None, arr, s) => (Ok arr, s)
  end.

(* ================================================================== *)
(** * decorator.go *)

(** [io.Writer]: what a call of [Write] leaves of the sink, and the error
    it returns.  (The byte count it also returns is ignored by [put].) *)
Class Writer (W : Type) : Type := {
  Write : W -> bytes -> W * option error
}.

(** [strings.Builder]: the text written so far; [Write] never fails. *)
#[export] Instance Builder : Writer bytes := {
  Write w p := (w ++ p, None)
}.

(** The [errorWriter] of the package's tests: every [Write] fails with the
    error the writer holds, and writes nothing. *)
Record errorWriter : Type := mkErrorWriter { ew_err : error }.

#[export] Instance errorWriter_Writer : Writer errorWriter := {
  Write w p := (w, Some (ew_err w))
}.

(** decorator handles the low-level writing of JSON values. *)
Record decorator (W : Type) : Type := mkDecorator {
  out : W;
  floatPrecision : Z;
  err : option error
}.
Arguments mkDecorator {W} out floatPrecision err.

Section Decorator.

Context {W : Type} {writer : Writer W}.

Abbreviation dec := (decorator W).

  (** handleError sets the error if it hasn't been set yet. *)
Definition handleError (e : error) (d : dec) : dec :=
    match err d with
    | None => mkDecorator (out d) (floatPrecision d) (Some e)
    | Some _ => d
    end.

  (** hadError returns whether an error has occurred. *)
Definition hadError (d : dec) : bool :=
    match err d with
    | Some _ => true
    | None => false
    end.

  (** put writes a string to the underlying writer. *)
Definition put (s : bytes) (d : dec) : dec :=
    match err d with
    | Some _ => d (* block output if an error has occurred *)
    | None =>
        let '(o, e) := Write (out d) s in
        let d := mkDecorator o (floatPrecision d) (err d) in
        match e with
        | Some e => handleError e d
        | None => d
        end
    end.

Definition marshalNull (d : dec) : dec := put (B "null") d.

Definition marshalBool (v : bool) (d : dec) : dec :=
    if v then put (B "true") d else put (B "false") d.

Definition IsInf (v : spec_float) : bool :=
    match v with S754_infinity _ => true | _ => false end.

Definition IsNaN (v : spec_float) : bool :=
    match v with S754_nan => true | _ => false end.

Definition marshalFloat64 (v : spec_float) (d : dec) : dec :=
    let d := if IsInf v || IsNaN v
             then handleError (ErrUnsupportedFloat v) d else d in
    put (strconv.FormatFloat_g v (floatPrecision d)) d.

  (** [replace] of [scrambleStr]: flush the pending run [s[b:c]], step over
      the byte at [c], emit its escape. *)
Definition scramble_replace (s : bytes) (b c : nat) (withs : bytes) (d : dec)
    : nat * nat * dec :=
    let d := put (slice s b c) d in
    let c := c + 1 in
    let b := c in
    (b, c, put withs d).

  (** [with[5] += v] on [with := []byte("\\u00X0")], [X] being [x]. *)
Definition u00 (x : byte) (add : Z) : bytes :=
    ["\"%byte; "u"%byte; "0"%byte; "0"%byte; x; byte_of_Z (byte_to_Z "0" + add)].

(** The [switch cp] of [scrambleStr]: what one round of its loop does
    with the byte [cp] at [c]. *)
Definition scramble_step (s : bytes) (b c : nat) (d : dec) (cp : byte)
  : nat * nat * dec :=
  match cp with
  | x08 => scramble_replace s b c (B "\b") d
  | x0c => scramble_replace s b c (B "\f") d
  | x0a => scramble_replace s b c (B "\n") d
  | x0d => scramble_replace s b c (B "\r") d
  | x09 => scramble_replace s b c (B "\t") d
  | "\"%byte => scramble_replace s b c (B "\\") d
  | x22 => scramble_replace s b c ["\"%byte; x22] d
  | _ =>
      if byte_leb cp x0f then
        let add := byte_to_Z cp in
        let add := if byte_leb x0a cp
                   then (add + (byte_to_Z "a" - byte_to_Z ":"))%Z
                   else add in
        scramble_replace s b c (u00 "0" add) d
      else if byte_leb cp x1f then
        let add := (byte_to_Z cp - 16)%Z in
        let add := if byte_leb x1a cp
                   then (add + (byte_to_Z "a" - byte_to_Z ":"))%Z
                   else add in
        scramble_replace s b c (u00 "1" add) d
      else (b, c + 1, d)
  end.

Fixpoint scrambleStr_loop (fuel : nat) (s : bytes) (b c : nat) (d : dec)
  : nat * nat * dec :=
  match fuel with
  | O => (b, c, d)
  | S fuel' =>
      if c =? length s then (b, c, d)
      else
        let '(b, c, d) := scramble_step s b c d (index s c) in
        scrambleStr_loop fuel' s b c d
  end.

(** String handling utilities *)
Definition scrambleStr (s : bytes) (d : dec) : dec :=
    match s with
    | [] => d
    | _ =>
        if hadError d then d
        else
          let '(b, c, d) := scrambleStr_loop (length s) s 0 0 d in
          if negb (c =? b) then put (slice s b c) d else d
    end.

Definition marshalString (v : bytes) (d : dec) : dec :=
    let d := put [x22] d in
    let d := scrambleStr v d in
    put [x22] d.

  (** Object handling methods *)
Definition objectBegin (d : dec) : dec := d.

Definition objectField (name : bytes) (first : bool) (d : dec) : dec :=
    let d := if first then put ["{"%byte; x22] d else put [","%byte; x22] d in
    let d := scrambleStr name d in
    put [x22; ":"%byte] d.

Definition objectEnd (wasEmpty : bool) (d : dec) : dec :=
    if wasEmpty then put (B "{}") d else put (B "}") d.

  (** Array handling methods *)
Definition arrayBegin (d : dec) : dec := d.

Definition arrayElement (first : bool) (d : dec) : dec :=
    if first then put (B "[") d else put (B ",") d.

Definition arrayEnd (wasEmpty : bool) (d : dec) : dec :=
    if wasEmpty then put (B "[]") d else put (B "]") d.

  (** arrayWriter is the implementation of ArrayWriter interface *)
Record arrayWriter : Type := mkArrayWriter {
    aw_d : dec;
    elementCounter : nat
  }.

  (** objectWriter is used to marshal objects into JSON. *)
Record objectWriter : Type := mkObjectWriter {
    ow_d : dec;
    fieldCounter : nat
  }.

Section Writers.

    (** [d.marshalValue], called back by the writers and the loops. *)
Variable marshalValue : GoValue -> dec -> dec.

Definition Element (v : GoValue) (w : arrayWriter) : arrayWriter :=
      let d := arrayElement (elementCounter w =? 0) (aw_d w) in
      let n := elementCounter w + 1 in
      mkArrayWriter (marshalValue v d) n.

Definition Member (key : bytes) (v : GoValue) (w : objectWriter) : objectWriter :=
      let d := objectField key (fieldCounter w =? 0) (ow_d w) in
      let n := fieldCounter w + 1 in
      mkObjectWriter (marshalValue v d) n.

    (** A procedure that was handed an [ArrayWriter] runs: the calls of
        [Element] it makes, in order. *)
Fixpoint run_ArrayWriter (calls : list GoValue) (w : arrayWriter) : arrayWriter :=
      match calls with
      | [] => w
      | v :: calls' => run_ArrayWriter calls' (Element v w)
      end.

Fixpoint run_ObjectWriter (calls : list (bytes * GoValue)) (w : objectWriter)
      : objectWriter :=
      match calls with
      | [] => w
      | (k, v) :: calls' => run_ObjectWriter calls' (Member k v w)
      end.

Definition marshalObj (m : list (bytes * GoValue) * option error) (d : dec) : dec :=
      if hadError d then d (* early exit if an error has occurred *)
      else
        let d := objectBegin d in
        let ow := run_ObjectWriter (fst m) (mkObjectWriter d 0) in
        let d := match snd m with
                 | Some e => handleError e (ow_d ow)
                 | None => ow_d ow
                 end in
        objectEnd (fieldCounter ow =? 0) d.

Definition marshalArr (m : list GoValue * option error) (d : dec) : dec :=
      if hadError d then d (* early exit if an error has occurred *)
      else
        let d := arrayBegin d in
        let aw := run_ArrayWriter (fst m) (mkArrayWriter d 0) in
        let d := match snd m with
                 | Some e => handleError e (aw_d aw)
                 | None => aw_d aw
                 end in
        arrayEnd (elementCounter aw =? 0) d.

    (** The loop of [marshalValue] over a slice: [true] when it left by
        [return] after an error. *)
Fixpoint marshal_elems (i : nat) (elems : list GoValue) (d : dec) : bool * dec :=
      match elems with
      | [] => (false, d)
      | v :: elems' =>
          let d := arrayElement (i =? 0) d in
          let d := marshalValue v d in
          if hadError d then (true, d) (* early exit if an error has occurred *)
          else marshal_elems (S i) elems' d
      end.

    (** For each entry of a map, its key and the call of [marshalValue]
        on its value. *)
Fixpoint map_pairs (pairs : list (bytes * GoValue)) : list (bytes * (dec -> dec)) :=
      match pairs with
      | [] => []
      | (k, v) :: pairs' => (k, marshalValue v) :: map_pairs pairs'
      end.

End Writers.

  (** The loop of [marshalValue] over the sorted entries of a map. *)
Fixpoint marshal_pairs (i : nat) (pairs : list (bytes * (dec -> dec))) (d : dec)
    : bool * dec :=
    match pairs with
    | [] => (false, d)
    | (k, mv) :: pairs' =>
        let d := objectField k (i =? 0) d in
        let d := mv d in
        if hadError d then (true, d) (* early exit if an error has occurred *)
        else marshal_pairs (S i) pairs' d
    end.

Definition pair_less (A : Type) (x y : bytes * A) : bool := bytes_ltb (fst x) (fst y).

  (** [reflect.Type.String()] of the values that reach the end of
      [marshalValue] without a Go type of their own in [GoValue]. *)
Definition type_name (v : GoValue) : bytes :=
    match v with
    | GoOther t => t
    | GoFuncArr _ => B "func(jsn.ArrayWriter)"
    | GoFuncArrErr _ _ => B "func(jsn.ArrayWriter) error"
    | GoFuncObj _ => B "func(jsn.ObjectWriter)"
    | GoFuncObjErr _ _ => B "func(jsn.ObjectWriter) error"
    | _ => []
    end.

  (** [d.marshalValue(v)].

      With [entry = true] this is the function from its first line.  With
      [entry = false] it is the function from inside its loop over
      [reflect.Interface] and [reflect.Ptr], where a pointer has been
      followed: [addr] tells whether the value at hand is addressable
      ([val.CanAddr()]), which it is exactly when it was reached through a
      pointer.

      The entries of a map are paired with the call [marshalValue] makes
      on their value before they are sorted, not after: sorting moves the
      pairs and changes neither. *)
Fixpoint marshalAt (entry addr : bool) (v : GoValue) (d : dec) {struct v} : dec :=
    if entry && hadError d then d (* early exit if an error has occurred *)
    else
      match v with
      (* JSON null *)
      | GoNil => marshalNull d
      | GoNilPtr =>
          (* at the entry, [val.Kind() == reflect.Ptr && val.IsNil()]
             writes null and goes on, into the loop *)
          let d := if entry then marshalNull d else d in
          marshalNull d
      (* Handle functional inputs *)
      | GoFuncArr calls =>
          if entry then
            let d := arrayBegin d in
            let aw := run_ArrayWriter (marshalAt true false) calls (mkArrayWriter d 0) in
            arrayEnd (elementCounter aw =? 0) (aw_d aw)
          else handleError (UnsupportedTypeError (type_name v)) d
      | GoFuncArrErr calls ret =>
          if entry then
            let d := arrayBegin d in
            let aw := run_ArrayWriter (marshalAt true false) calls (mkArrayWriter d 0) in
            match ret with
            | Some e => handleError e (aw_d aw)
            | None => arrayEnd (elementCounter aw =? 0) (aw_d aw)
            end
          else handleError (UnsupportedTypeError (type_name v)) d
      | GoFuncObj calls =>
          if entry then
            let d := objectBegin d in
            let ow := run_ObjectWriter (marshalAt true false) calls (mkObjectWriter d 0) in
            objectEnd (fieldCounter ow =? 0) (ow_d ow)
          else handleError (UnsupportedTypeError (type_name v)) d
      | GoFuncObjErr calls ret =>
          if entry then
            let d := objectBegin d in
            let ow := run_ObjectWriter (marshalAt true false) calls (mkObjectWriter d 0) in
            match ret with
            | Some e => handleError e (ow_d ow)
            | None => objectEnd (fieldCounter ow =? 0) (ow_d ow)
            end
          else handleError (UnsupportedTypeError (type_name v)) d
      (* for val.Kind() == reflect.Interface || val.Kind() == reflect.Ptr *)
      | GoPtr v' => marshalAt false true v' d
      | GoPtrIface v' => marshalAt false false v' d
      (* the marshaler interfaces, on the value *)
      | GoNamed (mkMethods (Some m) _ _ _) _ _ =>
          marshalObj (marshalAt true false) m d
      | GoNamed (mkMethods None (Some m) _ _) _ _ =>
          marshalArr (marshalAt true false) m d
      | GoNamed (mkMethods None None (Some (s, e)) _) _ _ =>
          match e with
          | Some e => handleError e d
          | None => marshalString s d
          end
      | GoNamed (mkMethods None None None (Some (s, e))) _ _ =>
          let d := match e with Some e => handleError e d | None => d end in
          marshalString s d
      (* the marshaler interfaces, on the address of the value *)
      | GoNamed (mkMethods None None None None) pm under =>
          if addr then
            match pm with
            | mkMethods (Some m) _ _ _ => marshalObj (marshalAt true false) m d
            | mkMethods None (Some m) _ _ => marshalArr (marshalAt true false) m d
            | mkMethods None None (Some (s, e)) _ =>
                match e with
                | Some e => handleError e d
                | None => marshalString s d
                end
            | mkMethods None None None (Some (s, e)) =>
                match e with
                | Some e => handleError e d
                | None => marshalString s d
                end
            | mkMethods None None None None => marshalAt false addr under d
            end
          else marshalAt false addr under d
      | GoSlice elems =>
          let d := arrayBegin d in
          let '(returned, d) := marshal_elems (marshalAt true false) 0 elems d in
          if returned then d
          else arrayEnd (length elems =? 0) d
      | GoMap pairs =>
          let pairs' := map_pairs (marshalAt true false) pairs in
          (* coming from a map, the only way to produce a stable repeatable
             output is to sort the keys *)
          let pairs' := sort.Slice (@pair_less _) pairs' in
          let d := objectBegin d in
          let '(returned, d) := marshal_pairs 0 pairs' d in
          if returned then d
          else objectEnd (length pairs =? 0) d
      (* simple types *)
      | GoInt i => put (strconv.FormatInt i) d
      | GoUint u => put (strconv.FormatUint u) d
      | GoFloat f => marshalFloat64 f d
      | GoString s => marshalString s d
      | GoBool b => marshalBool b d
      | GoByteSeq b => marshalString b d
      | GoOther t => handleError (UnsupportedTypeError t) d
      end.

  (** Complex value handling *)
Definition marshalValue (v : GoValue) (d : dec) : dec := marshalAt true false v d.

End Decorator.

(* ================================================================== *)
(** * writer.go *)

(** An option given to [Marshal]: a [FloatPrecision], or a value of any
    other type, which [parseMarshalOptions] passes over. *)
Inductive MarshalOpt : Type :=
| FloatPrecision (Precision : Z)
| OtherOpt.

Fixpoint parseMarshalOptions_loop (opts : list MarshalOpt) (precision : Z)
  : Z * option error :=
  match opts with
  | [] => (precision, None)
  | FloatPrecision p :: opts' =>
      if (p <? 0)%Z then (0%Z, Some (ErrInvalidFloatPrecision p))
      else parseMarshalOptions_loop opts' p
  | OtherOpt :: opts' => parseMarshalOptions_loop opts' precision
  end.

Definition parseMarshalOptions (opts : list MarshalOpt) : Z * option error :=
  parseMarshalOptions_loop opts 6%Z.

(** Marshal marshals any supported value into a JSON string. *)
Definition Marshal (v : GoValue) (opts : list MarshalOpt) : bytes * option error :=
  match parseMarshalOptions opts with
  | (_, Some e) => ([], Some e)
  | (precision, None) =>
      let stringBuilder : bytes := [] in
      let d := mkDecorator stringBuilder precision None in
      let d := marshalValue v d in
      match err d with
      | Some e => ([], Some e)
      | None => (out d, None)
      end
  end.

(* ================================================================== *)
(** * Definitions used to state the properties *)

Unset Implicit Arguments.

(** A scanner over [pre ++ suf] whose cursor stands right after [pre]. *)
Definition scan_at (pre suf : bytes) (fl : Z) : Scanner :=
  mkScanner (pre ++ suf) (length pre) fl.

(** The longest prefix of [l] whose bytes satisfy [p], and what follows. *)
Fixpoint span (p : byte -> bool) (l : bytes) : bytes * bytes :=
  match l with
  | c :: l' =>
      if p c then (c :: fst (span p l'), snd (span p l')) else ([], l)
  | [] => ([], [])
  end.

(** The whitespace set of the specification: space, tab, CR, LF. *)
Definition whitespace_set (c : byte) : Prop :=
  c = " "%byte \/ c = x09 \/ c = x0d \/ c = x0a.

(** ** Unicode escapes *)

Definition is_hex_digit (c : byte) : bool :=
  match strconv.hex_val c with Some _ => true | None => false end.

(** Exactly four hexadecimal digits: what follows [\u] in an escape. *)
Definition is_hex4 (h : bytes) : bool :=
  (length h =? 4) && forallb is_hex_digit h.

(** The 16-bit code unit that four hexadecimal digits denote. *)
Definition code_unit (h : bytes) : Z :=
  match strconv.ParseUint_16_16 h with
  | Some v => v
  | None => 0%Z
  end.

(** The text of the escapes [\uXXXX] for the digit groups [hs]. *)
Definition unicode_escapes (hs : list bytes) : bytes :=
  flat_map (fun h => "\"%byte :: "u"%byte :: h) hs.

(** ** Number literals

    The JSON grammar of a number, by its parts: an optional minus; an
    integer part that is a single [0] or a digit from 1 to 9 followed by
    digits; an optional point followed by at least one digit; an optional
    exponent, [e] or [E], an optional sign and at least one digit. *)

Inductive exp_sign : Type := NoSign | Plus | Minus.

Record number_literal : Type := mkLiteral {
  lit_minus : bool;
  lit_int : bytes;
  lit_frac : option bytes;
  lit_exp : option (bool * exp_sign * bytes)   (* capital E?, sign, digits *)
}.

Definition all_digits (ds : bytes) : bool := forallb strconv.is_digit ds.

Definition nonempty (ds : bytes) : bool :=
  match ds with [] => false | _ => true end.

Definition int_ok (ip : bytes) : bool :=
  match ip with
  | [] => false
  | c :: ds =>
      if Byte.eqb c "0" then match ds with [] => true | _ => false end
      else strconv.is_digit c && all_digits ds
  end.

Definition frac_ok (fp : option bytes) : bool :=
  match fp with
  | None => true
  | Some ds => nonempty ds && all_digits ds
  end.

Definition exp_ok (ep : option (bool * exp_sign * bytes)) : bool :=
  match ep with
  | None => true
  | Some (_, _, ds) => nonempty ds && all_digits ds
  end.

Definition literal_ok (l : number_literal) : bool :=
  int_ok (lit_int l) && frac_ok (lit_frac l) && exp_ok (lit_exp l).

Definition frac_text (fp : option bytes) : bytes :=
  match fp with
  | None => []
  | Some ds => "."%byte :: ds
  end.

Definition sign_text (sg : exp_sign) : bytes :=
  match sg with
  | NoSign => []
  | Plus => ["+"%byte]
  | Minus => ["-"%byte]
  end.

Definition exp_text (ep : option (bool * exp_sign * bytes)) : bytes :=
  match ep with
  | None => []
  | Some (capital, sg, ds) =>
      (if capital then "E"%byte else "e"%byte) :: sign_text sg ++ ds
  end.

Definition literal_text (l : number_literal) : bytes :=
  (if lit_minus l then ["-"%byte] else [])
  ++ lit_int l ++ frac_text (lit_frac l) ++ exp_text (lit_exp l).

(** The value of a run of decimal digits, appended to [acc]. *)
Definition digits_value (acc : Z) (ds : bytes) : Z :=
  fold_left (fun a c => (a * 10 + strconv.digit_val c)%Z) ds acc.

(** The digits of the literal without the point, as one integer. *)
Definition literal_mantissa (l : number_literal) : Z :=
  digits_value (digits_value 0 (lit_int l))
               (match lit_frac l with Some ds => ds | None => [] end).

(** The exponent as written, read the way Go reads it: the digits stop
    counting once the value has reached 10000. *)
Definition literal_exponent (l : number_literal) : Z :=
  match lit_exp l with
  | None => 0%Z
  | Some (_, sg, ds) =>
      (fold_left (fun e c => if (e <? 10000)%Z
                             then (e * 10 + strconv.digit_val c)%Z else e) ds 0%Z
       * match sg with Minus => -1 | _ => 1 end)%Z
  end.

(** The power of ten by which the mantissa is scaled: the literal stands
    for [literal_mantissa l * 10 ^ literal_scale l], negated under a minus. *)
Definition literal_scale (l : number_literal) : Z :=
  (literal_exponent l
   - Z.of_nat (length (match lit_frac l with Some ds => ds | None => [] end)))%Z.

(** The binary64 number nearest to the literal's value. *)
Definition literal_float (l : number_literal) : spec_float :=
  strconv.round_decimal (lit_minus l) (literal_mantissa l) (literal_scale l).

(** [r] does not begin with a byte that satisfies [p]. *)
Definition stops (p : byte -> bool) (r : bytes) : Prop :=
  match r with c :: _ => p c = false | [] => True end.

(** ** String escaping, as the specification words it *)

Definition lower_hex (n : Z) : byte :=
  nth (Z.to_nat n) (B "0123456789abcdef") "0"%byte.

(** Backspace, form feed, line feed, carriage return, tab, backslash and
    the double quote become their two-character escapes, every other
    byte below 0x20 becomes [\u00XX] in lowercase hexadecimal, and every
    other byte, the forward slash and the bytes of a multi-byte UTF-8
    sequence among them, stays as it is. *)
Definition escape_byte (c : byte) : bytes :=
  match c with
  | x08 => B "\b"
  | x0c => B "\f"
  | x0a => B "\n"
  | x0d => B "\r"
  | x09 => B "\t"
  | "\"%byte => B "\\"
  | x22 => ["\"%byte; x22]
  | _ =>
      if (byte_to_Z c <? 0x20)%Z
      then ["\"%byte; "u"%byte; "0"%byte; "0"%byte;
            lower_hex (byte_to_Z c / 16); lower_hex (byte_to_Z c mod 16)]
      else [c]
  end.

(** The bytes that are copied unchanged. *)
Definition is_plain (c : byte) : bool :=
  (0x20 <=? byte_to_Z c)%Z && negb (Byte.eqb c x22) && negb (Byte.eqb c "\").

Definition escape (s : bytes) : bytes := flat_map escape_byte s.

(** ** Emission operations of a decorator *)

Inductive emission : Type :=
| EmitError (e : error)                              (* handleError *)
| EmitPut (s : bytes)
| EmitNull
| EmitBool (v : bool)
| EmitFloat64 (v : spec_float)
| EmitString (v : bytes)
| EmitScramble (s : bytes)
| EmitObjectField (name : bytes) (first : bool)
| EmitObjectEnd (wasEmpty : bool)
| EmitArrayElement (first : bool)
| EmitArrayEnd (wasEmpty : bool)
| EmitObj (m : list (bytes * GoValue) * option error)   (* marshalObj *)
| EmitArr (m : list GoValue * option error)             (* marshalArr *)
| EmitValue (v : GoValue)                               (* marshalValue *)
| EmitElement (count : nat) (v : GoValue)               (* ArrayWriter.Element *)
| EmitMember (count : nat) (key : bytes) (v : GoValue). (* ObjectWriter.Member *)

Definition emit {W : Type} {writer : Writer W} (op : emission) (d : decorator W)
  : decorator W :=
  match op with
  | EmitError e => handleError e d
  | EmitPut s => put s d
  | EmitNull => marshalNull d
  | EmitBool v => marshalBool v d
  | EmitFloat64 v => marshalFloat64 v d
  | EmitString v => marshalString v d
  | EmitScramble s => scrambleStr s d
  | EmitObjectField name first => objectField name first d
  | EmitObjectEnd wasEmpty => objectEnd wasEmpty d
  | EmitArrayElement first => arrayElement first d
  | EmitArrayEnd wasEmpty => arrayEnd wasEmpty d
  | EmitObj m => marshalObj marshalValue m d
  | EmitArr m => marshalArr marshalValue m d
  | EmitValue v => marshalValue v d
  | EmitElement n v => aw_d (Element marshalValue v (mkArrayWriter d n))
  | EmitMember n k v => ow_d (Member marshalValue k v (mkObjectWriter d n))
  end.

Definition emit_all {W : Type} {writer : Writer W} (ops : list emission)
  (d : decorator W) : decorator W :=
  fold_left (fun d op => emit op d) ops d.

(** ** Pointers *)

(** [v] behind [n] pointers. *)
Fixpoint indirect (n : nat) (v : GoValue) : GoValue :=
  match n with
  | O => v
  | S n' => GoPtr (indirect n' v)
  end.

(** ** Emitters into a strings.Builder *)

Abbreviation bdec := (decorator bytes).

(** What [f] writes into an empty builder at precision [prec], and the
    error it leaves. *)
Definition text_of (f : bdec -> bdec) (prec : Z) : bytes :=
  out (f (mkDecorator [] prec None)).

Definition status_of (f : bdec -> bdec) (prec : Z) : option error :=
  err (f (mkDecorator [] prec None)).

(** [f] does nothing once an error is recorded, and otherwise appends to
    the builder a text that does not depend on what the builder holds. *)
Definition framed (f : bdec -> bdec) : Prop :=
  (forall d e, err d = Some e -> f d = d)
  /\ (forall o prec,
        f (mkDecorator o prec None)
        = mkDecorator (o ++ text_of f prec) prec (status_of f prec)).

(** All the values a method set hands to a writer satisfy [P]. *)
Definition methods_all (P : GoValue -> Prop) (ms : MethodSet GoValue) : Prop :=
  match ObjMarshaler ms with
  | Some (calls, _) => Forall (fun kv => P (snd kv)) calls
  | None => True
  end
  /\ match ArrMarshaler ms with
     | Some (calls, _) => Forall P calls
     | None => True
     end.

(** ** The text of a JSON object *)

Definition precision_of (opts : list MarshalOpt) : Z := fst (parseMarshalOptions opts).

(** [s1,s2,...,sn] *)
Fixpoint join_comma (l : list bytes) : bytes :=
  match l with
  | [] => []
  | [s] => s
  | s :: l' => s ++ ","%byte :: join_comma l'
  end.

Definition quoted (s : bytes) : bytes := x22 :: escape s ++ [x22].

(** The text of one member, [t] being the text of its value. *)
Definition member_text (kt : bytes * bytes) : bytes :=
  quoted (fst kt) ++ ":"%byte :: snd kt.

Definition object_text (members : list (bytes * bytes)) : bytes :=
  match members with
  | [] => B "{}"
  | _ => "{"%byte :: join_comma (map member_text members) ++ B "}"
  end.

Definition array_text (elems : list bytes) : bytes :=
  match elems with
  | [] => B "[]"
  | _ => "["%byte :: join_comma elems ++ B "]"
  end.

(** Go's [<] on the keys. *)
Definition key_lt (a c : bytes) : Prop := bytes_ltb a c = true.

(** Not after: the order that sorting maintains. *)
Definition key_le (a c : bytes) : Prop := bytes_ltb c a = false.

(** ** JSON values, their text and their reading *)

Definition spec_float_eqb (a c : spec_float) : bool :=
  match a, c with
  | S754_zero s, S754_zero s' => Bool.eqb s s'
  | S754_infinity s, S754_infinity s' => Bool.eqb s s'
  | S754_nan, S754_nan => true
  | S754_finite s m e, S754_finite s' m' e' =>
      Bool.eqb s s' && Pos.eqb m m' && Z.eqb e e'
  | _, _ => false
  end.

(** The number is finite and its text at six significant digits, read by
    [parseNumber], is the number again. *)
Definition float_prints_back (f : spec_float) : bool :=
  negb (IsInf f || IsNaN f)
  && match parseNumber (scan_at [] (strconv.FormatFloat_g f 6) 0) with
     | (Ok f', s') =>
         spec_float_eqb f f' && (cur s' =? length (strconv.FormatFloat_g f 6))
     | _ => false
     end.

Fixpoint nodup_keys (l : list bytes) : bool :=
  match l with
  | [] => true
  | k :: l' => negb (existsb (bytes_eqb k) l') && nodup_keys l'
  end.

(** A value built only from null, booleans, numbers that print back,
    strings, arrays of such values and maps from strings to such values. *)
Fixpoint json_ok (v : GoValue) : bool :=
  match v with
  | GoNil | GoBool _ | GoString _ => true
  | GoFloat f => float_prints_back f
  | GoSlice elems => forallb json_ok elems
  | GoMap pairs =>
      nodup_keys (map fst pairs) && forallb (fun kv => json_ok (snd kv)) pairs
  | _ => false
  end.


(** The JSON text of such a value. *)
Fixpoint json_text (v : GoValue) : bytes :=
  match v with
  | GoNil => B "null"
  | GoBool b => if b then B "true" else B "false"
  | GoFloat f => strconv.FormatFloat_g f 6
  | GoString s => quoted s
  | GoSlice elems => array_text (map json_text elems)
  | GoMap pairs =>
      object_text (sort.Slice (@pair_less _)
                     (map (fun kv => (fst kv, json_text (snd kv))) pairs))
  | _ => []
  end.

(** The value with the entries of every map in ascending order of keys:
    the order in which the decoder meets them in the text. *)
Fixpoint canon (v : GoValue) : GoValue :=
  match v with
  | GoSlice elems => GoSlice (map canon elems)
  | GoMap pairs =>
      GoMap (sort.Slice (@pair_less _) (map (fun kv => (fst kv, canon (snd kv))) pairs))
  | _ => v
  end.

(** Structural equivalence: equal scalars (numbers as binary64 values),
    arrays equivalent element by element, maps with the same keys and
    equivalent values, in any order. *)
Unset Elimination Schemes.
Set Elimination Schemes.

(** Decoding a text: a scanner with the default options, one value, and
    nothing but whitespace after it. *)
Definition decode (text : bytes) : Res GoValue :=
  match NewScanner text [] with
  | None => Err ErrUnexpectedToken
  | Some s =>
      match ReadValue s with
      | (Err e, _) => Err e
      | (Ok v, s) =>
          match Finalize s with
          | (Some e, _) => Err e
          | (None, _) => Ok v
          end
      end
  end.

(** What may follow a value inside a text: nothing, a comma, or a closing
    bracket or brace. *)
Definition delimits (rest : bytes) : Prop :=
  match rest with
  | [] => True
  | c :: _ => c = ","%byte \/ c = "]"%byte \/ c = "}"%byte
  end.

(** [rv] reads the text of [v] back, wherever it stands. *)
Definition reads_back (rv : Scanner -> option (Res GoValue * Scanner)) (v : GoValue)
  : Prop :=
  forall pre rest fl,
    delimits rest ->
    rv (scan_at pre (json_text v ++ rest) fl)
    = Some (Ok (canon v), scan_at (pre ++ json_text v) rest fl).

(** The bytes a JSON value can begin with. *)
Definition is_value_start (c : byte) : bool :=
  match c with
  | "n"%byte | "t"%byte | "f"%byte | x22 | "["%byte | "{"%byte | "-"%byte => true
  | _ => strconv.is_digit c
  end.

(** The text of an object with the members [ms], duplicates and all. *)
Definition members_text (ms : list (bytes * GoValue)) : bytes :=
  object_text (map (fun kv => (fst kv, json_text (snd kv))) ms).

(** [m[k] = canon v] for each member, in order. *)
Definition set_members (ms : list (bytes * GoValue)) (m : list (bytes * GoValue))
  : list (bytes * GoValue) :=
  fold_left (fun m kv => map_set (fst kv) (canon (snd kv)) m) ms m.

(** Two scanners at the same place of the literal [lit], one over [lit]
    alone and one over [lit] inside a longer text. *)
Definition sim (lit pre rest : bytes) (fl1 fl2 : Z) (s1 s2 : Scanner) : Prop :=
  exists p q, p ++ q = lit
              /\ s1 = scan_at p q fl1
              /\ s2 = scan_at (pre ++ p) (q ++ rest) fl2.

(** The texts [l] each after a comma: what follows the first element of
    an array, or the first member of an object. *)
Definition comma_tail (l : list bytes) : bytes :=
  concat (map (fun t => ","%byte :: t) l).

(** The text of the member [kv]. *)
Definition mtext (kv : bytes * GoValue) : bytes :=
  member_text (fst kv, json_text (snd kv)).

(** The scanner [s'] is [s] further on in the same data. *)
Definition advances (s s' : Scanner) : Prop :=
  data s' = data s /\ cur s <= cur s'.

(** ** The streaming readers *)

(** The byte under the cursor is [b]. *)
Definition at_byte (b : byte) (s : Scanner) : bool :=
  negb (length (data s) <=? cur s) && Byte.eqb (index (data s) (cur s)) b.

(** The callback [cb] called on the items of [l] in turn, up to the first
    call that returns an error. *)
Fixpoint visit {St A : Type} (cb : A -> St -> St * option error) (l : list A) (st : St)
  : St * option error :=
  match l with
  | [] => (st, None)
  | x :: l' =>
      match cb x st with
      | (st', Some e) => (st', Some e)
      | (st', None) => visit cb l' st'
      end
  end.

(** The callbacks that keep what they are given, in order. *)
Definition collect_elements (value : GoValue) (l : list GoValue)
  : list GoValue * option error := (l ++ [value], None).

Definition collect_members (key : bytes) (value : GoValue) (l : list (bytes * GoValue))
  : list (bytes * GoValue) * option error := (l ++ [(key, value)], None).

(** What the streaming readers hand to their callback, from the scanner
    [s] on: the elements of the array, the members of the object with
    their duplicates, up to the end or to the first error in the text. *)
Definition elements_seen (s : Scanner) : list GoValue :=
  snd (fst (ReadArrayCallback collect_elements s [])).

Definition members_seen (s : Scanner) : list (bytes * GoValue) :=
  snd (fst (ReadObjectCallback collect_members s [])).

(** [m[k] = v] for each member, in order. *)
Definition assign_all (ms : list (bytes * GoValue)) (m : list (bytes * GoValue))
  : list (bytes * GoValue) :=
  fold_left (fun m kv => map_set (fst kv) (snd kv) m) ms m.

(** The callback of [ReadObject]. *)
Definition assign_member (key : bytes) (value : GoValue) (m : list (bytes * GoValue))
  : list (bytes * GoValue) * option error := (map_set key value m, None).

(** ** What may follow a number *)

Definition is_e (c : byte) : bool := Byte.eqb c "e" || Byte.eqb c "E".

Definition is_dot (c : byte) : bool := Byte.eqb c ".".

(** [rest] does not continue the literal [l]: it begins with no digit, no
    exponent marker and, unless [l] has an exponent, no point. *)
Definition ends_literal (l : number_literal) (rest : bytes) : Prop :=
  stops strconv.is_digit rest
  /\ stops is_e rest
  /\ (lit_exp l = None -> stops is_dot rest).

(** The outcome of [parseNumber] on the literal [l]. *)
Definition literal_result (l : number_literal) : Res spec_float :=
  match literal_float l with
  | S754_infinity _ => Err ErrNumericValueOutOfRange
  | f => Ok f
  end.

(** ** The inside of a JSON string *)

(** The byte that the escape [\c] stands for. *)
Definition simple_escape (c : byte) : option byte :=
  match c with
  | x22 => Some x22
  | "\"%byte => Some "\"%byte
  | "/"%byte => Some "/"%byte
  | "b"%byte => Some x08
  | "f"%byte => Some x0c
  | "n"%byte => Some x0a
  | "r"%byte => Some x0d
  | "t"%byte => Some x09
  | _ => None
  end.

(** [string_body body str]: [body] is made of bytes that stand for
    themselves (from 0x20 on, but for the quote and the backslash), of the
    eight two-character escapes and of escapes [\uXXXX], and [str] is what
    it stands for, each [\uXXXX] taken as one code unit. *)
Inductive string_body : bytes -> bytes -> Prop :=
| body_end : string_body [] []
| body_plain (c : byte) (t s : bytes) :
    is_plain c = true -> string_body t s -> string_body (c :: t) (c :: s)
| body_escape (c x : byte) (t s : bytes) :
    simple_escape c = Some x -> string_body t s ->
    string_body ("\"%byte :: c :: t) (x :: s)
| body_unicode (h t s : bytes) :
    is_hex4 h = true -> string_body t s ->
    string_body ("\"%byte :: "u"%byte :: h ++ t)
                (utf8.string_of_rune (code_unit h) ++ s).

(** What cannot go on a string, and the error it brings: the end of the
    input, a control byte, a backslash at the end of the input or before a
    byte that names no escape, [\u] before fewer than four bytes or before
    four bytes that are not all hexadecimal digits. *)
Inductive bad_tail : bytes -> error -> Prop :=
| bad_end : bad_tail [] ErrInvalidString
| bad_control (c : byte) (r : bytes) :
    byte_leb c x1f = true -> bad_tail (c :: r) ErrInvalidString
| bad_backslash_end : bad_tail ["\"%byte] ErrInvalidString
| bad_escape (c : byte) (r : bytes) :
    simple_escape c = None -> c <> "u"%byte ->
    bad_tail ("\"%byte :: c :: r) ErrInvalidString
| bad_unicode_short (r : bytes) :
    length r < 4 -> bad_tail ("\"%byte :: "u"%byte :: r) ErrInvalidUnicodeEscape
| bad_unicode_digits (h r : bytes) :
    length h = 4 -> is_hex4 h = false ->
    bad_tail ("\"%byte :: "u"%byte :: h ++ r) ErrInvalidUnicodeEscape.

(** ** Around a value *)

(** The UTF-8 byte order mark. *)
Definition BOM : bytes := [xef; xbb; xbf].

(** All of [ws] is whitespace. *)
Definition blank (ws : bytes) : bool := forallb is_whitespace ws.

(** [rest] begins with nothing that could continue a number: no digit, no
    exponent marker, no point. *)
Definition ends_value (rest : bytes) : Prop :=
  stops strconv.is_digit rest /\ stops is_e rest /\ stops is_dot rest.

(** ** Options *)

(** The precisions that the options give, in order. *)
Definition precisions (opts : list MarshalOpt) : list Z :=
  flat_map (fun o => match o with FloatPrecision p => [p] | OtherOpt => [] end) opts.

(** ** Integers *)

(** The value of decimal digits given least significant first. *)
Definition digits_rev_value (l : bytes) : Z :=
  fold_right (fun c acc => (strconv.digit_val c + 10 * acc)%Z) 0%Z l.

(** ** Kinds *)

(** A value that [marshalValue] writes by its kind alone: not a pointer,
    not nil, not a function, not of a type with methods. *)
Definition data_kind (v : GoValue) : bool :=
  match v with
  | GoBool _ | GoInt _ | GoUint _ | GoFloat _ | GoString _ | GoByteSeq _
  | GoSlice _ | GoMap _ | GoOther _ => true
  | _ => false
  end.

(** No marshaling method. *)
Definition no_methods : MethodSet GoValue := mkMethods None None None None.

(** ** What a value begins with *)

(** [p] is a prefix of [l]. *)
Fixpoint starts_with (p l : bytes) : bool :=
  match p, l with
  | [], _ => true
  | b :: p', c :: l' => Byte.eqb c b && starts_with p' l'
  | _ :: _, [] => false
  end.

(** [suf] begins as a JSON value does: with a brace, a bracket, a quote, a
    minus, a digit, or one of the three names in full. *)
Definition begins_value (suf : bytes) : bool :=
  match suf with
  | [] => false
  | c :: _ =>
      Byte.eqb c "{" || Byte.eqb c "[" || Byte.eqb c x22 || Byte.eqb c "-"
      || strconv.is_digit c
      || starts_with (B "true") suf || starts_with (B "false") suf
      || starts_with (B "null") suf
  end.

(** ** One line *)


(* ================================================================== *)
(** * Bytes and lists *)

Lemma byte_eqb_eq (a c : byte) : Byte.eqb a c = true <-> a = c.
Proof.
  split; [apply Byte.byte_dec_bl | intros ->; now apply Byte.byte_dec_lb].
Qed.

Lemma byte_eqb_refl (a : byte) : Byte.eqb a a = true.
Proof. now apply byte_eqb_eq. Qed.

Lemma byte_eqb_neq (a c : byte) : Byte.eqb a c = false <-> a <> c.
Proof.
  rewrite <- byte_eqb_eq. destruct (Byte.eqb a c); split; congruence.
Qed.

(** Equal up to the bracketing of [++] and [::]. *)
Ltac list_eq :=
  repeat (rewrite <- app_assoc || rewrite <- app_comm_cons); reflexivity.

Lemma index_app_here (pre suf : bytes) (c : byte) :
  index (pre ++ c :: suf) (length pre) = c.
Proof. unfold index. now rewrite nth_middle. Qed.

Lemma index_app_skip (pre suf : bytes) (i : nat) :
  index (pre ++ suf) (length pre + i) = index suf i.
Proof.
  unfold index. rewrite app_nth2 by lia. f_equal. lia.
Qed.

Lemma slice_app_mid (pre mid suf : bytes) :
  slice (pre ++ mid ++ suf) (length pre) (length pre + length mid) = mid.
Proof.
  unfold slice. rewrite skipn_app, skipn_all, Nat.sub_diag. simpl.
  replace (length pre + length mid - length pre) with (length mid) by lia.
  rewrite firstn_app, firstn_all, Nat.sub_diag. simpl. apply app_nil_r.
Qed.

Lemma span_app (p : byte -> bool) (l : bytes) :
  fst (span p l) ++ snd (span p l) = l.
Proof.
  induction l as [|c l IH]; simpl; [reflexivity|].
  destruct (p c); simpl; [now rewrite IH | reflexivity].
Qed.

Lemma span_all (p : byte -> bool) (l : bytes) :
  Forall (fun c => p c = true) (fst (span p l)).
Proof.
  induction l as [|c l IH]; simpl; [constructor|].
  destruct (p c) eqn:E; simpl; [now constructor | constructor].
Qed.

Lemma span_stop (p : byte -> bool) (l : bytes) :
  match snd (span p l) with
  | c :: _ => p c = false
  | [] => True
  end.
Proof.
  induction l as [|c l IH]; simpl; [exact I|].
  destruct (p c) eqn:E; simpl; [exact IH | exact E].
Qed.

Lemma span_prefix (p : byte -> bool) (l r : bytes) :
  Forall (fun c => p c = true) l ->
  match r with c :: _ => p c = false | [] => True end ->
  span p (l ++ r) = (l, r).
Proof.
  intros Hl Hr. induction Hl as [|c l Hc Hl IH]; simpl.
  - destruct r as [|c r]; simpl; [reflexivity | now rewrite Hr].
  - now rewrite Hc, IH.
Qed.

(* ================================================================== *)
(** * The scanner, one step at a time *)

Lemma scan_at_step (pre suf : bytes) (c : byte) (fl : Z) :
  set_cur (scan_at pre (c :: suf) fl) (length pre + 1) = scan_at (pre ++ [c]) suf fl.
Proof.
  unfold set_cur, scan_at; simpl.
  rewrite <- app_assoc, length_app. reflexivity.
Qed.

Lemma scan_at_steps (pre mid suf : bytes) (fl : Z) :
  set_cur (scan_at pre (mid ++ suf) fl) (length pre + length mid)
  = scan_at (pre ++ mid) suf fl.
Proof.
  unfold set_cur, scan_at; simpl.
  rewrite <- app_assoc, length_app. reflexivity.
Qed.

Lemma scan_at_of (s : Scanner) :
  cur s <= length (data s) ->
  s = scan_at (firstn (cur s) (data s)) (skipn (cur s) (data s)) (flags s).
Proof.
  intros H. destruct s as [d c f]; unfold scan_at; simpl in *.
  rewrite firstn_skipn, length_firstn, Nat.min_l by lia. reflexivity.
Qed.

Lemma remaining_at (pre suf : bytes) (fl : Z) :
  remaining (scan_at pre suf fl) = length suf.
Proof. unfold remaining, scan_at; simpl. rewrite length_app. lia. Qed.

Lemma eof_test_at (pre suf : bytes) :
  (length (pre ++ suf) <=? length pre) = match suf with [] => true | _ => false end.
Proof.
  rewrite length_app. destruct suf; simpl.
  - apply Nat.leb_le. lia.
  - apply Nat.leb_gt. lia.
Qed.

Lemma IsEOF_at (pre suf : bytes) (fl : Z) :
  IsEOF (scan_at pre suf fl) = match suf with [] => true | _ => false end.
Proof. apply eof_test_at. Qed.

Lemma peek_at (pre suf : bytes) (c : byte) (fl : Z) :
  peek (scan_at pre (c :: suf) fl) = c.
Proof.
  unfold peek, scan_at; simpl. rewrite eof_test_at. apply index_app_here.
Qed.

Lemma peek_at_end (pre : bytes) (fl : Z) : peek (scan_at pre [] fl) = x00.
Proof. unfold peek, scan_at; simpl. now rewrite eof_test_at. Qed.

Lemma next_at (pre suf : bytes) (c : byte) (fl : Z) :
  next (scan_at pre (c :: suf) fl) = (c, scan_at (pre ++ [c]) suf fl).
Proof.
  unfold next. change (data (scan_at pre (c :: suf) fl)) with (pre ++ c :: suf).
  change (cur (scan_at pre (c :: suf) fl)) with (length pre).
  rewrite eof_test_at, index_app_here, scan_at_step. reflexivity.
Qed.

Lemma next_at_end (pre : bytes) (fl : Z) :
  next (scan_at pre [] fl) = (x00, scan_at pre [] fl).
Proof.
  unfold next. change (data (scan_at pre [] fl)) with (pre ++ []).
  change (cur (scan_at pre [] fl)) with (length pre).
  now rewrite eof_test_at.
Qed.

Lemma skipByte_at (b c : byte) (pre suf : bytes) (fl : Z) :
  skipByte b (scan_at pre (c :: suf) fl)
  = if Byte.eqb c b then (true, scan_at (pre ++ [c]) suf fl)
    else (false, scan_at pre (c :: suf) fl).
Proof.
  unfold skipByte. change (data (scan_at pre (c :: suf) fl)) with (pre ++ c :: suf).
  change (cur (scan_at pre (c :: suf) fl)) with (length pre).
  rewrite eof_test_at, index_app_here, scan_at_step. reflexivity.
Qed.

Lemma skipByte_at_end (b : byte) (pre : bytes) (fl : Z) :
  skipByte b (scan_at pre [] fl) = (false, scan_at pre [] fl).
Proof.
  unfold skipByte. change (data (scan_at pre [] fl)) with (pre ++ []).
  change (cur (scan_at pre [] fl)) with (length pre).
  now rewrite eof_test_at.
Qed.

Lemma skipByte_hit (b : byte) (pre suf : bytes) (fl : Z) :
  skipByte b (scan_at pre (b :: suf) fl) = (true, scan_at (pre ++ [b]) suf fl).
Proof. now rewrite skipByte_at, byte_eqb_refl. Qed.

Lemma skipWhitespace_loop_at (suf pre : bytes) (fl : Z) :
  skipWhitespace_loop (length suf) (scan_at pre suf fl)
  = scan_at (pre ++ fst (span is_whitespace suf)) (snd (span is_whitespace suf)) fl.
Proof.
  revert pre; induction suf as [|c suf IH]; intros pre; simpl.
  - now rewrite app_nil_r.
  - change (cur (scan_at pre (c :: suf) fl)) with (length pre).
    change (data (scan_at pre (c :: suf) fl)) with (pre ++ c :: suf).
    replace (length pre <? length (pre ++ c :: suf)) with true
      by (symmetry; apply Nat.ltb_lt; rewrite length_app; simpl; lia).
    rewrite index_app_here, scan_at_step.
    destruct (is_whitespace c); simpl.
    + rewrite IH, <- app_assoc. reflexivity.
    + now rewrite app_nil_r.
Qed.

Lemma skipWhitespace_at (pre suf : bytes) (fl : Z) :
  skipWhitespace (scan_at pre suf fl)
  = scan_at (pre ++ fst (span is_whitespace suf)) (snd (span is_whitespace suf)) fl.
Proof.
  unfold skipWhitespace. rewrite remaining_at. apply skipWhitespace_loop_at.
Qed.

(** Where no whitespace follows, [skipWhitespace] does nothing. *)
Lemma skipWhitespace_none (pre suf : bytes) (fl : Z) :
  match suf with c :: _ => is_whitespace c = false | [] => True end ->
  skipWhitespace (scan_at pre suf fl) = scan_at pre suf fl.
Proof.
  intros H. rewrite skipWhitespace_at.
  destruct suf as [|c suf]; simpl; [now rewrite app_nil_r|].
  rewrite H; simpl. now rewrite app_nil_r.
Qed.

Lemma isDecimalDigit_at (pre suf : bytes) (c : byte) (fl : Z) :
  isDecimalDigit (scan_at pre (c :: suf) fl) = strconv.is_digit c.
Proof.
  unfold isDecimalDigit. change (cur (scan_at pre (c :: suf) fl)) with (length pre).
  change (data (scan_at pre (c :: suf) fl)) with (pre ++ c :: suf).
  replace (length pre <? length (pre ++ c :: suf)) with true
    by (symmetry; apply Nat.ltb_lt; rewrite length_app; simpl; lia).
  rewrite index_app_here. reflexivity.
Qed.

Lemma isDecimalDigit_at_end (pre : bytes) (fl : Z) :
  isDecimalDigit (scan_at pre [] fl) = false.
Proof.
  unfold isDecimalDigit. change (cur (scan_at pre [] fl)) with (length pre).
  change (data (scan_at pre [] fl)) with (pre ++ []).
  replace (length pre <? length (pre ++ [])) with false
    by (symmetry; apply Nat.ltb_ge; rewrite length_app; simpl; lia).
  reflexivity.
Qed.

Lemma skipDecimalDigits_loop_at (suf pre : bytes) (fl : Z) :
  skipDecimalDigits_loop (length suf) (scan_at pre suf fl)
  = scan_at (pre ++ fst (span strconv.is_digit suf)) (snd (span strconv.is_digit suf)) fl.
Proof.
  revert pre; induction suf as [|c suf IH]; intros pre; simpl.
  - now rewrite app_nil_r.
  - rewrite isDecimalDigit_at.
    change (cur (scan_at pre (c :: suf) fl)) with (length pre).
    rewrite scan_at_step.
    destruct (strconv.is_digit c); simpl.
    + rewrite IH, <- app_assoc. reflexivity.
    + now rewrite app_nil_r.
Qed.

Lemma skipDecimalDigits_at (pre suf : bytes) (fl : Z) :
  skipDecimalDigits (scan_at pre suf fl)
  = (match fst (span strconv.is_digit suf) with [] => false | _ => true end,
     scan_at (pre ++ fst (span strconv.is_digit suf)) (snd (span strconv.is_digit suf)) fl).
Proof.
  unfold skipDecimalDigits. rewrite remaining_at, skipDecimalDigits_loop_at.
  f_equal. unfold scan_at; simpl. rewrite length_app.
  destruct (fst (span strconv.is_digit suf)); simpl.
  - apply Nat.ltb_ge. lia.
  - apply Nat.ltb_lt. lia.
Qed.

Lemma skipSequence_loop_at (seq l r : bytes) (c i : nat) (fl : Z) :
  length l = c + i ->
  skipSequence_loop seq i (mkScanner (l ++ seq ++ r) c fl) = true.
Proof.
  revert l i; induction seq as [|b seq IH]; intros l i Hl; simpl; [reflexivity|].
  rewrite <- Hl, index_app_here, byte_eqb_refl.
  specialize (IH (l ++ [b]) (S i)).
  rewrite <- app_assoc in IH. simpl in IH. apply IH.
  rewrite length_app; simpl. lia.
Qed.

Lemma skipSequence_at (seq pre suf : bytes) (fl : Z) :
  skipSequence seq (scan_at pre (seq ++ suf) fl) = (true, scan_at (pre ++ seq) suf fl).
Proof.
  unfold skipSequence.
  change (cur (scan_at pre (seq ++ suf) fl)) with (length pre).
  change (data (scan_at pre (seq ++ suf) fl)) with (pre ++ seq ++ suf).
  replace (length (pre ++ seq ++ suf) <? length pre + length seq) with false
    by (symmetry; apply Nat.ltb_ge; rewrite !length_app; lia).
  unfold scan_at at 1. rewrite skipSequence_loop_at by lia.
  rewrite <- scan_at_steps. reflexivity.
Qed.

(* ================================================================== *)
(** * Finalize *)

Lemma is_whitespace_set (c : byte) : is_whitespace c = true <-> whitespace_set c.
Proof.
  unfold whitespace_set. split.
  - destruct c; simpl; intros H; try discriminate H; auto.
  - intros [-> | [-> | [-> | ->]]]; reflexivity.
Qed.

Lemma span_all_iff (p : byte -> bool) (l : bytes) :
  snd (span p l) = [] <-> Forall (fun c => p c = true) l.
Proof.
  induction l as [|c l IH]; simpl.
  - split; [constructor | reflexivity].
  - destruct (p c) eqn:E; simpl.
    + rewrite IH. split; [now constructor | now inversion 1].
    + split; [discriminate | inversion 1; congruence].
Qed.

(** C7. [Finalize] returns no error exactly when every byte from the
    cursor on is a space, a tab, a carriage return or a line feed; in
    every other case the error is [ErrUnexpectedToken]. *)
Theorem Finalize_iff_whitespace (s : Scanner) :
  (fst (Finalize s) = None
   <-> Forall whitespace_set (skipn (cur s) (data s)))
  /\ (fst (Finalize s) = None \/ fst (Finalize s) = Some ErrUnexpectedToken).
Proof.
  destruct (Nat.le_gt_cases (cur s) (length (data s))) as [Hle | Hgt].
  - pose proof (scan_at_of s Hle) as Hs0.
    set (pre := firstn (cur s) (data s)) in *.
    set (suf := skipn (cur s) (data s)) in *.
    assert (fst (Finalize s)
            = match snd (span is_whitespace suf) with
              | [] => None
              | _ => Some ErrUnexpectedToken
              end) as HF.
    { rewrite Hs0. unfold Finalize. rewrite skipWhitespace_at, IsEOF_at.
      destruct (snd (span is_whitespace suf)); reflexivity. }
    rewrite HF.
    pose proof (span_all_iff is_whitespace suf) as Hs.
    destruct (snd (span is_whitespace suf)) as [|c r] eqn:E; simpl.
    + split; [|now left]. split; [intros _|reflexivity].
      eapply Forall_impl; [|apply Hs; reflexivity].
      intros a. apply is_whitespace_set.
    + split; [|now right]. split; [discriminate|].
      intros HA. exfalso.
      assert (c :: r = []) as Hnil; [|discriminate Hnil].
      apply Hs. eapply Forall_impl; [|exact HA].
      intros a. apply is_whitespace_set.
  - unfold Finalize, skipWhitespace, remaining.
    replace (length (data s) - cur s) with 0 by lia. simpl.
    unfold IsEOF. replace (length (data s) <=? cur s) with true
      by (symmetry; apply Nat.leb_le; lia).
    simpl. split; [|now left].
    rewrite skipn_all2 by lia. split; [constructor | reflexivity].
Qed.

(* ================================================================== *)
(** * Strings: unicode escapes *)

Lemma lt_test_at (pre suf : bytes) :
  (length pre <? length (pre ++ suf)) = match suf with [] => false | _ => true end.
Proof.
  rewrite length_app. destruct suf; simpl.
  - apply Nat.ltb_ge. lia.
  - apply Nat.ltb_lt. lia.
Qed.

Lemma parseUnicode_at (h pre suf : bytes) (fl : Z) :
  length h = 4 ->
  parseUnicode (scan_at pre (h ++ suf) fl)
  = (match strconv.ParseUint_16_16 h with
     | Some v => Ok v
     | None => Err ErrInvalidUnicodeEscape
     end, scan_at (pre ++ h) suf fl).
Proof.
  intros Hh. unfold parseUnicode.
  change (cur (scan_at pre (h ++ suf) fl)) with (length pre).
  change (data (scan_at pre (h ++ suf) fl)) with (pre ++ h ++ suf).
  replace (length (pre ++ h ++ suf) <? length pre + 4) with false
    by (symmetry; apply Nat.ltb_ge; rewrite !length_app; lia).
  rewrite <- Hh, slice_app_mid, scan_at_steps.
  destruct (strconv.ParseUint_16_16 h); reflexivity.
Qed.

Lemma hex_val_range (c : byte) (v : Z) :
  strconv.hex_val c = Some v -> (0 <= v <= 15)%Z.
Proof.
  destruct c; vm_compute; intros H; inversion H; split; discriminate.
Qed.

Lemma is_hex4_parse (h : bytes) :
  is_hex4 h = true ->
  exists v, strconv.ParseUint_16_16 h = Some v /\ (0 <= v <= 0xFFFF)%Z.
Proof.
  unfold is_hex4. intros H. apply andb_prop in H as [Hl Hd].
  apply Nat.eqb_eq in Hl.
  destruct h as [|a [|b [|c [|d [|? ?]]]]]; try discriminate Hl.
  simpl in Hd. unfold is_hex_digit in Hd.
  unfold strconv.ParseUint_16_16; simpl.
  destruct (strconv.hex_val a) as [va|] eqn:Ea; [|discriminate Hd].
  destruct (strconv.hex_val b) as [vb|] eqn:Eb; [|discriminate Hd].
  destruct (strconv.hex_val c) as [vc|] eqn:Ec; [|discriminate Hd].
  destruct (strconv.hex_val d) as [vd|] eqn:Ed; [|discriminate Hd].
  apply hex_val_range in Ea, Eb, Ec, Ed.
  assert (0 <= ((va * 16 + vb) * 16 + vc) * 16 + vd <= 65535)%Z as Hr by lia.
  exists ((((va * 16 + vb) * 16 + vc) * 16 + vd)%Z).
  replace (0 * 16 + va)%Z with va by lia.
  destruct (Z.leb_spec (((va * 16 + vb) * 16 + vc) * 16 + vd) 65535); [|lia].
  split; [reflexivity | exact Hr].
Qed.

Lemma is_hex4_length (h : bytes) : is_hex4 h = true -> length h = 4.
Proof.
  unfold is_hex4. intros H. apply andb_prop in H as [Hl _].
  now apply Nat.eqb_eq.
Qed.

(** One round of the escape-aware loop over an escape [\uXXXX]. *)
Lemma parseString_slow_unicode (fuel : nat) (buf h pre suf : bytes) (fl : Z) :
  is_hex4 h = true ->
  parseString_slow (S fuel) buf (scan_at pre ("\"%byte :: "u"%byte :: h ++ suf) fl)
  = parseString_slow fuel (buf ++ utf8.string_of_rune (code_unit h))
      (scan_at (pre ++ "\"%byte :: "u"%byte :: h) suf fl).
Proof.
  intros Hh. destruct (is_hex4_parse h Hh) as (v & Hv & _).
  cbn [parseString_slow]. rewrite next_at.
  change (Byte.eqb "\" x00) with false. change (byte_leb "\" x1f) with false.
  change (Byte.eqb "\" x22) with false. change (Byte.eqb "\" "\") with true.
  cbv iota.
  change (length (data ?s) <=? cur ?s) with (IsEOF s).
  rewrite IsEOF_at, peek_at.
  replace (set_cur _ _) with (scan_at ((pre ++ ["\"%byte]) ++ ["u"%byte]) (h ++ suf) fl)
    by (symmetry; apply scan_at_step).
  rewrite parseUnicode_at by now apply is_hex4_length.
  unfold code_unit. rewrite Hv.
  do 2 f_equal. rewrite <- !app_assoc. reflexivity.
Qed.

Lemma parseString_slow_unicode_run (hs : list bytes) :
  forall (fuel : nat) (buf pre rest : bytes) (fl : Z),
  Forall (fun h => is_hex4 h = true) hs ->
  length hs < fuel ->
  parseString_slow fuel buf (scan_at pre (unicode_escapes hs ++ x22 :: rest) fl)
  = (Ok (buf ++ flat_map (fun h => utf8.string_of_rune (code_unit h)) hs),
     scan_at (pre ++ unicode_escapes hs ++ [x22]) rest fl).
Proof.
  induction hs as [|h hs IH]; intros fuel buf pre rest fl Hhs Hf.
  - destruct fuel as [|fuel]; [inversion Hf|].
    cbn [unicode_escapes flat_map app parseString_slow]. rewrite next_at.
    change (Byte.eqb x22 x00) with false. change (byte_leb x22 x1f) with false.
    change (Byte.eqb x22 x22) with true. cbv iota.
    now rewrite app_nil_r.
  - destruct fuel as [|fuel]; [inversion Hf|].
    inversion Hhs as [|? ? Hh Hhs']; subst.
    cbn [unicode_escapes flat_map]. fold (unicode_escapes hs).
    rewrite <- app_assoc. cbn [app].
    rewrite <- app_assoc.
    rewrite parseString_slow_unicode by assumption.
    rewrite IH by (try assumption; simpl in Hf; lia).
    f_equal.
    + now rewrite <- app_assoc.
    + f_equal. rewrite <- !app_assoc. reflexivity.
Qed.

Lemma surrogate_is_RuneError (r : Z) :
  utf8.is_surrogate r = true -> utf8.string_of_rune r = utf8.RuneError.
Proof.
  unfold utf8.is_surrogate, utf8.string_of_rune. intros H.
  apply andb_prop in H as [H1 H2].
  apply Z.leb_le in H1. apply Z.leb_le in H2.
  destruct (Z.ltb_spec r 0); [lia|].
  destruct (Z.leb_spec r 127); [lia|].
  destruct (Z.leb_spec r 2047); [lia|].
  destruct (Z.leb_spec 55296 r); [|lia].
  destruct (Z.leb_spec r 57343); [|lia].
  reflexivity.
Qed.

(** C2 (as the code has it). A string made of escapes [\uXXXX] decodes
    without error, one escape at a time: each escape is read as one 16-bit
    code unit and emitted by [string(rune)], which turns every surrogate
    half, paired or lone, into U+FFFD (EF BF BD). *)
Theorem unicode_escapes_decode_unit_by_unit
  (hs : list bytes) (pre rest : bytes) (fl : Z) :
  Forall (fun h => is_hex4 h = true) hs ->
  parseString (scan_at pre (x22 :: unicode_escapes hs ++ x22 :: rest) fl)
  = (Ok (flat_map (fun h => utf8.string_of_rune (code_unit h)) hs),
     scan_at (pre ++ x22 :: unicode_escapes hs ++ [x22]) rest fl)
  /\ Forall (fun h =>
       (0 <= code_unit h <= 0xFFFF)%Z
       /\ (utf8.is_surrogate (code_unit h) = true ->
           utf8.string_of_rune (code_unit h) = utf8.RuneError)) hs.
Proof.
  intros Hhs. split.
  - unfold parseString. rewrite peek_at. change (Byte.eqb x22 x22) with true.
    cbv iota. cbn [negb].
    replace (set_cur _ _) with (scan_at (pre ++ [x22]) (unicode_escapes hs ++ x22 :: rest) fl)
      by (symmetry; apply scan_at_step).
    rewrite remaining_at.
    destruct hs as [|h hs].
    + cbn [unicode_escapes flat_map app length parseString_fast].
      change (cur (scan_at ?p ?s ?f)) with (length p).
      change (data (scan_at ?p ?s ?f)) with (p ++ s).
      rewrite lt_test_at, index_app_here.
      change (byte_leb x22 x1f) with false. change (Byte.eqb x22 "\") with false.
      change (Byte.eqb x22 x22) with true. cbv iota.
      unfold slice. rewrite Nat.sub_diag. cbn [firstn].
      replace (set_cur _ _) with (scan_at ((pre ++ [x22]) ++ [x22]) rest fl)
        by (symmetry; apply scan_at_step).
      rewrite <- app_assoc. reflexivity.
    + inversion Hhs as [|? ? Hh Hhs']; subst.
      cbn [unicode_escapes flat_map]. fold (unicode_escapes hs).
      rewrite <- app_assoc. cbn [app length parseString_fast].
      change (cur (scan_at ?p ?s ?f)) with (length p).
      change (data (scan_at ?p ?s ?f)) with (p ++ s).
      rewrite lt_test_at, index_app_here.
      change (byte_leb "\" x1f) with false. change (Byte.eqb "\" "\") with true.
      cbv iota.
      replace (set_cur _ _)
        with (scan_at (pre ++ [x22]) (unicode_escapes (h :: hs) ++ x22 :: rest) fl).
      2:{ unfold set_cur, scan_at. cbn [data cur flags unicode_escapes flat_map].
          fold (unicode_escapes hs). rewrite <- !app_assoc. reflexivity. }
      rewrite remaining_at.
      rewrite parseString_slow_unicode_run.
      * f_equal. f_equal. cbn [unicode_escapes flat_map app].
        fold (unicode_escapes hs). rewrite <- !app_assoc. reflexivity.
      * now constructor.
      * rewrite length_app. cbn [unicode_escapes flat_map length].
        rewrite length_app. cbn [length].
        fold (unicode_escapes hs).
        assert (length hs <= length (unicode_escapes hs)) as Hl.
        { clear. induction hs as [|a hs IH]; simpl; [lia|].
          rewrite length_app. lia. }
        lia.
  - eapply Forall_impl; [|exact Hhs].
    intros h Hh. destruct (is_hex4_parse h Hh) as (v & Hv & Hr).
    unfold code_unit. rewrite Hv. split; [exact Hr | apply surrogate_is_RuneError].
Qed.

Lemma unicode_escapes_decode_unit_by_unit_witness :
  Forall (fun h => is_hex4 h = true) [B "D834"; B "dd1e"; B "00e9"; B "d800"]
  /\ fst (parseString
       (scan_at [] (x22 :: unicode_escapes [B "D834"; B "dd1e"; B "00e9"; B "d800"]
                    ++ x22 :: B ",") 0))
     = Ok [xef; xbf; xbd; xef; xbf; xbd; xc3; xa9; xef; xbf; xbd].
Proof.
  assert (Forall (fun h => is_hex4 h = true) [B "D834"; B "dd1e"; B "00e9"; B "d800"]) as H.
  { repeat constructor. }
  split; [exact H|].
  destruct (unicode_escapes_decode_unit_by_unit
              [B "D834"; B "dd1e"; B "00e9"; B "d800"] [] (B ",") 0 H) as [E _].
  rewrite E. reflexivity.
Defined.

(** C2 (as stated) fails.  The escapes for the code units D834 and DD1E
    form a valid surrogate pair, for U+1D11E; the decoder does not produce
    that scalar (F0 9D 84 9E) but two U+FFFD.  The lone half D800 is not
    kept as a unit (it would be ED A0 80) but becomes U+FFFD too. *)
Lemma surrogate_pair_not_combined :
  let pair := scan_at [] (x22 :: unicode_escapes [B "D834"; B "DD1E"] ++ [x22]) 0 in
  let lone := scan_at [] (x22 :: unicode_escapes [B "D800"] ++ [x22]) 0 in
  utf8.is_high_surrogate 0xD834 = true
  /\ utf8.is_low_surrogate 0xDD1E = true
  /\ utf8.combine_surrogates 0xD834 0xDD1E = 0x1D11E%Z
  /\ fst (parseString pair) = Ok (utf8.RuneError ++ utf8.RuneError)
  /\ fst (parseString pair)
     <> Ok (utf8.string_of_rune (utf8.combine_surrogates 0xD834 0xDD1E))
  /\ fst (parseString lone) = Ok utf8.RuneError
  /\ fst (parseString lone) <> Ok [xed; xa0; x80].
Proof.
  cbv zeta.
  split; [reflexivity|]. split; [reflexivity|]. split; [reflexivity|].
  split; [vm_compute; reflexivity|].
  split; [vm_compute; intros H; discriminate H|].
  split; [vm_compute; reflexivity|].
  vm_compute; intros H; discriminate H.
Qed.

(* ================================================================== *)
(** * Numbers *)

Lemma all_digits_Forall (ds : bytes) :
  all_digits ds = true -> Forall (fun c => strconv.is_digit c = true) ds.
Proof. unfold all_digits. rewrite forallb_forall, Forall_forall. auto. Qed.

Lemma span_digits (ds r : bytes) :
  all_digits ds = true -> stops strconv.is_digit r ->
  span strconv.is_digit (ds ++ r) = (ds, r).
Proof.
  intros Hd Hr. apply span_prefix; [now apply all_digits_Forall | exact Hr].
Qed.

Lemma skipDecimalDigits_run (ds pre r : bytes) (fl : Z) :
  all_digits ds = true -> stops strconv.is_digit r ->
  skipDecimalDigits (scan_at pre (ds ++ r) fl)
  = (nonempty ds, scan_at (pre ++ ds) r fl).
Proof.
  intros Hd Hr. rewrite skipDecimalDigits_at, span_digits by assumption.
  reflexivity.
Qed.

Lemma skipByte_miss (b : byte) (pre r : bytes) (fl : Z) :
  stops (fun c => Byte.eqb c b) r ->
  skipByte b (scan_at pre r fl) = (false, scan_at pre r fl).
Proof.
  destruct r as [|c r]; simpl; intros H.
  - apply skipByte_at_end.
  - now rewrite skipByte_at, H.
Qed.

Lemma skip_e_miss (pre r : bytes) (fl : Z) :
  stops (fun c => Byte.eqb c "e" || Byte.eqb c "E") r ->
  skip_e (scan_at pre r fl) = (false, scan_at pre r fl).
Proof.
  intros H. unfold skip_e.
  rewrite skipByte_miss.
  - apply skipByte_miss. destruct r; simpl in *; [exact I|].
    now apply orb_false_elim in H.
  - destruct r; simpl in *; [exact I|]. now apply orb_false_elim in H.
Qed.

Lemma exp_text_stops_digit (ep : option (bool * exp_sign * bytes)) :
  stops strconv.is_digit (exp_text ep).
Proof. destruct ep as [[[[] sg] ds]|]; simpl; auto. Qed.


Lemma frac_exp_stops_digit (fp : option bytes) (ep : option (bool * exp_sign * bytes)) :
  stops strconv.is_digit (frac_text fp ++ exp_text ep).
Proof. destruct fp; simpl; [reflexivity | apply exp_text_stops_digit]. Qed.

Lemma is_digit_not (c b : byte) :
  strconv.is_digit c = true -> strconv.is_digit b = false -> Byte.eqb c b = false.
Proof.
  intros Hc Hb. apply byte_eqb_neq. intros ->. congruence.
Qed.

(** The integer part. *)
Lemma parseNumber_int_at (ip pre r : bytes) (fl : Z) :
  int_ok ip = true -> stops strconv.is_digit r ->
  parseNumber_int (scan_at pre (ip ++ r) fl) = (true, scan_at (pre ++ ip) r fl).
Proof.
  intros Hip Hr. unfold parseNumber_int.
  destruct ip as [|c ds]; [discriminate Hip|].
  cbn [app]. rewrite skipByte_at.
  destruct (Byte.eqb c "0") eqn:E0.
  - apply byte_eqb_eq in E0; subst c.
    destruct ds as [|d ds].
    + cbn [app]. destruct r as [|x r].
      * now rewrite isDecimalDigit_at_end.
      * rewrite isDecimalDigit_at. simpl in Hr. now rewrite Hr.
    + simpl in Hip. discriminate Hip.
  - assert (strconv.is_digit c = true /\ all_digits ds = true) as [Hc Hds].
    { simpl in Hip. rewrite E0 in Hip. now apply andb_prop in Hip. }
    change (cur (scan_at pre (c :: ds ++ r) fl)) with (length pre).
    change (data (scan_at pre (c :: ds ++ r) fl)) with (pre ++ c :: ds ++ r).
    rewrite eof_test_at, index_app_here.
    assert (byte_ltb c "1" = false /\ byte_ltb "9" c = false) as [H1 H9].
    { destruct c; try discriminate Hc; try discriminate E0; split; reflexivity. }
    rewrite H1, H9. cbn [orb].
    rewrite scan_at_step, skipDecimalDigits_run by assumption.
    cbn [snd]. rewrite <- app_assoc. reflexivity.
Qed.

(** The fraction. *)
Lemma parseNumber_frac_at (fp : option bytes) (pre r : bytes) (fl : Z) :
  frac_ok fp = true ->
  stops strconv.is_digit r -> stops (fun c => Byte.eqb c ".") r ->
  parseNumber_frac (scan_at pre (frac_text fp ++ r) fl)
  = (true, scan_at (pre ++ frac_text fp) r fl).
Proof.
  intros Hfp Hr Hdot. unfold parseNumber_frac.
  destruct fp as [ds|]; cbn [frac_text app].
  - rewrite skipByte_hit.
    simpl in Hfp. apply andb_prop in Hfp as [Hne Hds].
    rewrite skipDecimalDigits_run, Hne by assumption. cbn [negb].
    rewrite skipByte_miss by assumption.
    rewrite <- app_assoc. reflexivity.
  - rewrite skipByte_miss by assumption. now rewrite app_nil_r.
Qed.


Lemma read_digits_run (ds r : bytes) (acc n : Z) :
  all_digits ds = true -> stops strconv.is_digit r ->
  strconv.read_digits (ds ++ r) acc n
  = (digits_value acc ds, (n + Z.of_nat (length ds))%Z, r).
Proof.
  revert acc n; induction ds as [|c ds IH]; intros acc n Hd Hr.
  - cbn [app length digits_value fold_left Z.of_nat]. rewrite Z.add_0_r.
    destruct r as [|x r]; simpl; [reflexivity|]. simpl in Hr. now rewrite Hr.
  - simpl in Hd. apply andb_prop in Hd as [Hc Hds].
    cbn [app strconv.read_digits]. rewrite Hc, IH by assumption.
    cbn [digits_value fold_left length]. f_equal. f_equal. lia.
Qed.

Lemma read_exp_run (ds : bytes) (e n : Z) :
  all_digits ds = true ->
  strconv.read_exp ds e n
  = (fold_left (fun e c => if (e <? 10000)%Z
                           then (e * 10 + strconv.digit_val c)%Z else e) ds e,
     (n + Z.of_nat (length ds))%Z, []).
Proof.
  revert e n; induction ds as [|c ds IH]; intros e n Hd.
  - cbn. now rewrite Z.add_0_r.
  - simpl in Hd. apply andb_prop in Hd as [Hc Hds].
    cbn [strconv.read_exp]. rewrite Hc, IH by assumption.
    cbn [fold_left length]. f_equal. f_equal. lia.
Qed.

Lemma int_ok_digits (ip : bytes) :
  int_ok ip = true ->
  all_digits ip = true
  /\ exists c ds, ip = c :: ds /\ strconv.is_digit c = true.
Proof.
  destruct ip as [|c ds]; [discriminate|]. simpl.
  destruct (Byte.eqb c "0") eqn:E.
  - apply byte_eqb_eq in E; subst c. destruct ds; [|discriminate].
    intros _. split; [reflexivity|]. now exists "0"%byte, [].
  - intros H. apply andb_prop in H as [Hc Hds]. rewrite Hc. split; [exact Hds|].
    now exists c, ds.
Qed.

(** What [strconv.ParseFloat] makes of a literal of the JSON grammar. *)
Lemma ParseFloat_literal (l : number_literal) :
  literal_ok l = true ->
  strconv.ParseFloat (literal_text l)
  = match literal_float l with
    | S754_infinity sg => (S754_infinity sg, Some strconv.ErrRange)
    | f => (f, None)
    end.
Proof.
  destruct l as [minus ip fp ep]. unfold literal_ok, literal_text, literal_float,
    literal_mantissa, literal_scale, literal_exponent. cbn [lit_minus lit_int lit_frac lit_exp].
  intros H. apply andb_prop in H as [H Hep]. apply andb_prop in H as [Hip Hfp].
  destruct (int_ok_digits ip Hip) as (Hdig & c & ds & -> & Hc).
  unfold strconv.ParseFloat.
  (* the sign *)
  assert (strconv.read_sign ((if minus then ["-"%byte] else []) ++ (c :: ds)
                             ++ frac_text fp ++ exp_text ep)
          = (minus, (c :: ds) ++ frac_text fp ++ exp_text ep)) as ->.
  { destruct minus; [reflexivity|].
    destruct c; try discriminate Hc; reflexivity. }
  (* the integer part *)
  rewrite read_digits_run by (try assumption; apply frac_exp_stops_digit).
  (* the fraction *)
  assert (strconv.read_frac (digits_value 0 (c :: ds)) (frac_text fp ++ exp_text ep)
          = (digits_value (digits_value 0 (c :: ds))
               (match fp with Some fd => fd | None => [] end),
             Z.of_nat (length (match fp with Some fd => fd | None => [] end)),
             exp_text ep)) as ->.
  { destruct fp as [fd|]; cbn [frac_text app].
    - simpl in Hfp. apply andb_prop in Hfp as [_ Hfd].
      unfold strconv.read_frac.
      rewrite read_digits_run by (try assumption; apply exp_text_stops_digit).
      reflexivity.
    - destruct ep as [[[[] sg] ed]|]; reflexivity. }
  replace ((0 + Z.of_nat (length (c :: ds))
            + Z.of_nat (length match fp with Some fd => fd | None => [] end) =? 0)%Z)
    with false by (symmetry; apply Z.eqb_neq; cbn [length]; lia).
  (* the exponent *)
  assert (strconv.read_exponent (exp_text ep)
          = Some (match ep with
                  | None => 0%Z
                  | Some (_, sg, ed) =>
                      (fold_left (fun e c => if (e <? 10000)%Z
                                             then (e * 10 + strconv.digit_val c)%Z
                                             else e) ed 0
                       * match sg with Minus => -1 | _ => 1 end)%Z
                  end, [])) as ->.
  { destruct ep as [[[capital sg] ed]|]; [|reflexivity].
    simpl in Hep. apply andb_prop in Hep as [Hne Hed].
    assert (exists d ed', ed = d :: ed' /\ strconv.is_digit d = true)
      as (d & ed' & -> & Hd).
    { destruct ed as [|d ed']; [discriminate Hne|].
      simpl in Hed. apply andb_prop in Hed as [Hd _]. now exists d, ed'. }
    assert (strconv.read_exp_sign (sign_text sg ++ d :: ed')
            = (match sg with Minus => (-1)%Z | _ => 1%Z end, d :: ed')) as Hs.
    { destruct sg; cbn [sign_text app]; try reflexivity.
      destruct d; try discriminate Hd; reflexivity. }
    destruct capital; cbn [exp_text strconv.read_exponent];
      rewrite Hs, read_exp_run by assumption;
      replace ((0 + Z.of_nat (length (d :: ed')) =? 0)%Z) with false
        by (symmetry; apply Z.eqb_neq; cbn [length]; lia);
      reflexivity. }
  reflexivity.
Qed.



(* ================================================================== *)
(** * The error latch *)

Section Latch.

Context {W : Type} {writer : Writer W}.

Lemma handleError_latched (d : decorator W) (e e' : error) :
  err d = Some e -> handleError e' d = d.
Proof. unfold handleError. now intros ->. Qed.

Lemma put_latched (d : decorator W) (e : error) (s : bytes) :
  err d = Some e -> put s d = d.
Proof. unfold put. now intros ->. Qed.

Lemma scrambleStr_latched (d : decorator W) (e : error) (s : bytes) :
  err d = Some e -> scrambleStr s d = d.
Proof.
  intros H. unfold scrambleStr, hadError. rewrite H. now destruct s.
Qed.

Lemma marshalString_latched (d : decorator W) (e : error) (s : bytes) :
  err d = Some e -> marshalString s d = d.
Proof.
  intros H. unfold marshalString.
  rewrite (put_latched _ _ _ H), (scrambleStr_latched _ _ _ H).
  apply (put_latched _ _ _ H).
Qed.

Lemma objectField_latched (d : decorator W) (e : error) (name : bytes) (first : bool) :
  err d = Some e -> objectField name first d = d.
Proof.
  intros H. unfold objectField.
  destruct first; rewrite (put_latched _ _ _ H), (scrambleStr_latched _ _ _ H);
    apply (put_latched _ _ _ H).
Qed.

Lemma arrayElement_latched (d : decorator W) (e : error) (first : bool) :
  err d = Some e -> arrayElement first d = d.
Proof. intros H. unfold arrayElement. destruct first; apply (put_latched _ _ _ H). Qed.

Lemma marshalValue_latched (d : decorator W) (e : error) (v : GoValue) :
  err d = Some e -> marshalValue v d = d.
Proof.
  intros H. unfold marshalValue.
  destruct v; cbn [marshalAt andb]; unfold hadError; now rewrite H.
Qed.

Lemma emit_latched (op : emission) (d : decorator W) (e : error) :
  err d = Some e -> emit op d = d.
Proof.
  intros H. destruct op; cbn [emit].
  - apply (handleError_latched _ _ _ H).
  - apply (put_latched _ _ _ H).
  - apply (put_latched _ _ _ H).
  - unfold marshalBool. destruct v; apply (put_latched _ _ _ H).
  - unfold marshalFloat64.
    destruct (IsInf v || IsNaN v); rewrite ?(handleError_latched _ _ _ H);
      apply (put_latched _ _ _ H).
  - apply (marshalString_latched _ _ _ H).
  - apply (scrambleStr_latched _ _ _ H).
  - apply (objectField_latched _ _ _ _ H).
  - unfold objectEnd. destruct wasEmpty; apply (put_latched _ _ _ H).
  - apply (arrayElement_latched _ _ _ H).
  - unfold arrayEnd. destruct wasEmpty; apply (put_latched _ _ _ H).
  - unfold marshalObj, hadError. now rewrite H.
  - unfold marshalArr, hadError. now rewrite H.
  - apply (marshalValue_latched _ _ _ H).
  - unfold Element. cbn [aw_d elementCounter].
    rewrite (arrayElement_latched _ _ _ H). apply (marshalValue_latched _ _ _ H).
  - unfold Member. cbn [ow_d fieldCounter].
    rewrite (objectField_latched _ _ _ _ H). apply (marshalValue_latched _ _ _ H).
Qed.

(** C9. On any decorator, over any sink: [handleError] records an error
    only while none is recorded, and once one is recorded every emission
    operation ([put] first among them) leaves the decorator as it is: the
    sink is not written to and the recorded error stays. *)
Theorem error_latch :
  (forall (d : decorator W) (e : error),
      err d = None ->
      err (handleError e d) = Some e /\ out (handleError e d) = out d)
  /\ (forall (d : decorator W) (e : error) (ops : list emission),
      err d = Some e -> emit_all ops d = d).
Proof.
  split.
  - intros d e H. unfold handleError. rewrite H. now split.
  - intros d e ops H. unfold emit_all.
    induction ops as [|op ops IH]; [reflexivity|].
    cbn [fold_left]. now rewrite (emit_latched op _ _ H).
Qed.

End Latch.

Lemma error_latch_witness :
  let testErr := ErrForeign (B "test error") in
  let d0 := mkDecorator (mkErrorWriter testErr) 6%Z None in
  let d1 := put (B "[") d0 in
  err d0 = None
  /\ err d1 = Some testErr
  /\ emit_all [EmitValue (GoString (B "test")); EmitPut (B ","); EmitFloat64 S754_nan;
               EmitError ErrUnexpectedEOF; EmitArrayEnd false] d1 = d1.
Proof.
  cbv zeta. split; [reflexivity|]. split; [reflexivity|].
  apply (proj2 (@error_latch errorWriter errorWriter_Writer))
    with (e := ErrForeign (B "test error")).
  reflexivity.
Defined.

(* ================================================================== *)
(** * Marshal *)

(** C10. Whenever [Marshal] returns an error, the string it returns is
    empty. *)
Theorem Marshal_error_empty_string (v : GoValue) (opts : list MarshalOpt) :
  snd (Marshal v opts) <> None -> fst (Marshal v opts) = [].
Proof.
  unfold Marshal.
  destruct (parseMarshalOptions opts) as [precision [e|]]; [reflexivity|].
  destruct (err (marshalValue v _)); [reflexivity|].
  cbn [snd]. congruence.
Qed.

Lemma Marshal_error_empty_string_witness :
  let unsupported := GoSlice [GoInt 1; GoOther (B "chan int")] in
  let failing :=
    GoSlice [GoBool true;
             GoNamed (mkMethods None None (Some (B "x", Some (ErrForeign (B "boom")))) None)
                     (mkMethods None None None None) (GoOther (B "main.T"))] in
  (* the sink holds a prefix when the error strikes *)
  out (marshalValue unsupported (mkDecorator [] 6%Z None)) = B "[1,"
  /\ (snd (Marshal unsupported []) <> None /\ fst (Marshal unsupported []) = [])
  /\ (snd (Marshal failing []) <> None /\ fst (Marshal failing []) = [])
  /\ (snd (Marshal (GoFloat (S754_infinity false)) []) <> None
      /\ fst (Marshal (GoFloat (S754_infinity false)) []) = [])
  /\ (snd (Marshal (GoInt 1) [FloatPrecision (-1)]) <> None
      /\ fst (Marshal (GoInt 1) [FloatPrecision (-1)]) = []).
Proof.
  cbv zeta.
  split; [reflexivity|].
  split; [|split; [|split]];
    (split; [vm_compute; discriminate
            | apply Marshal_error_empty_string; vm_compute; discriminate]).
Defined.

(* ================================================================== *)
(** * Null *)

Lemma marshalAt_indirect_nil (n : nat) (addr : bool) (d : decorator bytes) :
  marshalAt false addr (indirect n GoNilPtr) d = marshalNull d
  /\ marshalAt false addr (indirect n (GoPtrIface GoNil)) d = marshalNull d.
Proof.
  revert addr; induction n as [|n IH]; intros addr; [split; reflexivity|].
  cbn [indirect marshalAt andb]. apply IH.
Qed.

(** C4, on the code.  The nil interface is written as [null], and so is a
    nil pointer or a nil interface behind at least one pointer.  A nil
    pointer handed to [marshalValue] directly is written as [nullnull]:
    the test for it at the head of the function writes [null] and does
    not return, and the loop over pointers writes [null] again. *)
Theorem marshalValue_nil_pointer_written_twice :
  Marshal GoNil [] = (B "null", None)
  /\ (forall n, Marshal (indirect (S n) GoNilPtr) [] = (B "null", None))
  /\ (forall n, Marshal (indirect n (GoPtrIface GoNil)) [] = (B "null", None))
  /\ Marshal GoNilPtr [] = (B "nullnull", None)
  /\ Marshal (GoSlice [GoNilPtr]) [] = (B "[nullnull]", None).
Proof.
  split; [reflexivity|]. split; [|split; [|split; reflexivity]].
  - intros n. unfold Marshal. cbn [parseMarshalOptions parseMarshalOptions_loop].
    unfold marshalValue. cbn [indirect marshalAt andb hadError err].
    now rewrite (proj1 (marshalAt_indirect_nil n true _)).
  - intros n. unfold Marshal. cbn [parseMarshalOptions parseMarshalOptions_loop].
    unfold marshalValue. destruct n as [|n].
    + reflexivity.
    + cbn [indirect marshalAt andb hadError err].
      now rewrite (proj2 (marshalAt_indirect_nil n true _)).
Qed.

(* ================================================================== *)
(** * Writing into a strings.Builder *)

Lemma put_Builder (p o : bytes) (prec : Z) :
  put p (mkDecorator o prec None) = mkDecorator (o ++ p) prec None.
Proof. reflexivity. Qed.

Lemma scramble_step_spec (s : bytes) (b c : nat) (d : decorator bytes) (x : byte) :
  scramble_step s b c d x
  = if is_plain x then (b, c + 1, d)
    else scramble_replace s b c (escape_byte x) d.
Proof. destruct x; reflexivity. Qed.

Lemma escape_plain (x : byte) : is_plain x = true -> escape_byte x = [x].
Proof. destruct x; intros H; try discriminate H; reflexivity. Qed.

Lemma escape_all_plain (l : bytes) :
  Forall (fun x => is_plain x = true) l -> escape l = l.
Proof.
  unfold escape. induction 1 as [|x l Hx _ IH]; [reflexivity|].
  cbn [flat_map]. now rewrite escape_plain, IH.
Qed.

(** The loop of [scrambleStr] and the flush after it, from a state in
    which [done] has been written, [pending] is the run of plain bytes
    not yet written and [todo] is still to be read. *)
Lemma scrambleStr_loop_Builder (todo : bytes) :
  forall (done pending o : bytes) (prec : Z),
  Forall (fun x => is_plain x = true) pending ->
  (let '(b, c, d) :=
     scrambleStr_loop (length todo) (done ++ pending ++ todo)
       (length done) (length done + length pending) (mkDecorator o prec None) in
   if negb (c =? b) then put (slice (done ++ pending ++ todo) b c) d else d)
  = mkDecorator (o ++ pending ++ escape todo) prec None.
Proof.
  induction todo as [|x todo IH]; intros done pending o prec Hp.
  - cbn [length scrambleStr_loop escape flat_map]. rewrite !app_nil_r.
    destruct pending as [|y pending].
    + cbn [length]. rewrite Nat.add_0_r, Nat.eqb_refl. cbn [negb].
      now rewrite app_nil_r.
    + replace (length done + length (y :: pending) =? length done) with false
        by (symmetry; apply Nat.eqb_neq; cbn [length]; lia).
      cbn [negb]. rewrite <- (app_nil_r (y :: pending)) at 1.
      rewrite slice_app_mid. apply put_Builder.
  - cbn [length scrambleStr_loop].
    replace (length done + length pending =? length (done ++ pending ++ x :: todo))
      with false
      by (symmetry; apply Nat.eqb_neq; rewrite !length_app; cbn [length]; lia).
    replace (index (done ++ pending ++ x :: todo) (length done + length pending)) with x.
    2:{ rewrite app_assoc, <- length_app. symmetry. apply index_app_here. }
    rewrite scramble_step_spec.
    destruct (is_plain x) eqn:Ex.
    + specialize (IH done (pending ++ [x]) o prec).
      rewrite <- !app_assoc in IH. cbn [app] in IH.
      rewrite length_app in IH. cbn [length] in IH.
      rewrite Nat.add_assoc in IH. rewrite IH.
      * cbn [escape flat_map]. rewrite (escape_plain _ Ex). reflexivity.
      * apply Forall_app. split; [assumption | now constructor].
    + unfold scramble_replace.
      rewrite slice_app_mid, !put_Builder.
      specialize (IH (done ++ pending ++ [x]) [] ((o ++ pending) ++ escape_byte x) prec).
      rewrite <- !app_assoc in IH. cbn [app] in IH.
      rewrite !length_app in IH. cbn [length] in IH.
      rewrite !Nat.add_0_r, Nat.add_assoc in IH.
      rewrite <- !app_assoc. rewrite IH by constructor.
      reflexivity.
Qed.

Lemma scrambleStr_Builder (s o : bytes) (prec : Z) :
  scrambleStr s (mkDecorator o prec None) = mkDecorator (o ++ escape s) prec None.
Proof.
  unfold scrambleStr. destruct s as [|x s'].
  - cbn. now rewrite app_nil_r.
  - cbn [hadError err].
    pose proof (scrambleStr_loop_Builder (x :: s') [] [] o prec (Forall_nil _)) as H.
    cbn [app length Nat.add] in H. exact H.
Qed.

(** C8. Into a [strings.Builder], [scrambleStr] appends the escaped form
    of the string, byte after byte in order: the seven two-character
    escapes, [\u00XX] in lowercase hexadecimal for every other byte below
    0x20, and every other byte unchanged, the forward slash and the bytes
    from 0x80 on among them. *)
Theorem scrambleStr_escapes (s : bytes) (d : decorator bytes) :
  err d = None ->
  scrambleStr s d
  = mkDecorator (out d ++ flat_map escape_byte s) (floatPrecision d) None
  /\ escape_byte x08 = B "\b" /\ escape_byte x0c = B "\f"
  /\ escape_byte x0a = B "\n" /\ escape_byte x0d = B "\r"
  /\ escape_byte x09 = B "\t" /\ escape_byte "\" = B "\\"
  /\ escape_byte x22 = ["\"%byte; x22]
  /\ escape_byte "/" = B "/"
  /\ (forall c, (byte_to_Z c < 0x20)%Z ->
        c = x08 \/ c = x0c \/ c = x0a \/ c = x0d \/ c = x09
        \/ escape_byte c = B "\u00" ++ [lower_hex (byte_to_Z c / 16);
                                        lower_hex (byte_to_Z c mod 16)])
  /\ (forall c, (0x20 <= byte_to_Z c)%Z -> c <> x22 -> c <> "\"%byte ->
        escape_byte c = [c]).
Proof.
  intros H. split.
  - destruct d as [o prec e]. cbn [err out floatPrecision] in *. subst e.
    apply scrambleStr_Builder.
  - repeat (split; [reflexivity|]). split.
    + intros c Hc. destruct c; try (vm_compute in Hc; discriminate Hc); auto 10.
    + intros c Hc Hq Hb. apply escape_plain. unfold is_plain.
      apply Z.leb_le in Hc. rewrite Hc.
      apply byte_eqb_neq in Hq, Hb. now rewrite Hq, Hb.
Qed.

Lemma scrambleStr_escapes_witness :
  let s := B "a/b\c" ++ [x22; x00; x1f; x0a; x0b; x7f; xc3; xa9; xf0; x9d; x84; x9e] in
  let d := mkDecorator (B "[") 6%Z None in
  err d = None
  /\ out (scrambleStr s d)
     = B "[a/b\\c\" ++ [x22] ++ B "\u0000" ++ B "\u001f\n" ++ B "\u000b"
       ++ [x7f; xc3; xa9; xf0; x9d; x84; x9e].
Proof.
  cbv zeta. split; [reflexivity|].
  rewrite (proj1 (scrambleStr_escapes _ (mkDecorator (B "[") 6%Z None) eq_refl)).
  reflexivity.
Defined.

(* ================================================================== *)
(** * Induction over Go values *)

Lemma GoValue_ind (P : GoValue -> Prop) :
  P GoNil ->
  P GoNilPtr ->
  (forall v, P v -> P (GoPtr v)) ->
  (forall v, P v -> P (GoPtrIface v)) ->
  (forall b, P (GoBool b)) ->
  (forall i, P (GoInt i)) ->
  (forall u, P (GoUint u)) ->
  (forall f, P (GoFloat f)) ->
  (forall s, P (GoString s)) ->
  (forall b, P (GoByteSeq b)) ->
  (forall elems, Forall P elems -> P (GoSlice elems)) ->
  (forall pairs, Forall (fun kv => P (snd kv)) pairs -> P (GoMap pairs)) ->
  (forall calls, Forall P calls -> P (GoFuncArr calls)) ->
  (forall calls ret, Forall P calls -> P (GoFuncArrErr calls ret)) ->
  (forall calls, Forall (fun kv => P (snd kv)) calls -> P (GoFuncObj calls)) ->
  (forall calls ret, Forall (fun kv => P (snd kv)) calls -> P (GoFuncObjErr calls ret)) ->
  (forall vm pm under,
      methods_all P vm -> methods_all P pm -> P under -> P (GoNamed vm pm under)) ->
  (forall t, P (GoOther t)) ->
  forall v, P v.
Proof.
  intros HNil HNilPtr HPtr HPtrI HBool HInt HUint HFloat HString HBytes
         HSlice HMap HFA HFAE HFO HFOE HNamed HOther.
  fix IH 1. intros v.
  assert (Hl : forall l : list GoValue, Forall P l).
  { intros l. induction l as [|a l IHl]; constructor; [apply IH | exact IHl]. }
  assert (Hp : forall l : list (bytes * GoValue), Forall (fun kv => P (snd kv)) l).
  { intros l. induction l as [|[k a] l IHl]; constructor; [apply IH | exact IHl]. }
  assert (Hm : forall ms : MethodSet GoValue, methods_all P ms).
  { intros [o a s t]. unfold methods_all; cbn [ObjMarshaler ArrMarshaler]. split.
    - destruct o as [[calls ret]|]; [apply Hp | exact I].
    - destruct a as [[calls ret]|]; [apply Hl | exact I]. }
  destruct v.
  - exact HNil.
  - exact HNilPtr.
  - apply HPtr, IH.
  - apply HPtrI, IH.
  - apply HBool.
  - apply HInt.
  - apply HUint.
  - apply HFloat.
  - apply HString.
  - apply HBytes.
  - apply HSlice, Hl.
  - apply HMap, Hp.
  - apply HFA, Hl.
  - apply HFAE, Hl.
  - apply HFO, Hp.
  - apply HFOE, Hp.
  - apply HNamed; [apply Hm | apply Hm | apply IH].
  - apply HOther.
Qed.

(* ================================================================== *)
(** * Emitters into a strings.Builder *)

Lemma bdec_eta (d : bdec) : d = mkDecorator (out d) (floatPrecision d) (err d).
Proof. now destruct d. Qed.

Lemma framed_ext (f g : bdec -> bdec) :
  (forall d, f d = g d) -> framed f -> framed g.
Proof.
  intros E [L F]. unfold framed, text_of, status_of. split.
  - intros d e H. rewrite <- E. now apply L with e.
  - intros o prec. rewrite <- !E. apply F.
Qed.

Lemma framed_id : framed (fun d => d).
Proof.
  split; [reflexivity|]. intros o prec. unfold text_of, status_of; cbn.
  now rewrite app_nil_r.
Qed.

Lemma framed_put (p : bytes) : framed (put p).
Proof.
  split.
  - intros d e H. now apply put_latched with e.
  - intros o prec. reflexivity.
Qed.

Lemma framed_handleError (e : error) : framed (handleError e).
Proof.
  split.
  - intros d e' H. now apply handleError_latched with e'.
  - intros o prec. unfold text_of, status_of, handleError; cbn.
    now rewrite app_nil_r.
Qed.

Lemma framed_comp (f g : bdec -> bdec) :
  framed f -> framed g -> framed (fun d => g (f d)).
Proof.
  intros [Lf Ff] [Lg Fg]. split.
  - intros d e H. rewrite (Lf d e H). now apply Lg with e.
  - intros o prec. unfold text_of, status_of.
    rewrite (Ff o prec), (Ff [] prec). cbn [app].
    destruct (status_of f prec) as [e|].
    + rewrite !(Lg (mkDecorator _ _ (Some e)) e eq_refl). reflexivity.
    + rewrite (Fg (o ++ text_of f prec) prec), (Fg (text_of f prec) prec).
      cbn [out err]. now rewrite app_assoc.
Qed.

(** The text and the error of a composition. *)
Lemma text_comp (f g : bdec -> bdec) (prec : Z) :
  framed f -> framed g -> status_of f prec = None ->
  text_of (fun d => g (f d)) prec = text_of f prec ++ text_of g prec
  /\ status_of (fun d => g (f d)) prec = status_of g prec.
Proof.
  intros [Lf Ff] [Lg Fg] Hs. unfold text_of at 1, status_of at 1.
  rewrite (Ff [] prec), Hs. cbn [app]. rewrite (Fg (text_of f prec) prec).
  now split.
Qed.

Lemma text_comp_err (f g : bdec -> bdec) (prec : Z) (e : error) :
  framed f -> framed g -> status_of f prec = Some e ->
  status_of (fun d => g (f d)) prec = Some e.
Proof.
  intros [Lf Ff] [Lg Fg] Hs. unfold status_of at 1.
  rewrite (Ff [] prec), Hs. now rewrite (Lg (mkDecorator _ _ (Some e)) e eq_refl).
Qed.

Lemma framed_guard (entry : bool) (f : bdec -> bdec) :
  framed f -> framed (fun d => if entry && hadError d then d else f d).
Proof.
  intros [L F]. split.
  - intros d e H. destruct (entry && hadError d); [reflexivity | now apply L with e].
  - intros o prec. unfold text_of, status_of, hadError; cbn [err].
    rewrite andb_false_r. apply F.
Qed.

Lemma framed_if (c : bool) (f g : bdec -> bdec) :
  framed f -> framed g -> framed (fun d => if c then f d else g d).
Proof. now destruct c. Qed.

Lemma framed_scrambleStr (s : bytes) : framed (scrambleStr s).
Proof.
  split.
  - intros d e H. now apply scrambleStr_latched with e.
  - intros o prec. unfold text_of, status_of.
    now rewrite !scrambleStr_Builder.
Qed.

Lemma framed_marshalString (s : bytes) : framed (marshalString s).
Proof.
  unfold marshalString.
  apply (framed_comp (fun d => scrambleStr s (put [x22] d)) (put [x22])).
  - apply (framed_comp (put [x22]) (scrambleStr s)).
    + apply framed_put.
    + apply framed_scrambleStr.
  - apply framed_put.
Qed.

Lemma framed_marshalNull : framed marshalNull.
Proof. apply framed_put. Qed.

Lemma framed_marshalBool (b : bool) : framed (marshalBool b).
Proof. destruct b; apply framed_put. Qed.

Lemma framed_marshalFloat64 (f : spec_float) : framed (marshalFloat64 f).
Proof.
  split.
  - intros d e H. unfold marshalFloat64.
    destruct (IsInf f || IsNaN f); rewrite ?(handleError_latched _ _ _ H);
      now apply put_latched with e.
  - intros o prec. unfold text_of, status_of, marshalFloat64.
    destruct (IsInf f || IsNaN f); cbn; now rewrite ?app_nil_r.
Qed.

Lemma framed_objectField (name : bytes) (first : bool) : framed (objectField name first).
Proof.
  unfold objectField.
  apply (framed_comp
           (fun d => scrambleStr name
                       (if first then put ["{"%byte; x22] d else put [","%byte; x22] d))
           (put [x22; ":"%byte])).
  - apply (framed_comp
             (fun d => if first then put ["{"%byte; x22] d else put [","%byte; x22] d)
             (scrambleStr name)).
    + apply framed_if; apply framed_put.
    + apply framed_scrambleStr.
  - apply framed_put.
Qed.

Lemma framed_objectEnd (wasEmpty : bool) : framed (objectEnd wasEmpty).
Proof. destruct wasEmpty; apply framed_put. Qed.

Lemma framed_arrayElement (first : bool) : framed (arrayElement first).
Proof. destruct first; apply framed_put. Qed.

Lemma framed_arrayEnd (wasEmpty : bool) : framed (arrayEnd wasEmpty).
Proof. destruct wasEmpty; apply framed_put. Qed.

Section FramedWriters.

Variable mv : GoValue -> bdec -> bdec.

Lemma run_ArrayWriter_counter (calls : list GoValue) (w : arrayWriter) :
  elementCounter (run_ArrayWriter mv calls w) = elementCounter w + length calls.
Proof.
  revert w; induction calls as [|v calls IH]; intros w; cbn [run_ArrayWriter length].
  - lia.
  - rewrite IH. unfold Element; cbn [elementCounter]. lia.
Qed.

Lemma run_ObjectWriter_counter (calls : list (bytes * GoValue)) (w : objectWriter) :
  fieldCounter (run_ObjectWriter mv calls w) = fieldCounter w + length calls.
Proof.
  revert w; induction calls as [|[k v] calls IH]; intros w;
    cbn [run_ObjectWriter length].
  - lia.
  - rewrite IH. unfold Member; cbn [fieldCounter]. lia.
Qed.

Lemma framed_run_ArrayWriter (calls : list GoValue) :
  Forall (fun v => framed (mv v)) calls ->
  forall n, framed (fun d => aw_d (run_ArrayWriter mv calls (mkArrayWriter d n))).
Proof.
  induction 1 as [|v calls Hv _ IH]; intros n; cbn [run_ArrayWriter].
  - apply framed_id.
  - unfold Element; cbn [aw_d elementCounter].
    apply (framed_comp (fun d => mv v (arrayElement (n =? 0) d))
                       (fun d => aw_d (run_ArrayWriter mv calls (mkArrayWriter d (n + 1))))).
    + apply (framed_comp (arrayElement (n =? 0)) (mv v));
        [apply framed_arrayElement | exact Hv].
    + apply IH.
Qed.

Lemma framed_run_ObjectWriter (calls : list (bytes * GoValue)) :
  Forall (fun kv => framed (mv (snd kv))) calls ->
  forall n, framed (fun d => ow_d (run_ObjectWriter mv calls (mkObjectWriter d n))).
Proof.
  induction 1 as [|[k v] calls Hv _ IH]; intros n; cbn [run_ObjectWriter].
  - apply framed_id.
  - unfold Member; cbn [ow_d fieldCounter].
    apply (framed_comp (fun d => mv v (objectField k (n =? 0) d))
                       (fun d => ow_d (run_ObjectWriter mv calls (mkObjectWriter d (n + 1))))).
    + apply (framed_comp (objectField k (n =? 0)) (mv v));
        [apply framed_objectField | exact Hv].
    + apply IH.
Qed.

Lemma framed_handle_opt (ret : option error) :
  framed (fun d : bdec => match ret with Some e => handleError e d | None => d end).
Proof. destruct ret; [apply framed_handleError | apply framed_id]. Qed.

Lemma framed_marshalArr (m : list GoValue * option error) :
  Forall (fun v => framed (mv v)) (fst m) -> framed (marshalArr mv m).
Proof.
  intros Hm.
  apply framed_ext with
    (f := fun d => if true && hadError d then d else
            arrayEnd (length (fst m) =? 0)
              (match snd m with
               | Some e => handleError e (aw_d (run_ArrayWriter mv (fst m) (mkArrayWriter d 0)))
               | None => aw_d (run_ArrayWriter mv (fst m) (mkArrayWriter d 0))
               end)).
  - intros d. unfold marshalArr, arrayBegin. cbn [andb].
    now rewrite run_ArrayWriter_counter.
  - apply framed_guard.
    apply (framed_comp
             (fun d => match snd m with
                       | Some e => handleError e (aw_d (run_ArrayWriter mv (fst m) (mkArrayWriter d 0)))
                       | None => aw_d (run_ArrayWriter mv (fst m) (mkArrayWriter d 0))
                       end)
             (arrayEnd (length (fst m) =? 0))); [|apply framed_arrayEnd].
    apply framed_ext with
      (f := fun d => (fun d' => match snd m with Some e => handleError e d' | None => d' end)
                       (aw_d (run_ArrayWriter mv (fst m) (mkArrayWriter d 0)))).
    + intros d. now destruct (snd m).
    + apply (framed_comp (fun d => aw_d (run_ArrayWriter mv (fst m) (mkArrayWriter d 0)))
                         (fun d' => match snd m with Some e => handleError e d' | None => d' end)).
      * now apply framed_run_ArrayWriter.
      * apply framed_handle_opt.
Qed.

Lemma framed_marshalObj (m : list (bytes * GoValue) * option error) :
  Forall (fun kv => framed (mv (snd kv))) (fst m) -> framed (marshalObj mv m).
Proof.
  intros Hm.
  apply framed_ext with
    (f := fun d => if true && hadError d then d else
            objectEnd (length (fst m) =? 0)
              (match snd m with
               | Some e => handleError e (ow_d (run_ObjectWriter mv (fst m) (mkObjectWriter d 0)))
               | None => ow_d (run_ObjectWriter mv (fst m) (mkObjectWriter d 0))
               end)).
  - intros d. unfold marshalObj, objectBegin. cbn [andb].
    now rewrite run_ObjectWriter_counter.
  - apply framed_guard.
    apply (framed_comp
             (fun d => match snd m with
                       | Some e => handleError e (ow_d (run_ObjectWriter mv (fst m) (mkObjectWriter d 0)))
                       | None => ow_d (run_ObjectWriter mv (fst m) (mkObjectWriter d 0))
                       end)
             (objectEnd (length (fst m) =? 0))); [|apply framed_objectEnd].
    apply framed_ext with
      (f := fun d => (fun d' => match snd m with Some e => handleError e d' | None => d' end)
                       (ow_d (run_ObjectWriter mv (fst m) (mkObjectWriter d 0)))).
    + intros d. now destruct (snd m).
    + apply (framed_comp (fun d => ow_d (run_ObjectWriter mv (fst m) (mkObjectWriter d 0)))
                         (fun d' => match snd m with Some e => handleError e d' | None => d' end)).
      * now apply framed_run_ObjectWriter.
      * apply framed_handle_opt.
Qed.

(** The loop over a slice leaves by [return] only with an error recorded,
    and what it leaves is what the rounds, run one after the other, leave. *)
Lemma marshal_elems_returned (elems : list GoValue) :
  forall i d, fst (marshal_elems mv i elems d) = true ->
              hadError (snd (marshal_elems mv i elems d)) = true.
Proof.
  induction elems as [|v elems IH]; intros i d; cbn [marshal_elems].
  - discriminate.
  - destruct (hadError (mv v (arrayElement (i =? 0) d))) eqn:E; cbn [fst snd].
    + intros _. exact E.
    + apply IH.
Qed.

Lemma framed_marshal_elems (elems : list GoValue) :
  Forall (fun v => framed (mv v)) elems ->
  forall i, framed (fun d => snd (marshal_elems mv i elems d)).
Proof.
  induction 1 as [|v elems Hv _ IH]; intros i; cbn [marshal_elems].
  - apply framed_id.
  - apply framed_ext with
      (f := fun d => (fun d' => snd (marshal_elems mv (S i) elems d'))
                       (mv v (arrayElement (i =? 0) d))).
    + intros d. destruct (hadError (mv v (arrayElement (i =? 0) d))) eqn:E;
        [|reflexivity].
      cbn [snd]. unfold hadError in E.
      destruct (err (mv v (arrayElement (i =? 0) d))) as [e|] eqn:Ee;
        [|discriminate E].
      apply (proj1 (IH (S i)) _ e Ee).
    + apply (framed_comp (fun d => mv v (arrayElement (i =? 0) d))
                         (fun d' => snd (marshal_elems mv (S i) elems d'))).
      * apply (framed_comp (arrayElement (i =? 0)) (mv v));
          [apply framed_arrayElement | exact Hv].
      * apply IH.
Qed.

End FramedWriters.

Lemma marshal_pairs_returned (pairs : list (bytes * (bdec -> bdec))) :
  forall i d, fst (marshal_pairs i pairs d) = true ->
              hadError (snd (marshal_pairs i pairs d)) = true.
Proof.
  induction pairs as [|[k f] pairs IH]; intros i d; cbn [marshal_pairs].
  - discriminate.
  - destruct (hadError (f (objectField k (i =? 0) d))) eqn:E; cbn [fst snd].
    + intros _. exact E.
    + apply IH.
Qed.

Lemma framed_marshal_pairs (pairs : list (bytes * (bdec -> bdec))) :
  Forall (fun kf => framed (snd kf)) pairs ->
  forall i, framed (fun d => snd (marshal_pairs i pairs d)).
Proof.
  induction 1 as [|[k f] pairs Hf _ IH]; intros i; cbn [marshal_pairs].
  - apply framed_id.
  - cbn [snd] in Hf.
    apply framed_ext with
      (f := fun d => (fun d' => snd (marshal_pairs (S i) pairs d'))
                       (f (objectField k (i =? 0) d))).
    + intros d. destruct (hadError (f (objectField k (i =? 0) d))) eqn:E;
        [|reflexivity].
      cbn [snd]. unfold hadError in E.
      destruct (err (f (objectField k (i =? 0) d))) as [e|] eqn:Ee;
        [|discriminate E].
      apply (proj1 (IH (S i)) _ e Ee).
    + apply (framed_comp (fun d => f (objectField k (i =? 0) d))
                         (fun d' => snd (marshal_pairs (S i) pairs d'))).
      * apply (framed_comp (objectField k (i =? 0)) f);
          [apply framed_objectField | exact Hf].
      * apply IH.
Qed.

(** Sorting moves the entries and keeps them. *)
Lemma Forall_insert {A : Type} (less : A -> A -> bool) (P : A -> Prop) (x : A) (l : list A) :
  P x -> Forall P l -> Forall P (sort.insert less x l).
Proof.
  intros Hx. induction 1 as [|y l Hy Hl IH]; cbn [sort.insert].
  - now constructor.
  - destruct (less x y); repeat constructor; assumption.
Qed.

Lemma Forall_sort {A : Type} (less : A -> A -> bool) (P : A -> Prop) (l : list A) :
  Forall P l -> Forall P (sort.Slice less l).
Proof.
  induction 1 as [|x l Hx Hl IH]; cbn [sort.Slice]; [constructor|].
  now apply Forall_insert.
Qed.

Lemma Forall_map_pairs (mv : GoValue -> bdec -> bdec) (pairs : list (bytes * GoValue)) :
  Forall (fun kv => framed (mv (snd kv))) pairs ->
  Forall (fun kf => framed (snd kf)) (map_pairs mv pairs).
Proof.
  induction 1 as [|[k v] pairs Hv _ IH]; cbn [map_pairs]; constructor; assumption.
Qed.

(* ================================================================== *)
(** * marshalValue into a strings.Builder *)

Lemma framed_str_method (s : bytes) (e : option error) :
  framed (fun d : bdec => match e with
                          | Some e => handleError e d
                          | None => marshalString s d
                          end).
Proof. destruct e; [apply framed_handleError | apply framed_marshalString]. Qed.

Lemma framed_text_method (s : bytes) (e : option error) :
  framed (fun d : bdec =>
            marshalString s (match e with Some e => handleError e d | None => d end)).
Proof.
  apply (framed_comp (fun d => match e with Some e => handleError e d | None => d end)
                     (marshalString s)).
  - apply framed_handle_opt.
  - apply framed_marshalString.
Qed.

(** Whatever the value, [marshalValue] does nothing once an error is
    recorded, and otherwise appends a text that does not depend on what
    has been written before. *)
Lemma framed_marshalAt (v : GoValue) :
  forall entry addr, framed (marshalAt entry addr v).
Proof.
  induction v using GoValue_ind; intros entry addr.
  - (* GoNil *)
    apply (framed_guard entry marshalNull), framed_marshalNull.
  - (* GoNilPtr *)
    apply (framed_guard entry
             (fun d => marshalNull (if entry then marshalNull d else d))).
    apply (framed_comp (fun d => if entry then marshalNull d else d) marshalNull).
    + apply (framed_if entry marshalNull (fun d => d));
        [apply framed_marshalNull | apply framed_id].
    + apply framed_marshalNull.
  - (* GoPtr *)
    apply (framed_guard entry (marshalAt false true v)), IHv.
  - (* GoPtrIface *)
    apply (framed_guard entry (marshalAt false false v)), IHv.
  - apply (framed_guard entry (marshalBool b)), framed_marshalBool.
  - apply (framed_guard entry (put (strconv.FormatInt i))), framed_put.
  - apply (framed_guard entry (put (strconv.FormatUint u))), framed_put.
  - apply (framed_guard entry (marshalFloat64 f)), framed_marshalFloat64.
  - apply (framed_guard entry (marshalString s)), framed_marshalString.
  - apply (framed_guard entry (marshalString b)), framed_marshalString.
  - (* GoSlice *)
    assert (Forall (fun v => framed (marshalAt true false v)) elems) as HF.
    { eapply Forall_impl; [|exact H]. intros a Ha. apply Ha. }
    apply framed_ext with
      (f := fun d => if entry && hadError d then d else
              arrayEnd (length elems =? 0)
                (snd (marshal_elems (marshalAt true false) 0 elems d))).
    + intros d. cbn [marshalAt]. destruct (entry && hadError d); [reflexivity|].
      unfold arrayBegin.
      pose proof (marshal_elems_returned (marshalAt true false) elems 0 d) as R.
      destruct (marshal_elems (marshalAt true false) 0 elems d) as [[] d'];
        cbn [fst snd] in *; [|reflexivity].
      specialize (R eq_refl). unfold hadError in R.
      destruct (err d') as [e|] eqn:E; [|discriminate R].
      apply (proj1 (framed_arrayEnd _) _ e E).
    + apply framed_guard.
      apply (framed_comp (fun d => snd (marshal_elems (marshalAt true false) 0 elems d))
                         (arrayEnd (length elems =? 0))).
      * now apply framed_marshal_elems.
      * apply framed_arrayEnd.
  - (* GoMap *)
    assert (Forall (fun kf => framed (snd kf))
              (sort.Slice (@pair_less _) (map_pairs (marshalAt true false) pairs))) as HF.
    { apply Forall_sort, Forall_map_pairs.
      eapply Forall_impl; [|exact H]. intros a Ha. apply Ha. }
    apply framed_ext with
      (f := fun d => if entry && hadError d then d else
              objectEnd (length pairs =? 0)
                (snd (marshal_pairs 0
                        (sort.Slice (@pair_less _) (map_pairs (marshalAt true false) pairs))
                        d))).
    + intros d. cbn [marshalAt]. destruct (entry && hadError d); [reflexivity|].
      unfold objectBegin.
      pose proof (marshal_pairs_returned
                    (sort.Slice (@pair_less _) (map_pairs (marshalAt true false) pairs))
                    0 d) as R.
      destruct (marshal_pairs 0 _ d) as [[] d']; cbn [fst snd] in *; [|reflexivity].
      specialize (R eq_refl). unfold hadError in R.
      destruct (err d') as [e|] eqn:E; [|discriminate R].
      apply (proj1 (framed_objectEnd _) _ e E).
    + apply framed_guard.
      apply (framed_comp
               (fun d => snd (marshal_pairs 0
                        (sort.Slice (@pair_less _) (map_pairs (marshalAt true false) pairs))
                        d))
               (objectEnd (length pairs =? 0))).
      * now apply framed_marshal_pairs.
      * apply framed_objectEnd.
  - (* GoFuncArr *)
    assert (Forall (fun v => framed (marshalAt true false v)) calls) as HF.
    { eapply Forall_impl; [|exact H]. intros a Ha. apply Ha. }
    destruct entry.
    + apply framed_ext with
        (f := fun d => if true && hadError d then d else
                arrayEnd (length calls =? 0)
                  (aw_d (run_ArrayWriter (marshalAt true false) calls (mkArrayWriter d 0)))).
      * intros d. cbn [marshalAt]. unfold arrayBegin.
        now rewrite run_ArrayWriter_counter.
      * apply framed_guard.
        apply (framed_comp
                 (fun d => aw_d (run_ArrayWriter (marshalAt true false) calls
                                   (mkArrayWriter d 0)))
                 (arrayEnd (length calls =? 0))).
        -- now apply framed_run_ArrayWriter.
        -- apply framed_arrayEnd.
    + apply (framed_guard false
               (handleError (UnsupportedTypeError (type_name (GoFuncArr calls))))),
        framed_handleError.
  - (* GoFuncArrErr *)
    assert (Forall (fun v => framed (marshalAt true false v)) calls) as HF.
    { eapply Forall_impl; [|exact H]. intros a Ha. apply Ha. }
    destruct entry.
    + apply framed_ext with
        (f := fun d => if true && hadError d then d else
                (fun d' => match ret with
                           | Some e => handleError e d'
                           | None => arrayEnd (length calls =? 0) d'
                           end)
                  (aw_d (run_ArrayWriter (marshalAt true false) calls (mkArrayWriter d 0)))).
      * intros d. cbn [marshalAt]. unfold arrayBegin.
        now rewrite run_ArrayWriter_counter.
      * apply framed_guard.
        apply (framed_comp
                 (fun d => aw_d (run_ArrayWriter (marshalAt true false) calls
                                   (mkArrayWriter d 0)))
                 (fun d' => match ret with
                            | Some e => handleError e d'
                            | None => arrayEnd (length calls =? 0) d'
                            end)).
        -- now apply framed_run_ArrayWriter.
        -- destruct ret; [apply framed_handleError | apply framed_arrayEnd].
    + apply (framed_guard false
               (handleError (UnsupportedTypeError (type_name (GoFuncArrErr calls ret))))),
        framed_handleError.
  - (* GoFuncObj *)
    assert (Forall (fun kv => framed (marshalAt true false (snd kv))) calls) as HF.
    { eapply Forall_impl; [|exact H]. intros a Ha. apply Ha. }
    destruct entry.
    + apply framed_ext with
        (f := fun d => if true && hadError d then d else
                objectEnd (length calls =? 0)
                  (ow_d (run_ObjectWriter (marshalAt true false) calls (mkObjectWriter d 0)))).
      * intros d. cbn [marshalAt]. unfold objectBegin.
        now rewrite run_ObjectWriter_counter.
      * apply framed_guard.
        apply (framed_comp
                 (fun d => ow_d (run_ObjectWriter (marshalAt true false) calls
                                   (mkObjectWriter d 0)))
                 (objectEnd (length calls =? 0))).
        -- now apply framed_run_ObjectWriter.
        -- apply framed_objectEnd.
    + apply (framed_guard false
               (handleError (UnsupportedTypeError (type_name (GoFuncObj calls))))),
        framed_handleError.
  - (* GoFuncObjErr *)
    assert (Forall (fun kv => framed (marshalAt true false (snd kv))) calls) as HF.
    { eapply Forall_impl; [|exact H]. intros a Ha. apply Ha. }
    destruct entry.
    + apply framed_ext with
        (f := fun d => if true && hadError d then d else
                (fun d' => match ret with
                           | Some e => handleError e d'
                           | None => objectEnd (length calls =? 0) d'
                           end)
                  (ow_d (run_ObjectWriter (marshalAt true false) calls (mkObjectWriter d 0)))).
      * intros d. cbn [marshalAt]. unfold objectBegin.
        now rewrite run_ObjectWriter_counter.
      * apply framed_guard.
        apply (framed_comp
                 (fun d => ow_d (run_ObjectWriter (marshalAt true false) calls
                                   (mkObjectWriter d 0)))
                 (fun d' => match ret with
                            | Some e => handleError e d'
                            | None => objectEnd (length calls =? 0) d'
                            end)).
        -- now apply framed_run_ObjectWriter.
        -- destruct ret; [apply framed_handleError | apply framed_objectEnd].
    + apply (framed_guard false
               (handleError (UnsupportedTypeError (type_name (GoFuncObjErr calls ret))))),
        framed_handleError.
  - (* GoNamed *)
    assert (Hobj : forall ms m, methods_all
                     (fun v => forall entry addr, framed (marshalAt entry addr v)) ms ->
                   ObjMarshaler ms = Some m ->
                   framed (marshalObj (marshalAt true false) m)).
    { intros ms [calls ret] [Ho _] E. rewrite E in Ho.
      apply framed_marshalObj. cbn [fst].
      eapply Forall_impl; [|exact Ho]. intros a Ha. apply Ha. }
    assert (Harr : forall ms m, methods_all
                     (fun v => forall entry addr, framed (marshalAt entry addr v)) ms ->
                   ArrMarshaler ms = Some m ->
                   framed (marshalArr (marshalAt true false) m)).
    { intros ms [calls ret] [_ Ha] E. rewrite E in Ha.
      apply framed_marshalArr. cbn [fst].
      eapply Forall_impl; [|exact Ha]. intros a Ha'. apply Ha'. }
    destruct vm as [[mo|] ma ms mt].
    { apply (framed_guard entry (marshalObj (marshalAt true false) mo)).
      now apply (Hobj _ mo H). }
    destruct ma as [ma|].
    { apply (framed_guard entry (marshalArr (marshalAt true false) ma)).
      now apply (Harr _ ma H). }
    destruct ms as [[s e]|].
    { apply (framed_guard entry
               (fun d => match e with
                         | Some e => handleError e d
                         | None => marshalString s d
                         end)), framed_str_method. }
    destruct mt as [[s e]|].
    { apply (framed_guard entry
               (fun d => marshalString s
                           (match e with Some e => handleError e d | None => d end))),
        framed_text_method. }
    destruct addr; [|apply (framed_guard entry (marshalAt false false v)), IHv].
    destruct pm as [[mo|] ma ms mt].
    { apply (framed_guard entry (marshalObj (marshalAt true false) mo)).
      now apply (Hobj _ mo H0). }
    destruct ma as [ma|].
    { apply (framed_guard entry (marshalArr (marshalAt true false) ma)).
      now apply (Harr _ ma H0). }
    destruct ms as [[s e]|].
    { apply (framed_guard entry
               (fun d => match e with
                         | Some e => handleError e d
                         | None => marshalString s d
                         end)), framed_str_method. }
    destruct mt as [[s e]|].
    { apply (framed_guard entry
               (fun d => match e with
                         | Some e => handleError e d
                         | None => marshalString s d
                         end)), framed_str_method. }
    apply (framed_guard entry (marshalAt false true v)), IHv.
  - (* GoOther *)
    apply (framed_guard entry (handleError (UnsupportedTypeError t))),
      framed_handleError.
Qed.

(* ================================================================== *)
(** * The order of the keys *)

Lemma byte_to_Z_inj (a c : byte) : byte_to_Z a = byte_to_Z c -> a = c.
Proof.
  unfold byte_to_Z. intros H. apply N2Z.inj in H.
  pose proof (Byte.of_to_N a) as Ha. rewrite H, Byte.of_to_N in Ha. congruence.
Qed.

Lemma bytes_ltb_irrefl (a : bytes) : bytes_ltb a a = false.
Proof.
  induction a as [|x a IH]; [reflexivity|]. cbn [bytes_ltb].
  unfold byte_ltb. rewrite Z.ltb_irrefl. exact IH.
Qed.

Lemma bytes_ltb_trans (a b c : bytes) :
  bytes_ltb a b = true -> bytes_ltb b c = true -> bytes_ltb a c = true.
Proof.
  revert b c; induction a as [|x a IH]; intros [|y b] [|z c]; cbn [bytes_ltb];
    try discriminate; try reflexivity.
  unfold byte_ltb.
  destruct (Z.ltb_spec (byte_to_Z x) (byte_to_Z y)),
           (Z.ltb_spec (byte_to_Z y) (byte_to_Z x)),
           (Z.ltb_spec (byte_to_Z y) (byte_to_Z z)),
           (Z.ltb_spec (byte_to_Z z) (byte_to_Z y)),
           (Z.ltb_spec (byte_to_Z x) (byte_to_Z z)),
           (Z.ltb_spec (byte_to_Z z) (byte_to_Z x));
    try discriminate; try reflexivity; try lia.
  apply IH.
Qed.

Lemma bytes_ltb_trichotomy (a b : bytes) :
  bytes_ltb a b = false -> bytes_ltb b a = false -> a = b.
Proof.
  revert b; induction a as [|x a IH]; intros [|y b]; cbn [bytes_ltb];
    try discriminate; try reflexivity.
  unfold byte_ltb.
  destruct (Z.ltb_spec (byte_to_Z x) (byte_to_Z y)),
           (Z.ltb_spec (byte_to_Z y) (byte_to_Z x));
    try discriminate; try lia.
  intros H1 H2. f_equal; [apply byte_to_Z_inj; lia | now apply IH].
Qed.

Lemma bytes_ltb_asym (a b : bytes) :
  bytes_ltb a b = true -> bytes_ltb b a = false.
Proof.
  intros H. destruct (bytes_ltb b a) eqn:E; [|reflexivity].
  pose proof (bytes_ltb_trans _ _ _ H E) as C.
  now rewrite bytes_ltb_irrefl in C.
Qed.

Lemma key_le_trans (a b c : bytes) : key_le a b -> key_le b c -> key_le a c.
Proof.
  unfold key_le. intros Hab Hbc.
  destruct (bytes_ltb c a) eqn:E; [exfalso | reflexivity].
  destruct (bytes_ltb b c) eqn:Ebc.
  - rewrite (bytes_ltb_trans _ _ _ Ebc E) in Hab. discriminate.
  - rewrite (bytes_ltb_trichotomy _ _ Ebc Hbc) in Hab. congruence.
Qed.

Section SortPairs.

Context {A : Type}.

Abbreviation psort := (sort.Slice (@pair_less A)).
Abbreviation pinsert := (sort.insert (@pair_less A)).

Lemma insert_perm (x : bytes * A) (l : list (bytes * A)) :
  Permutation (pinsert x l) (x :: l).
Proof.
  induction l as [|y l IH]; cbn [sort.insert]; [reflexivity|].
  destruct (pair_less x y); [reflexivity|].
  rewrite IH. apply perm_swap.
Qed.

Lemma sort_perm (l : list (bytes * A)) : Permutation (psort l) l.
Proof.
  induction l as [|x l IH]; cbn [sort.Slice]; [reflexivity|].
  rewrite insert_perm. now constructor.
Qed.

Lemma insert_sorted (x : bytes * A) (l : list (bytes * A)) :
  StronglySorted (fun p q => key_le (fst p) (fst q)) l ->
  StronglySorted (fun p q => key_le (fst p) (fst q)) (pinsert x l).
Proof.
  induction 1 as [|y l Hl IH Hy]; cbn [sort.insert].
  - repeat constructor.
  - destruct (pair_less x y) eqn:E; unfold pair_less in E.
    + constructor; [now constructor|].
      constructor; [now apply bytes_ltb_asym|].
      eapply Forall_impl; [|exact Hy]. intros z Hz.
      eapply key_le_trans; [|exact Hz]. now apply bytes_ltb_asym.
    + constructor; [exact IH|].
      eapply Permutation_Forall; [symmetry; apply insert_perm|].
      constructor; [exact E | exact Hy].
Qed.

Lemma sort_sorted (l : list (bytes * A)) :
  StronglySorted (fun p q => key_le (fst p) (fst q)) (psort l).
Proof.
  induction l as [|x l IH]; cbn [sort.Slice]; [constructor|].
  now apply insert_sorted.
Qed.

Lemma sorted_strict (l : list (bytes * A)) :
  NoDup (map fst l) ->
  StronglySorted (fun p q => key_le (fst p) (fst q)) l ->
  StronglySorted (fun p q => key_lt (fst p) (fst q)) l.
Proof.
  intros Hn Hs. induction Hs as [|x l Hl IH Hx]; [constructor|].
  cbn [map] in Hn. inversion Hn as [|? ? Hnot Hn']; subst.
  constructor; [now apply IH|].
  rewrite Forall_forall in Hx |- *. intros y Hy.
  specialize (Hx y Hy). unfold key_le in Hx. unfold key_lt.
  destruct (bytes_ltb (fst x) (fst y)) eqn:E; [reflexivity|].
  exfalso. apply Hnot. rewrite (bytes_ltb_trichotomy _ _ E Hx).
  now apply in_map.
Qed.

Lemma sort_strict (l : list (bytes * A)) :
  NoDup (map fst l) ->
  StronglySorted (fun p q => key_lt (fst p) (fst q)) (psort l).
Proof.
  intros Hn. apply sorted_strict; [|apply sort_sorted].
  eapply Permutation_NoDup; [|exact Hn].
  apply Permutation_map. symmetry. apply sort_perm.
Qed.

(** Two lists in ascending order of distinct keys with the same entries
    are the same list. *)
Lemma sorted_perm_eq (l1 l2 : list (bytes * A)) :
  StronglySorted (fun p q => key_lt (fst p) (fst q)) l1 ->
  StronglySorted (fun p q => key_lt (fst p) (fst q)) l2 ->
  Permutation l1 l2 -> l1 = l2.
Proof.
  intros H1; revert l2; induction H1 as [|x l1 Hl1 IH Hx]; intros l2 H2 HP.
  - apply Permutation_nil in HP. now subst.
  - destruct H2 as [|y l2 Hl2 Hy].
    + symmetry in HP. apply Permutation_nil in HP. discriminate.
    + assert (x = y) as ->.
      { assert (In x (y :: l2)) as Ix
          by (eapply Permutation_in; [exact HP | now left]).
        assert (In y (x :: l1)) as Iy
          by (eapply Permutation_in; [symmetry; exact HP | now left]).
        destruct Ix as [->|Ix]; [reflexivity|].
        destruct Iy as [->|Iy]; [reflexivity|].
        rewrite Forall_forall in Hx, Hy.
        specialize (Hx y Iy). specialize (Hy x Ix). unfold key_lt in *.
        rewrite (bytes_ltb_asym _ _ Hx) in Hy. discriminate. }
      f_equal. apply IH; [exact Hl2|].
      now apply Permutation_cons_inv in HP.
Qed.

(** [sort_Slice_unique]: with distinct keys the sorted list does not
    depend on the order the map was iterated in. *)
Lemma sort_Slice_unique (l l' : list (bytes * A)) :
  NoDup (map fst l) -> Permutation l l' -> psort l = psort l'.
Proof.
  intros Hn HP. apply sorted_perm_eq.
  - now apply sort_strict.
  - apply sort_strict. eapply Permutation_NoDup; [|exact Hn].
    now apply Permutation_map.
  - rewrite !sort_perm. exact HP.
Qed.

End SortPairs.

Lemma insert_map_snd {A C : Type} (f : A -> C) (x : bytes * A) (l : list (bytes * A)) :
  sort.insert (@pair_less C) (fst x, f (snd x)) (map (fun kv => (fst kv, f (snd kv))) l)
  = map (fun kv => (fst kv, f (snd kv))) (sort.insert (@pair_less A) x l).
Proof.
  induction l as [|y l IH]; cbn [sort.insert map]; [reflexivity|].
  unfold pair_less at 1 3; cbn [fst].
  destruct (bytes_ltb (fst x) (fst y)); cbn [map]; [reflexivity|].
  now rewrite IH.
Qed.

(** Sorting by key commutes with a change of the values. *)
Lemma sort_map_snd {A C : Type} (f : A -> C) (l : list (bytes * A)) :
  sort.Slice (@pair_less C) (map (fun kv => (fst kv, f (snd kv))) l)
  = map (fun kv => (fst kv, f (snd kv))) (sort.Slice (@pair_less A) l).
Proof.
  induction l as [|x l IH]; cbn [sort.Slice map]; [reflexivity|].
  rewrite IH. apply insert_map_snd.
Qed.

Lemma map_pairs_map (mv : GoValue -> bdec -> bdec) (pairs : list (bytes * GoValue)) :
  map_pairs mv pairs = map (fun kv => (fst kv, mv (snd kv))) pairs.
Proof.
  induction pairs as [|[k v] pairs IH]; cbn [map_pairs map fst snd]; [reflexivity|].
  now rewrite IH.
Qed.

(* ================================================================== *)
(** * The text of a map *)

Lemma join_comma_cons (s : bytes) (l : list bytes) :
  join_comma (s :: l) = s ++ concat (map (fun t => ","%byte :: t) l).
Proof.
  revert s; induction l as [|t l IH]; intros s.
  - cbn. now rewrite app_nil_r.
  - change (join_comma (s :: t :: l)) with (s ++ ","%byte :: join_comma (t :: l)).
    rewrite IH. reflexivity.
Qed.

Lemma objectField_Builder (k o : bytes) (first : bool) (prec : Z) :
  objectField k first (mkDecorator o prec None)
  = mkDecorator (o ++ (if first then "{"%byte else ","%byte) :: quoted k ++ [":"%byte])
                prec None.
Proof.
  unfold objectField, quoted.
  destruct first; rewrite put_Builder, scrambleStr_Builder, put_Builder;
    f_equal; cbn [app]; rewrite <- !app_assoc; cbn [app]; reflexivity.
Qed.

Lemma Marshal_text (v : GoValue) (opts : list MarshalOpt) (prec : Z) :
  parseMarshalOptions opts = (prec, None) ->
  Marshal v opts
  = match status_of (marshalValue v) prec with
    | Some e => ([], Some e)
    | None => (text_of (marshalValue v) prec, None)
    end.
Proof. intros H. unfold Marshal. rewrite H. reflexivity. Qed.

(** The rounds of the loop over the sorted entries, after the first. *)
Lemma marshal_pairs_Builder (mv : GoValue -> bdec -> bdec) (prec : Z)
  (l : list (bytes * GoValue)) :
  Forall (fun kv => framed (mv (snd kv)) /\ status_of (mv (snd kv)) prec = None) l ->
  forall i o,
  marshal_pairs (S i) (map (fun kv => (fst kv, mv (snd kv))) l) (mkDecorator o prec None)
  = (false,
     mkDecorator
       (o ++ concat (map (fun t => ","%byte :: t)
                      (map (fun kv => member_text (fst kv, text_of (mv (snd kv)) prec)) l)))
       prec None).
Proof.
  induction 1 as [|[k v] l [[_ Hf] Hs] _ IH]; intros i o; cbn [map marshal_pairs concat].
  - now rewrite app_nil_r.
  - cbn [fst snd] in *. change (S i =? 0) with false.
    rewrite objectField_Builder, Hf, Hs. cbn [hadError err].
    rewrite IH. f_equal. f_equal. unfold member_text. cbn [fst snd].
    list_eq.
Qed.

Lemma marshal_map_Builder (prec : Z) (pairs : list (bytes * GoValue)) :
  (forall kv, In kv pairs -> status_of (marshalValue (snd kv)) prec = None) ->
  marshalValue (GoMap pairs) (mkDecorator [] prec None)
  = mkDecorator
      (object_text (map (fun kv => (fst kv, text_of (marshalValue (snd kv)) prec))
                        (sort.Slice (@pair_less _) pairs)))
      prec None.
Proof.
  intros Hs. unfold marshalValue. cbn [marshalAt andb hadError err]. unfold objectBegin.
  rewrite map_pairs_map, sort_map_snd.
  assert (Forall (fun kv => framed (marshalAt true false (snd kv))
                            /\ status_of (marshalAt true false (snd kv)) prec = None)
                 (sort.Slice (@pair_less _) pairs)) as HF.
  { apply Forall_sort. rewrite Forall_forall. intros kv Hin.
    split; [apply framed_marshalAt | now apply Hs]. }
  assert (length pairs = length (sort.Slice (@pair_less _) pairs)) as ->
    by (symmetry; apply Permutation_length, sort_perm).
  destruct (sort.Slice (@pair_less _) pairs) as [|[k v] l]; [reflexivity|].
  inversion HF as [|? ? [[_ Hf] Hv] HF']; subst. cbn [fst snd] in *.
  cbn [map marshal_pairs fst snd]. change (0 =? 0) with true.
  rewrite objectField_Builder, Hf, Hv. cbn [hadError err].
  rewrite (marshal_pairs_Builder (marshalAt true false) prec l HF').
  cbn [length Nat.eqb]. unfold objectEnd. rewrite put_Builder.
  f_equal. unfold object_text. cbn [map fst snd].
  rewrite join_comma_cons. unfold member_text at 2. cbn [fst snd].
  rewrite !map_map. cbn [fst snd]. list_eq.
Qed.

Lemma marshal_map_perm (pairs pairs' : list (bytes * GoValue)) (d : bdec) :
  NoDup (map fst pairs) -> Permutation pairs pairs' ->
  marshalValue (GoMap pairs') d = marshalValue (GoMap pairs) d.
Proof.
  intros Hn HP. unfold marshalValue. cbn [marshalAt].
  rewrite !map_pairs_map, !sort_map_snd.
  rewrite (sort_Slice_unique pairs pairs' Hn HP).
  now rewrite (Permutation_length HP).
Qed.

(** C5. A map with string keys is written as a JSON object whose members
    come in ascending order of their keys, byte-wise, whatever the order
    in which the map is iterated, with nothing between the tokens; the
    map with [b] to 1 and [a] to 2 gives the text of the witness. *)
Theorem map_keys_ascending (pairs : list (bytes * GoValue)) (opts : list MarshalOpt) :
  NoDup (map fst pairs) ->
  snd (parseMarshalOptions opts) = None ->
  (forall kv, In kv pairs -> snd (Marshal (snd kv) opts) = None) ->
  let sorted := sort.Slice (@pair_less _) pairs in
  Permutation sorted pairs
  /\ StronglySorted (fun p q => key_lt (fst p) (fst q)) sorted
  /\ Marshal (GoMap pairs) opts
     = (object_text (map (fun kv => (fst kv, fst (Marshal (snd kv) opts))) sorted), None)
  /\ (forall pairs', Permutation pairs pairs' ->
        Marshal (GoMap pairs') opts = Marshal (GoMap pairs) opts).
Proof.
  intros Hn Ho Hv sorted.
  destruct (parseMarshalOptions opts) as [prec oe] eqn:Eo. cbn [snd] in Ho. subst oe.
  assert (Hs : forall kv, In kv pairs ->
               status_of (marshalValue (snd kv)) prec = None
               /\ fst (Marshal (snd kv) opts) = text_of (marshalValue (snd kv)) prec).
  { intros kv Hin. specialize (Hv kv Hin).
    rewrite (Marshal_text _ _ _ Eo) in Hv |- *.
    destruct (status_of (marshalValue (snd kv)) prec); [discriminate Hv | now split]. }
  split; [apply sort_perm|]. split; [now apply sort_strict|]. split.
  - rewrite (Marshal_text (GoMap pairs) opts prec Eo). unfold status_of, text_of.
    rewrite marshal_map_Builder by (intros kv Hin; apply (Hs kv Hin)).
    cbn [err out]. f_equal. f_equal.
    apply map_ext_in. intros kv Hin. f_equal. symmetry. apply Hs.
    eapply Permutation_in; [apply sort_perm | exact Hin].
  - intros pairs' HP. unfold Marshal. rewrite Eo.
    now rewrite (marshal_map_perm _ _ _ Hn HP).
Qed.

Lemma map_keys_ascending_witness :
  let pairs := [(B "b", GoInt 1); (B "a", GoInt 2)] in
  NoDup (map fst pairs)
  /\ Marshal (GoMap pairs) [] = ("{"%byte :: x22 :: B "a" ++ x22 :: B ":2," ++ x22 :: B "b"
                                  ++ x22 :: B ":1}", None)
  /\ Marshal (GoMap [(B "a", GoInt 2); (B "b", GoInt 1)]) [] = Marshal (GoMap pairs) [].
Proof.
  cbv zeta.
  assert (NoDup (map fst [(B "b", GoInt 1); (B "a", GoInt 2)])) as Hn.
  { repeat constructor; cbn; intuition discriminate. }
  assert (forall kv, In kv [(B "b", GoInt 1); (B "a", GoInt 2)] ->
                     snd (Marshal (snd kv) []) = None) as Hv.
  { intros kv [<-|[<-|[]]]; reflexivity. }
  destruct (map_keys_ascending [(B "b", GoInt 1); (B "a", GoInt 2)] [] Hn eq_refl Hv)
    as (_ & _ & Htext & Hperm).
  split; [exact Hn|]. split.
  - rewrite Htext. reflexivity.
  - apply Hperm. apply perm_swap.
Defined.

(* ================================================================== *)
(** * The text Marshal gives a JSON value *)

Lemma marshal_elems_Builder (mv : GoValue -> bdec -> bdec) (prec : Z)
  (l : list GoValue) :
  Forall (fun v => framed (mv v) /\ status_of (mv v) prec = None) l ->
  forall i o,
  marshal_elems mv (S i) l (mkDecorator o prec None)
  = (false,
     mkDecorator
       (o ++ concat (map (fun t => ","%byte :: t) (map (fun v => text_of (mv v) prec) l)))
       prec None).
Proof.
  induction 1 as [|v l [[_ Hf] Hs] _ IH]; intros i o; cbn [map marshal_elems concat].
  - now rewrite app_nil_r.
  - change (S i =? 0) with false. unfold arrayElement.
    rewrite put_Builder, Hf, Hs. cbn [hadError err].
    rewrite IH. f_equal. f_equal. list_eq.
Qed.

Lemma marshal_slice_Builder (prec : Z) (elems : list GoValue) :
  (forall v, In v elems -> status_of (marshalValue v) prec = None) ->
  marshalValue (GoSlice elems) (mkDecorator [] prec None)
  = mkDecorator (array_text (map (fun v => text_of (marshalValue v) prec) elems))
                prec None.
Proof.
  intros Hs. unfold marshalValue. cbn [marshalAt andb hadError err]. unfold arrayBegin.
  destruct elems as [|v l]; [reflexivity|].
  assert (Forall (fun v => framed (marshalAt true false v)
                           /\ status_of (marshalAt true false v) prec = None) l) as HF.
  { rewrite Forall_forall. intros a Ha.
    split; [apply framed_marshalAt | apply Hs; now right]. }
  cbn [marshal_elems]. change (0 =? 0) with true. unfold arrayElement.
  rewrite put_Builder.
  rewrite (proj2 (framed_marshalAt v true false)).
  replace (status_of (marshalAt true false v) prec) with (@None error)
    by (symmetry; apply Hs; now left).
  cbn [hadError err].
  rewrite (marshal_elems_Builder (marshalAt true false) prec l HF).
  cbn [length Nat.eqb]. unfold arrayEnd. rewrite put_Builder.
  f_equal. unfold array_text. cbn [map]. rewrite join_comma_cons. list_eq.
Qed.

Lemma float_prints_back_finite (f : spec_float) :
  float_prints_back f = true -> IsInf f || IsNaN f = false.
Proof.
  unfold float_prints_back. intros H. apply andb_prop in H as [H _].
  now apply negb_true_iff in H.
Qed.

(** A JSON value is written without error, as its text. *)
Lemma json_text_marshal (v : GoValue) :
  json_ok v = true ->
  status_of (marshalValue v) 6 = None /\ text_of (marshalValue v) 6 = json_text v.
Proof.
  induction v using GoValue_ind; intros Hok; try discriminate Hok.
  - split; reflexivity.
  - destruct b; split; reflexivity.
  - cbn [json_ok] in Hok. apply float_prints_back_finite in Hok.
    unfold status_of, text_of, marshalValue. cbn [marshalAt andb hadError err].
    unfold marshalFloat64. rewrite Hok. split; reflexivity.
  - unfold status_of, text_of, marshalValue. cbn [marshalAt andb hadError err].
    unfold marshalString. rewrite put_Builder, scrambleStr_Builder, put_Builder.
    split; reflexivity.
  - cbn [json_ok] in Hok. rewrite forallb_forall in Hok.
    rewrite Forall_forall in H.
    unfold status_of, text_of.
    rewrite marshal_slice_Builder by (intros v Hv; apply (H v Hv), Hok, Hv).
    cbn [err out json_text]. split; [reflexivity|]. f_equal.
    apply map_ext_in. intros v Hv. apply (H v Hv), Hok, Hv.
  - cbn [json_ok] in Hok. apply andb_prop in Hok as [_ Hok].
    rewrite forallb_forall in Hok. rewrite Forall_forall in H.
    unfold status_of, text_of.
    rewrite marshal_map_Builder by (intros kv Hkv; apply (H kv Hkv), Hok, Hkv).
    cbn [err out json_text]. split; [reflexivity|]. f_equal.
    rewrite (sort_map_snd json_text). apply map_ext_in. intros kv Hkv. f_equal.
    apply (H kv), Hok; eapply Permutation_in; try exact Hkv; apply sort_perm.
Qed.

Lemma Marshal_json (v : GoValue) :
  json_ok v = true -> Marshal v [] = (json_text v, None).
Proof.
  intros Hok. destruct (json_text_marshal v Hok) as [Hs Ht].
  rewrite (Marshal_text v [] 6 eq_refl), Hs, Ht. reflexivity.
Qed.

(* ================================================================== *)
(** * Reading a string back *)

Lemma is_plain_facts (x : byte) :
  is_plain x = true ->
  Byte.eqb x x00 = false /\ byte_leb x x1f = false
  /\ Byte.eqb x x22 = false /\ Byte.eqb x "\" = false.
Proof. destruct x; intros H; try discriminate H; repeat split. Qed.

Lemma parseString_slow_plain (fuel : nat) (buf pre suf : bytes) (x : byte) (fl : Z) :
  is_plain x = true ->
  parseString_slow (S fuel) buf (scan_at pre (x :: suf) fl)
  = parseString_slow fuel (buf ++ [x]) (scan_at (pre ++ [x]) suf fl).
Proof.
  intros H. destruct (is_plain_facts x H) as (H0 & H1 & H2 & H3).
  cbn [parseString_slow]. rewrite next_at, H0, H1, H2, H3. reflexivity.
Qed.

(** One round over a two-character escape. *)
Lemma parseString_slow_two (fuel : nat) (buf pre suf : bytes) (c : byte) (fl : Z) :
  parseString_slow (S fuel) buf (scan_at pre ("\"%byte :: c :: suf) fl)
  = match c with
    | x22 | "\"%byte | "/"%byte =>
        parseString_slow fuel (buf ++ [c]) (scan_at (pre ++ ["\"%byte; c]) suf fl)
    | "b"%byte => parseString_slow fuel (buf ++ [x08]) (scan_at (pre ++ ["\"%byte; c]) suf fl)
    | "f"%byte => parseString_slow fuel (buf ++ [x0c]) (scan_at (pre ++ ["\"%byte; c]) suf fl)
    | "n"%byte => parseString_slow fuel (buf ++ [x0a]) (scan_at (pre ++ ["\"%byte; c]) suf fl)
    | "r"%byte => parseString_slow fuel (buf ++ [x0d]) (scan_at (pre ++ ["\"%byte; c]) suf fl)
    | "t"%byte => parseString_slow fuel (buf ++ [x09]) (scan_at (pre ++ ["\"%byte; c]) suf fl)
    | "u"%byte =>
        match parseUnicode (scan_at (pre ++ ["\"%byte; c]) suf fl) with
        | (Err e, s) => (Err e, s)
        | (Ok r, s) => parseString_slow fuel (buf ++ utf8.string_of_rune r) s
        end
    | _ => (Err ErrInvalidString, scan_at (pre ++ ["\"%byte]) (c :: suf) fl)
    end.
Proof.
  cbn [parseString_slow]. rewrite next_at.
  change (Byte.eqb "\" x00) with false. change (byte_leb "\" x1f) with false.
  change (Byte.eqb "\" x22) with false. change (Byte.eqb "\" "\") with true.
  cbv iota.
  change (length (data ?s) <=? cur ?s) with (IsEOF s).
  rewrite IsEOF_at, peek_at.
  replace (set_cur _ _) with (scan_at (pre ++ ["\"%byte; c]) suf fl).
  2:{ change (pre ++ ["\"%byte; c]) with (pre ++ ["\"%byte] ++ [c]).
      rewrite app_assoc. symmetry. apply scan_at_step. }
  destruct c; reflexivity.
Qed.

Lemma escape_byte_backslash (x : byte) :
  is_plain x = false -> exists t, escape_byte x = "\"%byte :: t.
Proof. destruct x; intros H; try discriminate H; eexists; reflexivity. Qed.

Lemma parseString_slow_escape (fuel : nat) (buf pre suf : bytes) (x : byte) (fl : Z) :
  is_plain x = false ->
  parseString_slow (S fuel) buf (scan_at pre (escape_byte x ++ suf) fl)
  = parseString_slow fuel (buf ++ [x]) (scan_at (pre ++ escape_byte x) suf fl).
Proof.
  intros H.
  destruct x; try discriminate H;
    match goal with
    | |- context [escape_byte ?b] =>
        let e := eval vm_compute in (escape_byte b) in
        change (escape_byte b) with e
    end;
    cbn [app];
    first
      [ rewrite parseString_slow_two; reflexivity
      | match goal with
        | |- parseString_slow _ _ (scan_at _ (_ :: _ :: ?a :: ?b :: ?c :: ?d :: _) _) = ?R =>
            change (parseString_slow (S fuel) buf
                      (scan_at pre ("\"%byte :: "u"%byte :: [a; b; c; d] ++ suf) fl)
                    = R);
            rewrite (parseString_slow_unicode fuel buf [a; b; c; d] pre suf fl eq_refl);
            reflexivity
        end ].
Qed.

Lemma parseString_slow_byte (fuel : nat) (buf pre suf : bytes) (x : byte) (fl : Z) :
  parseString_slow (S fuel) buf (scan_at pre (escape_byte x ++ suf) fl)
  = parseString_slow fuel (buf ++ [x]) (scan_at (pre ++ escape_byte x) suf fl).
Proof.
  destruct (is_plain x) eqn:E.
  - rewrite (escape_plain x E). now apply parseString_slow_plain.
  - now apply parseString_slow_escape.
Qed.

Lemma parseString_slow_run (s : bytes) :
  forall (fuel : nat) (buf pre rest : bytes) (fl : Z),
  length s < fuel ->
  parseString_slow fuel buf (scan_at pre (escape s ++ x22 :: rest) fl)
  = (Ok (buf ++ s), scan_at (pre ++ escape s ++ [x22]) rest fl).
Proof.
  induction s as [|x s IH]; intros fuel buf pre rest fl Hf;
    (destruct fuel as [|fuel]; [inversion Hf|]).
  - cbn [escape flat_map app parseString_slow]. rewrite next_at.
    change (Byte.eqb x22 x00) with false. change (byte_leb x22 x1f) with false.
    change (Byte.eqb x22 x22) with true. cbv iota. now rewrite app_nil_r.
  - unfold escape. cbn [flat_map]. fold (escape s).
    rewrite <- app_assoc, parseString_slow_byte.
    rewrite IH by (cbn [length] in Hf; lia).
    f_equal; [f_equal; list_eq | f_equal; list_eq].
Qed.

Lemma length_escape (s : bytes) : length s <= length (escape s).
Proof.
  unfold escape. induction s as [|x s IH]; cbn [flat_map length]; [lia|].
  rewrite length_app.
  assert (1 <= length (escape_byte x)) by (destruct x; cbn; lia). lia.
Qed.

(** The fast path over a run of plain bytes. *)
Lemma parseString_fast_plain (pl : bytes) :
  forall (fuel start : nat) (pre suf : bytes) (fl : Z),
  Forall (fun x => is_plain x = true) pl ->
  parseString_fast (length pl + fuel) start (scan_at pre (pl ++ suf) fl)
  = parseString_fast fuel start (scan_at (pre ++ pl) suf fl).
Proof.
  induction pl as [|x pl IH]; intros fuel start pre suf fl Hp.
  - cbn [length app Nat.add]. now rewrite app_nil_r.
  - inversion Hp as [|? ? Hx Hp']; subst.
    destruct (is_plain_facts x Hx) as (_ & H1 & H2 & H3).
    cbn [length app Nat.add parseString_fast].
    change (cur (scan_at ?p ?s ?f)) with (length p).
    change (data (scan_at ?p ?s ?f)) with (p ++ s).
    rewrite lt_test_at, index_app_here, H1, H3, H2, scan_at_step.
    rewrite IH by assumption. now rewrite <- app_assoc.
Qed.

(** [parseString] reads a quoted, escaped string back. *)
Lemma parseString_quoted (s pre rest : bytes) (fl : Z) :
  parseString (scan_at pre (quoted s ++ rest) fl)
  = (Ok s, scan_at (pre ++ quoted s) rest fl).
Proof.
  unfold parseString, quoted. cbn [app]. rewrite peek_at.
  change (Byte.eqb x22 x22) with true. cbn [negb].
  replace (set_cur _ _)
    with (scan_at (pre ++ [x22]) ((escape s ++ [x22]) ++ rest) fl)
    by (symmetry; apply scan_at_step).
  rewrite remaining_at.
  change (cur (scan_at (pre ++ [x22]) ((escape s ++ [x22]) ++ rest) fl))
    with (length (pre ++ [x22])).
  rewrite <- (span_app is_plain s) at 1 2.
  pose proof (span_all is_plain s) as Hpl.
  pose proof (span_stop is_plain s) as Hstop.
  pose proof (span_app is_plain s) as Hs.
  destruct (span is_plain s) as [pl tl]. cbn [fst snd] in *.
  unfold escape at 1 2. rewrite !flat_map_app. fold (escape pl) (escape tl).
  rewrite (escape_all_plain pl Hpl).
  replace (length (((pl ++ escape tl) ++ [x22]) ++ rest))
    with (length pl + length ((escape tl ++ [x22]) ++ rest))
    by (rewrite !length_app; lia).
  replace (((pl ++ escape tl) ++ [x22]) ++ rest)
    with (pl ++ (escape tl ++ [x22]) ++ rest) by list_eq.
  rewrite parseString_fast_plain by assumption.
  destruct tl as [|x tl].
  - (* no escape: the fast path finds the closing quote *)
    rewrite app_nil_r in Hs. subst pl.
    cbn [escape flat_map app length parseString_fast].
    change (cur (scan_at ?p ?q ?f)) with (length p).
    change (data (scan_at ?p ?q ?f)) with (p ++ q).
    rewrite lt_test_at, index_app_here.
    change (byte_leb x22 x1f) with false. change (Byte.eqb x22 "\") with false.
    change (Byte.eqb x22 x22) with true. cbv iota.
    rewrite scan_at_step.
    replace (slice (((pre ++ [x22]) ++ s) ++ x22 :: rest) (length (pre ++ [x22]))
                   (length ((pre ++ [x22]) ++ s)))
      with s.
    2:{ rewrite <- app_assoc, (length_app (pre ++ [x22]) s).
        now rewrite slice_app_mid. }
    rewrite (escape_all_plain s Hpl). f_equal. f_equal. list_eq.
  - (* an escape: the fast path stops at its backslash *)
    destruct (escape_byte_backslash x Hstop) as [t Ht].
    assert (escape (x :: tl) = "\"%byte :: t ++ escape tl) as Hesc.
    { unfold escape. cbn [flat_map]. now rewrite Ht. }
    rewrite !Hesc.
    cbn [app length parseString_fast].
    change (cur (scan_at ?p ?q ?f)) with (length p).
    change (data (scan_at ?p ?q ?f)) with (p ++ q).
    rewrite lt_test_at, index_app_here.
    change (byte_leb "\" x1f) with false. change (Byte.eqb "\" "\") with true.
    cbv iota.
    replace (set_cur _ (length (pre ++ [x22])))
      with (scan_at (pre ++ [x22]) (escape s ++ x22 :: rest) fl).
    2:{ unfold set_cur, scan_at. cbn [data cur flags]. f_equal.
        rewrite <- Hs. unfold escape at 1. rewrite flat_map_app.
        fold (escape pl) (escape (x :: tl)).
        rewrite (escape_all_plain pl Hpl), Hesc. list_eq. }
    rewrite remaining_at.
    rewrite parseString_slow_run.
    + f_equal. f_equal. list_eq.
    + rewrite length_app. pose proof (length_escape s). cbn [length]. lia.
Qed.

(* ================================================================== *)
(** * A number reads the same inside a longer text *)

Lemma span_app_stop (p : byte -> bool) (q rest : bytes) :
  stops p rest ->
  span p (q ++ rest) = (fst (span p q), snd (span p q) ++ rest).
Proof.
  intros Hr. induction q as [|c q IH]; cbn [app span].
  - destruct rest as [|c r]; [reflexivity|]. cbn [span]. simpl in Hr. now rewrite Hr.
  - destruct (p c); [|reflexivity]. now rewrite IH.
Qed.

Lemma delimits_stops (p : byte -> bool) (rest : bytes) :
  delimits rest ->
  p ","%byte = false -> p "]"%byte = false -> p "}"%byte = false ->
  stops p rest.
Proof.
  destruct rest as [|c r]; [now intros|].
  cbn. intros [-> | [-> | ->]]; auto.
Qed.

Section Locality.

Variables (lit pre rest : bytes) (fl1 fl2 : Z).
Hypothesis Hrest : delimits rest.

Abbreviation simL := (sim lit pre rest fl1 fl2).

Lemma sim_advance (p q : bytes) (c : byte) :
  p ++ c :: q = lit ->
  simL (scan_at (p ++ [c]) q fl1) (scan_at ((pre ++ p) ++ [c]) (q ++ rest) fl2).
Proof.
  intros E. exists (p ++ [c]), q. split; [now rewrite <- app_assoc|].
  split; [reflexivity|]. now rewrite app_assoc.
Qed.

Lemma sim_skipByte (b : byte) (s1 s2 : Scanner) :
  b <> ","%byte -> b <> "]"%byte -> b <> "}"%byte ->
  simL s1 s2 ->
  fst (skipByte b s1) = fst (skipByte b s2)
  /\ simL (snd (skipByte b s1)) (snd (skipByte b s2)).
Proof.
  intros H1 H2 H3 (p & q & E & -> & ->).
  destruct q as [|c q]; cbn [app].
  - rewrite skipByte_at_end.
    rewrite skipByte_miss.
    + split; [reflexivity|]. now exists p, [].
    + apply delimits_stops; [exact Hrest| | |]; now apply byte_eqb_neq.
  - rewrite !skipByte_at. destruct (Byte.eqb c b); cbn [fst snd].
    + split; [reflexivity|]. now apply sim_advance.
    + split; [reflexivity|]. now exists p, (c :: q).
Qed.

Lemma sim_isDecimalDigit (s1 s2 : Scanner) :
  simL s1 s2 -> isDecimalDigit s1 = isDecimalDigit s2.
Proof.
  intros (p & q & E & -> & ->).
  destruct q as [|c q]; cbn [app].
  - rewrite isDecimalDigit_at_end.
    destruct rest as [|c r].
    + now rewrite isDecimalDigit_at_end.
    + rewrite isDecimalDigit_at. simpl in Hrest.
      destruct Hrest as [-> | [-> | ->]]; reflexivity.
  - now rewrite !isDecimalDigit_at.
Qed.

Lemma sim_skipDecimalDigits (s1 s2 : Scanner) :
  simL s1 s2 ->
  fst (skipDecimalDigits s1) = fst (skipDecimalDigits s2)
  /\ simL (snd (skipDecimalDigits s1)) (snd (skipDecimalDigits s2)).
Proof.
  intros (p & q & E & -> & ->).
  rewrite !skipDecimalDigits_at.
  rewrite span_app_stop by (apply delimits_stops; [exact Hrest | | |]; reflexivity).
  cbn [fst snd]. split; [reflexivity|].
  exists (p ++ fst (span strconv.is_digit q)), (snd (span strconv.is_digit q)).
  split; [now rewrite <- app_assoc, span_app|].
  split; [reflexivity|]. now rewrite app_assoc.
Qed.

Lemma sim_int (s1 s2 : Scanner) :
  simL s1 s2 ->
  fst (parseNumber_int s1) = fst (parseNumber_int s2)
  /\ simL (snd (parseNumber_int s1)) (snd (parseNumber_int s2)).
Proof.
  intros H. unfold parseNumber_int.
  destruct (sim_skipByte "0" s1 s2) as [E0 S0]; try discriminate; [exact H|].
  destruct (skipByte "0" s1) as [z1 t1], (skipByte "0" s2) as [z2 t2].
  cbn [fst snd] in E0, S0. subst z2. destruct z1.
  - rewrite (sim_isDecimalDigit t1 t2 S0).
    destruct (isDecimalDigit t2); now split.
  - destruct S0 as (p & q & E & -> & ->).
    change (cur (scan_at ?a ?b ?f)) with (length a).
    change (data (scan_at ?a ?b ?f)) with (a ++ b).
    destruct q as [|c q]; cbn [app].
    + rewrite eof_test_at. cbn [orb fst snd].
      assert ((length ((pre ++ p) ++ rest) <=? length (pre ++ p))
              || byte_ltb (index ((pre ++ p) ++ rest) (length (pre ++ p))) "1"
              || byte_ltb "9" (index ((pre ++ p) ++ rest) (length (pre ++ p)))
              = true) as ->.
      { rewrite eof_test_at. destruct rest as [|c r]; [reflexivity|].
        rewrite index_app_here. simpl in Hrest.
        destruct Hrest as [-> | [-> | ->]]; reflexivity. }
      cbn [fst snd]. split; [reflexivity|]. now exists p, [].
    + rewrite !eof_test_at, !index_app_here. cbn [orb].
      destruct (byte_ltb c "1" || byte_ltb "9" c); cbn [fst snd].
      * split; [reflexivity|]. now exists p, (c :: q).
      * split; [reflexivity|]. rewrite !scan_at_step.
        apply sim_skipDecimalDigits. now apply sim_advance.
Qed.

Lemma sim_frac (s1 s2 : Scanner) :
  simL s1 s2 ->
  fst (parseNumber_frac s1) = fst (parseNumber_frac s2)
  /\ simL (snd (parseNumber_frac s1)) (snd (parseNumber_frac s2)).
Proof.
  intros H. unfold parseNumber_frac.
  destruct (sim_skipByte "." s1 s2) as [E0 S0]; try discriminate; [exact H|].
  destruct (skipByte "." s1) as [z1 t1], (skipByte "." s2) as [z2 t2].
  cbn [fst snd] in E0, S0. subst z2. destruct z1; [|now split].
  destruct (sim_skipDecimalDigits t1 t2 S0) as [E1 S1].
  destruct (skipDecimalDigits t1) as [d1 u1], (skipDecimalDigits t2) as [d2 u2].
  cbn [fst snd] in E1, S1. subst d2. destruct d1; cbn [negb]; [|now split].
  destruct (sim_skipByte "." u1 u2) as [E2 S2]; try discriminate; [exact S1|].
  destruct (skipByte "." u1) as [y1 w1], (skipByte "." u2) as [y2 w2].
  cbn [fst snd] in E2, S2. subst y2. destruct y1; now split.
Qed.

Lemma sim_skip_e (s1 s2 : Scanner) :
  simL s1 s2 ->
  fst (skip_e s1) = fst (skip_e s2) /\ simL (snd (skip_e s1)) (snd (skip_e s2)).
Proof.
  intros H. unfold skip_e.
  destruct (sim_skipByte "e" s1 s2) as [E0 S0]; try discriminate; [exact H|].
  destruct (skipByte "e" s1) as [z1 t1], (skipByte "e" s2) as [z2 t2].
  cbn [fst snd] in E0, S0. subst z2. destruct z1; [now split|].
  apply sim_skipByte; try discriminate. exact S0.
Qed.

Lemma sim_exp (s1 s2 : Scanner) :
  simL s1 s2 ->
  fst (parseNumber_exp s1) = fst (parseNumber_exp s2)
  /\ simL (snd (parseNumber_exp s1)) (snd (parseNumber_exp s2)).
Proof.
  intros H. unfold parseNumber_exp.
  destruct (sim_skip_e s1 s2 H) as [E0 S0].
  destruct (skip_e s1) as [z1 t1], (skip_e s2) as [z2 t2].
  cbn [fst snd] in E0, S0. subst z2. destruct z1; [|now split].
  destruct (sim_skipByte "+" t1 t2) as [E1 S1]; try discriminate; [exact S0|].
  destruct (skipByte "+" t1) as [p1 u1], (skipByte "+" t2) as [p2 u2].
  cbn [fst snd] in E1, S1. subst p2.
  assert (simL (if negb p1 then snd (skipByte "-" u1) else u1)
               (if negb p1 then snd (skipByte "-" u2) else u2)) as S2.
  { destruct p1; cbn [negb]; [exact S1|].
    apply sim_skipByte; try discriminate. exact S1. }
  destruct (sim_skipDecimalDigits _ _ S2) as [E3 S3].
  destruct (skipDecimalDigits (if negb p1 then snd (skipByte "-" u1) else u1))
    as [d1 w1].
  destruct (skipDecimalDigits (if negb p1 then snd (skipByte "-" u2) else u2))
    as [d2 w2].
  cbn [fst snd] in E3, S3. subst d2. destruct d1; cbn [negb]; [|now split].
  destruct (sim_skip_e w1 w2 S3) as [E4 S4].
  destruct (skip_e w1) as [y1 x1], (skip_e w2) as [y2 x2].
  cbn [fst snd] in E4, S4. subst y2. destruct y1; now split.
Qed.

(** [parseNumber] gives the same result on [lit] alone and on [lit]
    followed by [rest], and stops at the same place of [lit]. *)
Lemma sim_parseNumber :
  fst (parseNumber (scan_at [] lit fl1))
  = fst (parseNumber (scan_at pre (lit ++ rest) fl2))
  /\ simL (snd (parseNumber (scan_at [] lit fl1)))
          (snd (parseNumber (scan_at pre (lit ++ rest) fl2))).
Proof.
  unfold parseNumber.
  assert (simL (scan_at [] lit fl1) (scan_at pre (lit ++ rest) fl2)) as S0.
  { exists [], lit. split; [reflexivity|]. split; [reflexivity|].
    now rewrite app_nil_r. }
  change (cur (scan_at [] lit fl1)) with 0.
  change (cur (scan_at pre (lit ++ rest) fl2)) with (length pre).
  destruct (sim_skipByte "-" _ _ ltac:(discriminate) ltac:(discriminate)
              ltac:(discriminate) S0) as [_ S1].
  destruct (sim_int _ _ S1) as [E2 S2].
  destruct (parseNumber_int (snd (skipByte "-" (scan_at [] lit fl1)))) as [a1 t1].
  destruct (parseNumber_int (snd (skipByte "-" (scan_at pre (lit ++ rest) fl2))))
    as [a2 t2].
  cbn [fst snd] in E2, S2. subst a2. destruct a1; cbn [negb]; [|now split].
  destruct (sim_frac _ _ S2) as [E3 S3].
  destruct (parseNumber_frac t1) as [b1 u1], (parseNumber_frac t2) as [b2 u2].
  cbn [fst snd] in E3, S3. subst b2. destruct b1; cbn [negb]; [|now split].
  destruct (sim_exp _ _ S3) as [E4 S4].
  destruct (parseNumber_exp u1) as [c1 w1], (parseNumber_exp u2) as [c2 w2].
  cbn [fst snd] in E4, S4. subst c2. destruct c1; cbn [negb]; [|now split].
  assert (slice (data w1) 0 (cur w1) = slice (data w2) (length pre) (cur w2)) as ->.
  { destruct S4 as (p & q & E & -> & ->).
    change (cur (scan_at ?a ?b ?f)) with (length a).
    change (data (scan_at ?a ?b ?f)) with (a ++ b).
    rewrite <- (app_nil_l (p ++ q)).
    change (slice ([] ++ p ++ q) 0 (length p))
      with (slice ([] ++ p ++ q) (length (@nil byte)) (length (@nil byte) + length p)).
    rewrite slice_app_mid.
    rewrite <- app_assoc, length_app. now rewrite slice_app_mid. }
  destruct (strconv.ParseFloat (slice (data w2) (length pre) (cur w2)))
    as [val [[]|]]; now split.
Qed.

End Locality.

Lemma spec_float_eqb_eq (a c : spec_float) : spec_float_eqb a c = true -> a = c.
Proof.
  destruct a as [s|s| |s m e], c as [s'|s'| |s' m' e']; cbn;
    try discriminate; try reflexivity.
  - intros H. apply Bool.eqb_prop in H. now subst.
  - intros H. apply Bool.eqb_prop in H. now subst.
  - intros H. apply andb_prop in H as [H He]. apply andb_prop in H as [Hs Hm].
    apply Bool.eqb_prop in Hs. apply Pos.eqb_eq in Hm. apply Z.eqb_eq in He.
    now subst.
Qed.

(** A number that prints back is read back wherever its text stands. *)
Lemma parseNumber_prints_back (f : spec_float) (pre rest : bytes) (fl : Z) :
  float_prints_back f = true -> delimits rest ->
  parseNumber (scan_at pre (strconv.FormatFloat_g f 6 ++ rest) fl)
  = (Ok f, scan_at (pre ++ strconv.FormatFloat_g f 6) rest fl).
Proof.
  intros Hf Hrest. unfold float_prints_back in Hf.
  apply andb_prop in Hf as [_ Hf].
  destruct (sim_parseNumber (strconv.FormatFloat_g f 6) pre rest 0 fl Hrest)
    as [E S].
  destruct (parseNumber (scan_at [] (strconv.FormatFloat_g f 6) 0)) as [[f'|e] s1];
    [|discriminate Hf].
  apply andb_prop in Hf as [Hf Hc].
  apply spec_float_eqb_eq in Hf. subst f'. apply Nat.eqb_eq in Hc.
  destruct (parseNumber (scan_at pre (strconv.FormatFloat_g f 6 ++ rest) fl))
    as [r2 s2].
  cbn [fst snd] in E, S. subst r2. f_equal.
  destruct S as (p & q & Epq & -> & ->).
  change (cur (scan_at p q 0)) with (length p) in Hc.
  assert (q = []) as ->.
  { apply length_zero_iff_nil. rewrite <- Epq, length_app in Hc. lia. }
  rewrite app_nil_r in Epq. subst p. reflexivity.
Qed.

Lemma parseNumber_ok_head (t : bytes) (fl : Z) (f : spec_float) :
  fst (parseNumber (scan_at [] t fl)) = Ok f ->
  exists c t', t = c :: t' /\ (c = "-"%byte \/ strconv.is_digit c = true).
Proof.
  destruct t as [|c t']; [discriminate|].
  intros H. exists c, t'. split; [reflexivity|].
  destruct (Byte.eqb c "-") eqn:Em; [left; now apply byte_eqb_eq|].
  destruct (strconv.is_digit c) eqn:Ed; [now right|].
  exfalso. revert H. unfold parseNumber, parseNumber_int.
  rewrite skipByte_at, Em. cbn [snd]. rewrite skipByte_at.
  assert (Byte.eqb c "0" = false) as ->
    by (destruct c; try discriminate Ed; reflexivity).
  change (cur (scan_at ?a ?b ?g)) with (length a).
  change (data (scan_at ?a ?b ?g)) with (a ++ b).
  rewrite eof_test_at, index_app_here. cbn [orb].
  assert (byte_ltb c "1" || byte_ltb "9" c = true) as ->
    by (destruct c; try discriminate Ed; reflexivity).
  cbn. discriminate.
Qed.

(* ================================================================== *)
(** * Reading a JSON value back *)

Lemma value_start_facts (c : byte) :
  is_value_start c = true ->
  is_whitespace c = false /\ Byte.eqb c "]" = false /\ Byte.eqb c "}" = false
  /\ Byte.eqb c xef = false.
Proof. destruct c; intros H; try discriminate H; repeat split. Qed.

Lemma json_text_start (v : GoValue) :
  json_ok v = true ->
  exists c t, json_text v = c :: t /\ is_value_start c = true.
Proof.
  destruct v as [ | |?|?|b|?|?|f|s|?|elems|pairs|?|? ?|?|? ?|? ? ?|?];
    intros Hok; try discriminate Hok; cbn [json_text].
  - eexists _, _; split; reflexivity.
  - destruct b; eexists _, _; split; reflexivity.
  - cbn [json_ok] in Hok. unfold float_prints_back in Hok.
    apply andb_prop in Hok as [_ Hok].
    destruct (parseNumber (scan_at [] (strconv.FormatFloat_g f 6) 0))
      as [[f'|e] s'] eqn:E; [|discriminate Hok].
    destruct (parseNumber_ok_head (strconv.FormatFloat_g f 6) 0 f')
      as (c & t & Et & Hc); [now rewrite E|].
    exists c, t. split; [exact Et|].
    destruct Hc as [-> | Hc]; [reflexivity|].
    destruct c; try discriminate Hc; reflexivity.
  - eexists _, _; split; reflexivity.
  - destruct elems; eexists _, _; split; reflexivity.
  - destruct (sort.Slice _ _); eexists _, _; split; reflexivity.
Qed.

Lemma delimits_not_ws (rest : bytes) : delimits rest -> stops is_whitespace rest.
Proof. intros H. apply delimits_stops; [exact H | | |]; reflexivity. Qed.

Lemma text_not_ws (v : GoValue) (r : bytes) :
  json_ok v = true -> stops is_whitespace (json_text v ++ r).
Proof.
  intros H. destruct (json_text_start v H) as (c & t & -> & Hc).
  apply (value_start_facts c Hc).
Qed.

Lemma IsEOF_text (v : GoValue) (pre r : bytes) (fl : Z) :
  json_ok v = true -> IsEOF (scan_at pre (json_text v ++ r) fl) = false.
Proof.
  intros H. destruct (json_text_start v H) as (c & t & -> & _).
  cbn [app]. apply IsEOF_at.
Qed.

Lemma comma_tail_delimits (l : list bytes) (c : byte) (rest : bytes) :
  c = "]"%byte \/ c = "}"%byte -> delimits (comma_tail l ++ c :: rest).
Proof.
  intros Hc. destruct l as [|t l]; cbn.
  - destruct Hc; auto.
  - now left.
Qed.

Lemma join_comma_tail (t : bytes) (l : list bytes) :
  join_comma (t :: l) = t ++ comma_tail l.
Proof. apply join_comma_cons. Qed.

(** The loop of [ReadValue] over the elements of an array, from the start
    of the element [v], [l] being the elements after it. *)
Lemma ReadValue_array_reads (rv : Scanner -> option (Res GoValue * Scanner))
  (l : list GoValue) :
  forall (v : GoValue) (fuel : nat) (acc : list GoValue) (pre rest : bytes) (fl : Z),
  Forall (fun x => json_ok x = true /\ reads_back rv x) (v :: l) ->
  length l < fuel ->
  ReadValue_array rv fuel acc
    (scan_at pre (json_text v ++ comma_tail (map json_text l) ++ "]"%byte :: rest) fl)
  = Some (Ok (GoSlice (acc ++ map canon (v :: l))),
          scan_at (pre ++ json_text v ++ comma_tail (map json_text l) ++ ["]"%byte])
                  rest fl).
Proof.
  induction l as [|v2 l IH]; intros v fuel acc pre rest fl HF Hfuel;
    (destruct fuel as [|fuel]; [inversion Hfuel|]);
    inversion HF as [|? ? [Hok Hrb] HF']; subst;
    cbn [ReadValue_array].
  - rewrite IsEOF_text by assumption. cbv iota.
    cbn [map comma_tail concat app].
    rewrite (Hrb pre ("]"%byte :: rest) fl) by (cbn; auto).
    rewrite skipWhitespace_none by reflexivity.
    rewrite IsEOF_at, skipByte_hit.
    f_equal. f_equal. f_equal. list_eq.
  - rewrite IsEOF_text by assumption. cbv iota.
    inversion HF' as [|? ? [Hok2 _] _]; subst.
    cbn [map]. unfold comma_tail at 1. cbn [map concat]. fold (comma_tail (map json_text l)).
    rewrite <- app_assoc. cbn [app].
    rewrite (Hrb pre _ fl) by (cbn; auto).
    rewrite skipWhitespace_none by reflexivity.
    rewrite IsEOF_at, skipByte_at. change (Byte.eqb "," "]") with false. cbv iota.
    rewrite skipByte_hit. cbn [negb].
    rewrite skipWhitespace_none by (now apply text_not_ws).
    rewrite IH by (try assumption; cbn [length] in Hfuel; lia).
    f_equal. f_equal.
    + f_equal. cbn [map]. list_eq.
    + f_equal. unfold comma_tail at 2. cbn [map concat].
      fold (comma_tail (map json_text l)). list_eq.
Qed.

Lemma parseString_quoted' (k pre rest : bytes) (fl : Z) :
  parseString (scan_at pre (x22 :: escape k ++ x22 :: rest) fl)
  = (Ok k, scan_at (pre ++ x22 :: escape k ++ [x22]) rest fl).
Proof.
  pose proof (parseString_quoted k pre rest fl) as H. unfold quoted in H.
  replace ((x22 :: escape k ++ [x22]) ++ rest) with (x22 :: escape k ++ x22 :: rest)
    in H by list_eq.
  exact H.
Qed.

Lemma mtext_app (k : bytes) (v : GoValue) (r : bytes) :
  mtext (k, v) ++ r = x22 :: escape k ++ x22 :: ":"%byte :: json_text v ++ r.
Proof. unfold mtext, member_text, quoted. cbn [fst snd]. list_eq. Qed.

Lemma comma_tail_cons (t : bytes) (l : list bytes) (r : bytes) :
  comma_tail (t :: l) ++ r = ","%byte :: t ++ comma_tail l ++ r.
Proof. unfold comma_tail. cbn [map concat]. list_eq. Qed.

(** The same for the members of an object, in the order of the text. *)
Lemma ReadValue_object_reads (rv : Scanner -> option (Res GoValue * Scanner))
  (l : list (bytes * GoValue)) :
  forall (kv : bytes * GoValue) (fuel : nat) (m : list (bytes * GoValue))
         (pre rest : bytes) (fl : Z),
  Forall (fun x => json_ok (snd x) = true /\ reads_back rv (snd x)) (kv :: l) ->
  length l < fuel ->
  ReadValue_object rv fuel m
    (scan_at pre (mtext kv ++ comma_tail (map mtext l) ++ "}"%byte :: rest) fl)
  = Some (Ok (GoMap (set_members (kv :: l) m)),
          scan_at (pre ++ mtext kv ++ comma_tail (map mtext l) ++ ["}"%byte]) rest fl).
Proof.
  induction l as [|kv2 l IH]; intros [k v] fuel m pre rest fl HF Hfuel;
    (destruct fuel as [|fuel]; [inversion Hfuel|]);
    inversion HF as [|? ? [Hok Hrb] HF']; subst; cbn [fst snd] in *;
    cbn [ReadValue_object]; rewrite !mtext_app.
  - rewrite skipWhitespace_none by reflexivity.
    rewrite IsEOF_at. cbv iota.
    rewrite parseString_quoted'.
    rewrite skipWhitespace_none by reflexivity.
    rewrite IsEOF_at, skipByte_hit. cbn [negb map comma_tail concat app].
    rewrite (Hrb _ ("}"%byte :: rest) fl) by (cbn; auto).
    rewrite skipWhitespace_none by reflexivity.
    rewrite IsEOF_at, skipByte_hit.
    f_equal. f_equal. f_equal. list_eq.
  - rewrite skipWhitespace_none by reflexivity.
    rewrite IsEOF_at. cbv iota.
    rewrite parseString_quoted'.
    rewrite skipWhitespace_none by reflexivity.
    rewrite IsEOF_at, skipByte_hit. cbn [negb map].
    rewrite !comma_tail_cons.
    rewrite (Hrb _ _ fl) by (cbn; auto).
    rewrite skipWhitespace_none by reflexivity.
    rewrite IsEOF_at, skipByte_at. change (Byte.eqb "," "}") with false. cbv iota.
    rewrite skipByte_hit. cbn [negb].
    rewrite IH by (try assumption; cbn [length] in Hfuel; lia).
    f_equal. f_equal. f_equal. list_eq.
Qed.

Lemma comma_tail_length (l : list bytes) :
  length l <= length (comma_tail l)
  /\ forall t, In t l -> length t < length (comma_tail l).
Proof.
  unfold comma_tail. induction l as [|a l [IH1 IH2]]; cbn [map concat length].
  - split; [lia | intros t []].
  - rewrite length_app. cbn [length]. split; [lia|].
    intros t [-> | Ht]; [lia|]. specialize (IH2 t Ht). lia.
Qed.

Lemma ReadValue_fuel_number (fuel : nat) (c : byte) (t pre : bytes) (fl : Z) :
  c = "-"%byte \/ strconv.is_digit c = true ->
  ReadValue_fuel (S fuel) (scan_at pre (c :: t) fl)
  = match parseNumber (scan_at pre (c :: t) fl) with
    | (Ok f, s) => Some (Ok (GoFloat f), s)
    | (Err e, s) => Some (Err e, s)
    end.
Proof.
  intros Hc. cbn [ReadValue_fuel].
  assert (is_whitespace c = false) as Hws.
  { destruct Hc as [-> | Hc]; [reflexivity|].
    destruct c; try discriminate Hc; reflexivity. }
  rewrite skipWhitespace_none by exact Hws.
  rewrite IsEOF_at, peek_at. cbv iota.
  destruct Hc as [-> | Hc]; [reflexivity|].
  destruct c; try discriminate Hc; reflexivity.
Qed.

(** An array whose elements are read back is read back. *)
Lemma ReadValue_array_text (elems : list GoValue) (fuel : nat)
  (pre rest : bytes) (fl : Z) :
  Forall (fun x => json_ok x = true /\ reads_back (ReadValue_fuel fuel) x) elems ->
  length elems <= fuel ->
  ReadValue_fuel (S fuel) (scan_at pre (array_text (map json_text elems) ++ rest) fl)
  = Some (Ok (GoSlice (map canon elems)),
          scan_at (pre ++ array_text (map json_text elems)) rest fl).
Proof.
  intros HF Hfuel. cbn [ReadValue_fuel].
  destruct elems as [|v l].
  - cbn [map array_text]. change (B "[]") with ["["%byte; "]"%byte]. cbn [app].
    rewrite skipWhitespace_none by reflexivity.
    rewrite IsEOF_at, peek_at. cbv iota.
    change (cur (scan_at ?a ?b ?f)) with (length a). rewrite scan_at_step.
    rewrite skipWhitespace_none by reflexivity.
    rewrite skipByte_hit. f_equal. f_equal. f_equal. list_eq.
  - inversion HF as [|? ? [Hok _] _]; subst.
    cbn [map array_text]. rewrite join_comma_tail.
    change (B "]") with ["]"%byte].
    replace (("["%byte :: (json_text v ++ comma_tail (map json_text l)) ++ ["]"%byte])
             ++ rest)
      with ("["%byte :: json_text v ++ comma_tail (map json_text l) ++ "]"%byte :: rest)
      by list_eq.
    rewrite skipWhitespace_none by reflexivity.
    rewrite IsEOF_at, peek_at. cbv iota.
    change (cur (scan_at ?a ?b ?f)) with (length a). rewrite scan_at_step.
    rewrite skipWhitespace_none by (now apply text_not_ws).
    rewrite skipByte_miss.
    2:{ destruct (json_text_start v Hok) as (c & t & -> & Hc).
        cbn. apply (value_start_facts c Hc). }
    rewrite ReadValue_array_reads by (try assumption; cbn [length] in Hfuel; lia).
    f_equal. f_equal. f_equal. list_eq.
Qed.

(** An object whose values are read back is read back, member by member
    in the order of the text, each key assigned in its turn. *)
Lemma ReadValue_object_text (ms : list (bytes * GoValue)) (fuel : nat)
  (pre rest : bytes) (fl : Z) :
  Forall (fun x => json_ok (snd x) = true /\ reads_back (ReadValue_fuel fuel) (snd x)) ms ->
  length ms <= fuel ->
  ReadValue_fuel (S fuel) (scan_at pre (members_text ms ++ rest) fl)
  = Some (Ok (GoMap (set_members ms [])),
          scan_at (pre ++ members_text ms) rest fl).
Proof.
  intros HF Hfuel. cbn [ReadValue_fuel]. unfold members_text.
  destruct ms as [|kv l].
  - cbn [map object_text]. change (B "{}") with ["{"%byte; "}"%byte]. cbn [app].
    rewrite skipWhitespace_none by reflexivity.
    rewrite IsEOF_at, peek_at. cbv iota.
    change (cur (scan_at ?a ?b ?f)) with (length a). rewrite scan_at_step.
    rewrite skipWhitespace_none by reflexivity.
    rewrite skipByte_hit. f_equal. f_equal. f_equal. list_eq.
  - cbn [map object_text]. rewrite map_map. rewrite join_comma_tail.
    change (B "}") with ["}"%byte].
    change (member_text (fst kv, json_text (snd kv))) with (mtext kv).
    change (map (fun x => member_text (fst x, json_text (snd x))) l) with (map mtext l).
    replace (("{"%byte :: (mtext kv ++ comma_tail (map mtext l)) ++ ["}"%byte]) ++ rest)
      with ("{"%byte :: mtext kv ++ comma_tail (map mtext l) ++ "}"%byte :: rest)
      by list_eq.
    rewrite skipWhitespace_none by reflexivity.
    rewrite IsEOF_at, peek_at. cbv iota.
    change (cur (scan_at ?a ?b ?f)) with (length a). rewrite scan_at_step.
    rewrite skipWhitespace_none by (destruct kv; rewrite mtext_app; reflexivity).
    rewrite skipByte_miss by (destruct kv; rewrite mtext_app; reflexivity).
    rewrite ReadValue_object_reads by (try assumption; cbn [length] in Hfuel; lia).
    f_equal. f_equal. f_equal. list_eq.
Qed.

Lemma members_text_length (ms : list (bytes * GoValue)) :
  length ms <= length (members_text ms)
  /\ forall kv, In kv ms -> length (json_text (snd kv)) + 2 < length (members_text ms).
Proof.
  unfold members_text. destruct ms as [|kv0 l]; [split; [cbn; lia | intros kv []]|].
  cbn [map object_text]. rewrite map_map, join_comma_tail.
  change (fun x => member_text (fst x, json_text (snd x))) with mtext.
  pose proof (comma_tail_length (map mtext l)) as [L1 L2].
  rewrite length_map in L1.
  assert (forall kv, length (json_text (snd kv)) + 3 <= length (mtext kv)) as Hm.
  { intros [k v]. pose proof (mtext_app k v []) as E. rewrite !app_nil_r in E.
    rewrite E. cbn [snd length]. rewrite length_app. cbn [length]. lia. }
  cbn [length]. rewrite !length_app. change (length (B "}")) with 1.
  split; [lia|].
  intros kv [<- | Hin].
  - specialize (Hm kv0). change (member_text (fst kv0, json_text (snd kv0)))
      with (mtext kv0). lia.
  - specialize (L2 (mtext kv) (in_map mtext _ _ Hin)). specialize (Hm kv). lia.
Qed.

Lemma array_text_length (elems : list GoValue) :
  length elems < length (array_text (map json_text elems))
  /\ forall v, In v elems ->
       length (json_text v) + 2 <= length (array_text (map json_text elems)).
Proof.
  destruct elems as [|v0 l]; [split; [cbn; lia | intros v []]|].
  cbn [map array_text]. rewrite join_comma_tail.
  pose proof (comma_tail_length (map json_text l)) as [L1 L2].
  rewrite length_map in L1.
  cbn [length]. rewrite !length_app. change (length (B "]")) with 1.
  split; [lia|].
  intros v [<- | Hin]; [lia|].
  specialize (L2 (json_text v) (in_map json_text _ _ Hin)). lia.
Qed.

(* ------------------------------------------------------------------ *)
(** ** Assignments to a map *)

Lemma bytes_eqb_eq (a c : bytes) : bytes_eqb a c = true <-> a = c.
Proof.
  revert c; induction a as [|x a IH]; intros [|y c]; cbn [bytes_eqb];
    try (split; [discriminate | discriminate]); [split; reflexivity|].
  rewrite andb_true_iff, byte_eqb_eq, IH. split.
  - now intros [-> ->].
  - intros E. injection E as -> ->. now split.
Qed.

Lemma bytes_eqb_refl (a : bytes) : bytes_eqb a a = true.
Proof. now apply bytes_eqb_eq. Qed.

Lemma map_get_set (k k' : bytes) (v : GoValue) (m : list (bytes * GoValue)) :
  map_get k (map_set k' v m) = if bytes_eqb k k' then Some v else map_get k m.
Proof.
  induction m as [|[k0 v0] m IH]; cbn [map_set map_get]; [reflexivity|].
  destruct (bytes_eqb k' k0) eqn:E0; cbn [map_get].
  - apply bytes_eqb_eq in E0. subst k0. now destruct (bytes_eqb k k').
  - rewrite IH. destruct (bytes_eqb k k0) eqn:E1; [|reflexivity].
    apply bytes_eqb_eq in E1. subst k0.
    destruct (bytes_eqb k k') eqn:E2; [|reflexivity].
    apply bytes_eqb_eq in E2. subst k'. now rewrite bytes_eqb_refl in E0.
Qed.


Lemma map_set_fresh (k : bytes) (v : GoValue) (m : list (bytes * GoValue)) :
  ~ In k (map fst m) -> map_set k v m = m ++ [(k, v)].
Proof.
  induction m as [|[k0 v0] m IH]; cbn [map_set map fst app]; [reflexivity|].
  intros Hn. destruct (bytes_eqb k k0) eqn:E.
  - apply bytes_eqb_eq in E. subst k0. exfalso. apply Hn. now left.
  - rewrite IH; [reflexivity|]. intros Hin. apply Hn. now right.
Qed.

Lemma set_members_distinct (ms m : list (bytes * GoValue)) :
  NoDup (map fst (m ++ ms)) ->
  set_members ms m = m ++ map (fun kv => (fst kv, canon (snd kv))) ms.
Proof.
  revert m; induction ms as [|[k v] ms IH]; intros m Hn.
  - cbn. now rewrite app_nil_r.
  - unfold set_members. cbn [fold_left fst snd]. fold (set_members ms (map_set k (canon v) m)).
    assert (~ In k (map fst m)) as Hk.
    { rewrite map_app in Hn. cbn [map fst] in Hn.
      apply NoDup_remove_2 in Hn. intros Hin. apply Hn, in_or_app. now left. }
    rewrite (map_set_fresh k (canon v) m Hk).
    rewrite IH.
    + cbn [map fst snd]. list_eq.
    + rewrite <- app_assoc. cbn [app].
      replace (map fst (m ++ (k, canon v) :: ms)) with (map fst (m ++ (k, v) :: ms));
        [exact Hn|].
      rewrite !map_app. reflexivity.
Qed.

Lemma nodup_keys_NoDup (l : list bytes) : nodup_keys l = true -> NoDup l.
Proof.
  induction l as [|k l IH]; cbn [nodup_keys]; [constructor|].
  intros H. apply andb_prop in H as [Hk Hl]. constructor; [|now apply IH].
  intros Hin. apply negb_true_iff in Hk.
  assert (existsb (bytes_eqb k) l = true) as C.
  { apply existsb_exists. exists k. split; [exact Hin | apply bytes_eqb_refl]. }
  congruence.
Qed.

(* ------------------------------------------------------------------ *)
(** ** The value read back *)

Lemma ReadValue_reads_back (v : GoValue) :
  json_ok v = true ->
  forall fuel, length (json_text v) < fuel -> reads_back (ReadValue_fuel fuel) v.
Proof.
  induction v using GoValue_ind; intros Hok fuel Hfuel; try discriminate Hok;
    (destruct fuel as [|fuel]; [inversion Hfuel|]); intros pre rest fl Hd.
  - (* null *)
    cbn [json_text canon ReadValue_fuel].
    change (B "null" ++ rest) with ("n"%byte :: B "ull" ++ rest).
    rewrite skipWhitespace_none by reflexivity.
    rewrite IsEOF_at, peek_at. cbv iota.
    change ("n"%byte :: B "ull" ++ rest) with (B "null" ++ rest).
    now rewrite skipSequence_at.
  - (* booleans *)
    cbn [json_text canon ReadValue_fuel]. destruct b.
    + change (B "true" ++ rest) with ("t"%byte :: B "rue" ++ rest).
      rewrite skipWhitespace_none by reflexivity.
      rewrite IsEOF_at, peek_at. cbv iota.
      change ("t"%byte :: B "rue" ++ rest) with (B "true" ++ rest).
      now rewrite skipSequence_at.
    + change (B "false" ++ rest) with ("f"%byte :: B "alse" ++ rest).
      rewrite skipWhitespace_none by reflexivity.
      rewrite IsEOF_at, peek_at. cbv iota.
      change ("f"%byte :: B "alse" ++ rest) with (B "false" ++ rest).
      now rewrite skipSequence_at.
  - (* numbers *)
    cbn [json_ok] in Hok. cbn [json_text canon].
    assert (exists c t, strconv.FormatFloat_g f 6 = c :: t
                        /\ (c = "-"%byte \/ strconv.is_digit c = true))
      as (c & t & Et & Hc).
    { pose proof Hok as Hok'. unfold float_prints_back in Hok'.
      apply andb_prop in Hok' as [_ Hok'].
      destruct (parseNumber (scan_at [] (strconv.FormatFloat_g f 6) 0))
        as [[f'|e] s'] eqn:E; [|discriminate Hok'].
      apply (parseNumber_ok_head (strconv.FormatFloat_g f 6) 0 f'). now rewrite E. }
    assert (ReadValue_fuel (S fuel) (scan_at pre (strconv.FormatFloat_g f 6 ++ rest) fl)
            = match parseNumber (scan_at pre (strconv.FormatFloat_g f 6 ++ rest) fl) with
              | (Ok f, s) => Some (Ok (GoFloat f), s)
              | (Err e, s) => Some (Err e, s)
              end) as ->.
    { rewrite Et. cbn [app]. now apply ReadValue_fuel_number. }
    now rewrite parseNumber_prints_back.
  - (* strings *)
    cbn [json_text canon ReadValue_fuel].
    replace (quoted s ++ rest) with (x22 :: escape s ++ x22 :: rest)
      by (unfold quoted; list_eq).
    rewrite skipWhitespace_none by reflexivity.
    rewrite IsEOF_at, peek_at. cbv iota.
    now rewrite parseString_quoted'.
  - (* arrays *)
    cbn [json_ok] in Hok. rewrite forallb_forall in Hok.
    rewrite Forall_forall in H. cbn [json_text] in Hfuel |- *.
    pose proof (array_text_length elems) as [L1 L2].
    cbn [canon]. apply ReadValue_array_text; [|lia].
    rewrite Forall_forall. intros x Hx. split; [now apply Hok|].
    apply (H x Hx); [now apply Hok|]. specialize (L2 x Hx). lia.
  - (* objects *)
    cbn [json_ok] in Hok. apply andb_prop in Hok as [Hn Hok].
    apply nodup_keys_NoDup in Hn.
    rewrite forallb_forall in Hok. rewrite Forall_forall in H.
    cbn [json_text] in Hfuel |- *. rewrite (sort_map_snd json_text) in Hfuel |- *.
    fold (members_text (sort.Slice (@pair_less _) pairs)) in Hfuel |- *.
    pose proof (members_text_length (sort.Slice (@pair_less _) pairs)) as [L1 L2].
    assert (forall kv, In kv (sort.Slice (@pair_less _) pairs) -> In kv pairs) as Hin.
    { intros kv. apply Permutation_in, sort_perm. }
    rewrite ReadValue_object_text.
    + cbn [canon]. rewrite (sort_map_snd canon).
      rewrite set_members_distinct; [reflexivity|].
      cbn [app]. eapply Permutation_NoDup; [|exact Hn].
      apply Permutation_map. symmetry. apply sort_perm.
    + rewrite Forall_forall. intros kv Hkv. split; [apply Hok, Hin, Hkv|].
      apply (H kv (Hin kv Hkv)); [apply Hok, Hin, Hkv|].
      specialize (L2 kv Hkv). lia.
    + lia.
Qed.





(* ================================================================== *)
(** * The reader never runs out of fuel *)

Lemma advances_refl (s : Scanner) : advances s s.
Proof. split; [reflexivity | lia]. Qed.

Lemma advances_trans (s1 s2 s3 : Scanner) :
  advances s1 s2 -> advances s2 s3 -> advances s1 s3.
Proof. intros [D1 C1] [D2 C2]. split; [congruence | lia]. Qed.

Lemma advances_set_cur (s : Scanner) (c : nat) :
  cur s <= c -> advances s (set_cur s c).
Proof. intros H. split; [reflexivity | exact H]. Qed.

Lemma advances_remaining (s s' : Scanner) :
  advances s s' -> remaining s' <= remaining s.
Proof. intros [D C]. unfold remaining. rewrite D. lia. Qed.

Lemma IsEOF_false_step (s : Scanner) :
  IsEOF s = false -> remaining (set_cur s (cur s + 1)) < remaining s.
Proof.
  unfold IsEOF, remaining. intros H. apply Nat.leb_gt in H. cbn [data cur set_cur]. lia.
Qed.

Lemma skipWhitespace_adv (s : Scanner) : advances s (skipWhitespace s).
Proof.
  unfold skipWhitespace. generalize (remaining s) as fuel. intros fuel.
  revert s; induction fuel as [|fuel IH]; intros s; cbn [skipWhitespace_loop];
    [apply advances_refl|].
  destruct (cur s <? length (data s)); [|apply advances_refl].
  destruct (is_whitespace _); [|apply advances_refl].
  eapply advances_trans; [|apply IH]. apply advances_set_cur. lia.
Qed.

Lemma skipByte_adv (b : byte) (s : Scanner) : advances s (snd (skipByte b s)).
Proof.
  unfold skipByte. destruct (length (data s) <=? cur s); [apply advances_refl|].
  destruct (Byte.eqb _ b); cbn [snd]; [|apply advances_refl].
  apply advances_set_cur. lia.
Qed.

Lemma skipByte_true (b : byte) (s : Scanner) :
  fst (skipByte b s) = true -> remaining (snd (skipByte b s)) < remaining s.
Proof.
  unfold skipByte. destruct (length (data s) <=? cur s) eqn:E; [discriminate|].
  apply Nat.leb_gt in E.
  destruct (Byte.eqb _ b); cbn [fst snd]; [|discriminate].
  intros _. unfold remaining. cbn [data cur set_cur]. lia.
Qed.

Lemma skipDecimalDigits_adv (s : Scanner) : advances s (snd (skipDecimalDigits s)).
Proof.
  unfold skipDecimalDigits. cbn [snd]. generalize (remaining s) as fuel. intros fuel.
  revert s; induction fuel as [|fuel IH]; intros s; cbn [skipDecimalDigits_loop];
    [apply advances_refl|].
  destruct (isDecimalDigit s); [|apply advances_refl].
  eapply advances_trans; [|apply IH]. apply advances_set_cur. lia.
Qed.

Lemma skipSequence_adv (seq : bytes) (s : Scanner) :
  advances s (snd (skipSequence seq s)).
Proof.
  unfold skipSequence. destruct (_ <? _); [apply advances_refl|].
  destruct (skipSequence_loop seq 0 s); cbn [snd]; [|apply advances_refl].
  apply advances_set_cur. lia.
Qed.

Lemma parseUnicode_adv (s : Scanner) : advances s (snd (parseUnicode s)).
Proof.
  unfold parseUnicode. destruct (_ <? _); [apply advances_refl|].
  destruct (strconv.ParseUint_16_16 _); cbn [snd]; apply advances_set_cur; lia.
Qed.

Lemma next_adv (s : Scanner) : advances s (snd (next s)).
Proof.
  unfold next. destruct (_ <=? _); cbn [snd]; [apply advances_refl|].
  apply advances_set_cur. lia.
Qed.

Lemma parseString_fast_adv (fuel start : nat) (s : Scanner) :
  advances s (snd (parseString_fast fuel start s)).
Proof.
  revert s; induction fuel as [|fuel IH]; intros s; cbn [parseString_fast];
    [apply advances_refl|].
  destruct (cur s <? length (data s)); [|apply advances_refl].
  destruct (byte_leb _ x1f); [apply advances_refl|].
  destruct (Byte.eqb _ "\"); [apply advances_refl|].
  destruct (Byte.eqb _ x22); cbn [snd].
  - apply advances_set_cur. lia.
  - eapply advances_trans; [|apply IH]. apply advances_set_cur. lia.
Qed.

Lemma parseString_slow_adv (fuel : nat) (buf : bytes) (s : Scanner) :
  advances s (snd (parseString_slow fuel buf s)).
Proof.
  revert buf s; induction fuel as [|fuel IH]; intros buf s; cbn [parseString_slow];
    [apply advances_refl|].
  pose proof (next_adv s) as A. destruct (next s) as [c s1]. cbn [snd] in A.
  destruct (Byte.eqb c x00); [exact A|].
  destruct (byte_leb c x1f); [exact A|].
  destruct (Byte.eqb c x22); [exact A|].
  destruct (Byte.eqb c "\").
  - destruct (length (data s1) <=? cur s1); [exact A|].
    assert (advances s (set_cur s1 (cur s1 + 1))) as A1.
    { eapply advances_trans; [exact A|]. apply advances_set_cur. lia. }
    destruct (peek s1);
      try exact A;
      try (eapply advances_trans; [exact A1 | apply IH]).
    pose proof (parseUnicode_adv (set_cur s1 (cur s1 + 1))) as A2.
    destruct (parseUnicode (set_cur s1 (cur s1 + 1))) as [[r|e] s2]; cbn [snd] in A2.
    + eapply advances_trans; [|apply IH]. eapply advances_trans; eassumption.
    + eapply advances_trans; eassumption.
  - eapply advances_trans; [exact A | apply IH].
Qed.

Lemma parseString_adv (s : Scanner) : advances s (snd (parseString s)).
Proof.
  unfold parseString. destruct (negb _); [apply advances_refl|].
  assert (advances s (set_cur s (cur s + 1))) as A1 by (apply advances_set_cur; lia).
  pose proof (parseString_fast_adv (remaining (set_cur s (cur s + 1)))
                (cur (set_cur s (cur s + 1))) (set_cur s (cur s + 1))) as A2.
  destruct (parseString_fast _ _ _) as [[r | [|]] s2]; cbn [snd] in A2 |- *;
    try (eapply advances_trans; eassumption).
  eapply advances_trans; [|apply parseString_slow_adv].
  destruct A2 as [D2 C2]. split; cbn [data cur set_cur] in *; [exact D2 | lia].
Qed.

Lemma parseNumber_int_adv (s : Scanner) : advances s (snd (parseNumber_int s)).
Proof.
  unfold parseNumber_int. pose proof (skipByte_adv "0" s) as A.
  destruct (skipByte "0" s) as [[|] s1]; cbn [snd] in A.
  - destruct (isDecimalDigit s1); exact A.
  - destruct (_ || _); [exact A|]. cbn [snd].
    eapply advances_trans; [exact A|].
    eapply advances_trans; [|apply skipDecimalDigits_adv].
    apply advances_set_cur. lia.
Qed.

Lemma parseNumber_frac_adv (s : Scanner) : advances s (snd (parseNumber_frac s)).
Proof.
  unfold parseNumber_frac. pose proof (skipByte_adv "." s) as A.
  destruct (skipByte "." s) as [[|] s1]; cbn [snd] in A; [|exact A].
  pose proof (skipDecimalDigits_adv s1) as A1.
  destruct (skipDecimalDigits s1) as [[|] s2]; cbn [snd negb] in A1 |- *;
    [|eapply advances_trans; eassumption].
  pose proof (skipByte_adv "." s2) as A2.
  destruct (skipByte "." s2) as [[|] s3]; cbn [snd] in A2 |- *;
    (eapply advances_trans; [exact A|]; eapply advances_trans; eassumption).
Qed.

Lemma skip_e_adv (s : Scanner) : advances s (snd (skip_e s)).
Proof.
  unfold skip_e. pose proof (skipByte_adv "e" s) as A.
  destruct (skipByte "e" s) as [[|] s1]; cbn [snd] in A; [exact A|].
  eapply advances_trans; [exact A | apply skipByte_adv].
Qed.

Lemma parseNumber_exp_adv (s : Scanner) : advances s (snd (parseNumber_exp s)).
Proof.
  unfold parseNumber_exp. pose proof (skip_e_adv s) as A.
  destruct (skip_e s) as [[|] s1]; cbn [snd] in A; [|exact A].
  pose proof (skipByte_adv "+" s1) as A1.
  destruct (skipByte "+" s1) as [plus s2]; cbn [snd] in A1.
  assert (advances s2 (if negb plus then snd (skipByte "-" s2) else s2)) as A2.
  { destruct plus; cbn [negb]; [apply advances_refl | apply skipByte_adv]. }
  pose proof (skipDecimalDigits_adv (if negb plus then snd (skipByte "-" s2) else s2)) as A3.
  destruct (skipDecimalDigits _) as [digits s4]; cbn [snd] in A3.
  assert (advances s s4) as A4.
  { eapply advances_trans; [exact A|]. eapply advances_trans; [exact A1|].
    eapply advances_trans; eassumption. }
  destruct digits; cbn [negb]; [|exact A4].
  pose proof (skip_e_adv s4) as A5.
  destruct (skip_e s4) as [[|] s5]; cbn [snd] in A5 |- *;
    (eapply advances_trans; eassumption).
Qed.

Lemma parseNumber_adv (s : Scanner) : advances s (snd (parseNumber s)).
Proof.
  unfold parseNumber. pose proof (skipByte_adv "-" s) as A0.
  pose proof (parseNumber_int_adv (snd (skipByte "-" s))) as A1.
  destruct (parseNumber_int _) as [ok1 s1]; cbn [snd] in A1.
  assert (advances s s1) as B1 by (eapply advances_trans; eassumption).
  destruct ok1; cbn [negb]; [|exact B1].
  pose proof (parseNumber_frac_adv s1) as A2.
  destruct (parseNumber_frac s1) as [ok2 s2]; cbn [snd] in A2.
  assert (advances s s2) as B2 by (eapply advances_trans; eassumption).
  destruct ok2; cbn [negb]; [|exact B2].
  pose proof (parseNumber_exp_adv s2) as A3.
  destruct (parseNumber_exp s2) as [ok3 s3]; cbn [snd] in A3.
  assert (advances s s3) as B3 by (eapply advances_trans; eassumption).
  destruct ok3; cbn [negb]; [|exact B3].
  destruct (strconv.ParseFloat _) as [val [[|]|]]; exact B3.
Qed.

Ltac chain_adv :=
  first [ assumption
        | apply advances_refl
        | match goal with
          | H : advances ?y ?x |- advances ?s ?x =>
              apply (advances_trans s y x); [clear H; chain_adv | exact H]
          end ].

Ltac returns_adv :=
  solve [eexists _, _; split; [reflexivity | chain_adv]].

Ltac rem_facts :=
  repeat match goal with
         | H : advances ?a ?b |- _ =>
             lazymatch goal with
             | _ : remaining b <= remaining a |- _ => fail
             | _ => pose proof (advances_remaining a b H)
             end
         end.

Section Total.

Variable rv : Scanner -> option (Res GoValue * Scanner).
Variable F : nat.
Hypothesis rv_total :
  forall s, remaining s < F -> exists r s', rv s = Some (r, s') /\ advances s s'.

Lemma ReadValue_object_total (fuel : nat) (m : list (bytes * GoValue)) (s : Scanner) :
  fuel <= F -> remaining s < fuel ->
  exists r s', ReadValue_object rv fuel m s = Some (r, s') /\ advances s s'.
Proof.
  revert m s; induction fuel as [|fuel IH]; intros m s HF Hr; [lia|].
  cbn [ReadValue_object].
  pose proof (skipWhitespace_adv s) as A1. set (s1 := skipWhitespace s) in *.
  destruct (IsEOF s1); [returns_adv|].
  pose proof (parseString_adv s1) as A2.
  destruct (parseString s1) as [[key|e] s2]; cbn [snd] in A2; [|returns_adv].
  pose proof (skipWhitespace_adv s2) as A3. set (s3 := skipWhitespace s2) in *.
  destruct (IsEOF s3); [returns_adv|].
  pose proof (skipByte_adv ":" s3) as A4. pose proof (skipByte_true ":" s3) as T4.
  destruct (skipByte ":" s3) as [colon s4]. cbn [fst snd] in A4, T4.
  destruct colon; cbn [negb]; [|returns_adv].
  specialize (T4 eq_refl). rem_facts.
  destruct (rv_total s4) as (r & s5 & -> & A5); [lia|].
  destruct r as [val|e]; [|returns_adv].
  pose proof (skipWhitespace_adv s5) as A6. set (s6 := skipWhitespace s5) in *.
  destruct (IsEOF s6); [returns_adv|].
  pose proof (skipByte_adv "}" s6) as A7.
  destruct (skipByte "}" s6) as [close s7]. cbn [snd] in A7.
  destruct close; [returns_adv|].
  pose proof (skipByte_adv "," s7) as A8.
  destruct (skipByte "," s7) as [comma s8]. cbn [snd] in A8.
  destruct comma; cbn [negb]; [|returns_adv].
  rem_facts.
  destruct (IH (map_set key val m) s8) as (r & s9 & -> & A9); [lia | lia |].
  returns_adv.
Qed.

Lemma ReadValue_array_total (fuel : nat) (arr : list GoValue) (s : Scanner) :
  fuel <= F -> remaining s < fuel ->
  exists r s', ReadValue_array rv fuel arr s = Some (r, s') /\ advances s s'.
Proof.
  revert arr s; induction fuel as [|fuel IH]; intros arr s HF Hr; [lia|].
  cbn [ReadValue_array].
  destruct (IsEOF s); [returns_adv|].
  destruct (rv_total s) as (r & s1 & -> & A1); [lia|].
  destruct r as [val|e]; [|returns_adv].
  pose proof (skipWhitespace_adv s1) as A2. set (s2 := skipWhitespace s1) in *.
  destruct (IsEOF s2); [returns_adv|].
  pose proof (skipByte_adv "]" s2) as A3.
  destruct (skipByte "]" s2) as [close s3]. cbn [snd] in A3.
  destruct close; [returns_adv|].
  pose proof (skipByte_adv "," s3) as A4. pose proof (skipByte_true "," s3) as T4.
  destruct (skipByte "," s3) as [comma s4]. cbn [fst snd] in A4, T4.
  destruct comma; cbn [negb]; [|returns_adv].
  specialize (T4 eq_refl).
  pose proof (skipWhitespace_adv s4) as A5. set (s5 := skipWhitespace s4) in *.
  rem_facts.
  destruct (IH (arr ++ [val]) s5) as (r & s6 & -> & A6); [lia | lia |].
  returns_adv.
Qed.

End Total.

Lemma ReadValue_fuel_total (fuel : nat) (s : Scanner) :
  remaining s < fuel ->
  exists r s', ReadValue_fuel fuel s = Some (r, s') /\ advances s s'.
Proof.
  revert s; induction fuel as [|fuel IH]; intros s Hr; [lia|].
  cbn [ReadValue_fuel].
  pose proof (skipWhitespace_adv s) as A1. set (s1 := skipWhitespace s) in *.
  destruct (IsEOF s1) eqn:E1; [returns_adv|].
  pose proof (IsEOF_false_step s1 E1) as T1.
  assert (advances s (set_cur s1 (cur s1 + 1))) as A2.
  { eapply advances_trans; [exact A1|]. apply advances_set_cur. lia. }
  pose proof (skipWhitespace_adv (set_cur s1 (cur s1 + 1))) as A3.
  rem_facts.
  destruct (peek s1); try returns_adv;
    try (match goal with
         | |- context [parseNumber ?x] =>
             let A := fresh "A" in
             pose proof (parseNumber_adv x) as A;
             destruct (parseNumber x) as [[?|?] ?]; cbn [snd] in A; returns_adv
         | |- context [parseString ?x] =>
             let A := fresh "A" in
             pose proof (parseString_adv x) as A;
             destruct (parseString x) as [[?|?] ?]; cbn [snd] in A; returns_adv
         | |- context [skipSequence ?q ?x] =>
             let A := fresh "A" in
             pose proof (skipSequence_adv q x) as A;
             destruct (skipSequence q x) as [[|] ?]; cbn [snd negb] in A |- *;
             returns_adv
         end).
  - (* arrays *)
    pose proof (skipByte_adv "]" (skipWhitespace (set_cur s1 (cur s1 + 1)))) as A4.
    destruct (skipByte "]" _) as [close s4]. cbn [snd] in A4.
    destruct close; [returns_adv|]. rem_facts.
    destruct (ReadValue_array_total (ReadValue_fuel fuel) fuel IH fuel [] s4)
      as (r & s5 & -> & A5); [lia | lia |].
    returns_adv.
  - (* objects *)
    pose proof (skipByte_adv "}" (skipWhitespace (set_cur s1 (cur s1 + 1)))) as A4.
    destruct (skipByte "}" _) as [close s4]. cbn [snd] in A4.
    destruct close; [returns_adv|]. rem_facts.
    destruct (ReadValue_object_total (ReadValue_fuel fuel) fuel IH fuel [] s4)
      as (r & s5 & -> & A5); [lia | lia |].
    returns_adv.
Qed.

(** [ReadValue] starts with enough fuel, whatever the scanner holds. *)
Lemma ReadValue_fuel_enough (s : Scanner) :
  ReadValue_fuel (S (remaining s)) s = Some (ReadValue s).
Proof.
  unfold ReadValue.
  destruct (ReadValue_fuel_total (S (remaining s)) s) as (r & s' & -> & _);
    [lia | reflexivity].
Qed.

(* ================================================================== *)
(** * Encoding and decoding again *)







(* ================================================================== *)
(** * The recursion of ReadValue, whatever the fuel *)

Lemma skipByte_spec (b : byte) (s : Scanner) :
  skipByte b s = if at_byte b s then (true, set_cur s (cur s + 1)) else (false, s).
Proof.
  unfold skipByte, at_byte. destruct (length (data s) <=? cur s); [reflexivity|].
  cbn [negb andb]. reflexivity.
Qed.

Lemma at_byte_excl (b1 b2 : byte) (s : Scanner) :
  at_byte b1 s = true -> b1 <> b2 -> at_byte b2 s = false.
Proof.
  unfold at_byte. intros H Hn. apply andb_prop in H as [H1 H2]. rewrite H1. cbn [andb].
  apply byte_eqb_eq in H2. apply byte_eqb_neq. congruence.
Qed.

Lemma at_byte_not_eof (b : byte) (s : Scanner) :
  at_byte b s = true -> IsEOF s = false.
Proof.
  unfold at_byte, IsEOF. intros H. apply andb_prop in H as [H _].
  now apply negb_true_iff in H.
Qed.

Lemma at_byte_peek (b : byte) (s : Scanner) :
  at_byte b s = true -> peek s = b.
Proof.
  unfold at_byte, peek. intros H. apply andb_prop in H as [H1 H2].
  apply negb_true_iff in H1. rewrite H1. now apply byte_eqb_eq.
Qed.

Lemma peek_at_byte (b : byte) (s : Scanner) :
  peek s = b -> b <> x00 -> at_byte b s = true.
Proof.
  unfold at_byte, peek. destruct (length (data s) <=? cur s); [congruence|].
  intros -> _. cbn [negb andb]. apply byte_eqb_refl.
Qed.

Lemma at_byte_step (b : byte) (s : Scanner) :
  at_byte b s = true -> remaining (set_cur s (cur s + 1)) < remaining s.
Proof. intros H. apply IsEOF_false_step. now apply at_byte_not_eof with b. Qed.

Lemma span_snd_idem (p : byte -> bool) (l : bytes) :
  span p (snd (span p l)) = ([], snd (span p l)).
Proof.
  induction l as [|c l IH]; [reflexivity|]. cbn [span].
  destruct (p c) eqn:E; cbn [snd]; [exact IH|]. cbn [span]. now rewrite E.
Qed.

Lemma skipWhitespace_idem (s : Scanner) :
  skipWhitespace (skipWhitespace s) = skipWhitespace s.
Proof.
  destruct (le_lt_dec (cur s) (length (data s))) as [Hle | Hgt].
  - rewrite (scan_at_of s Hle). rewrite !skipWhitespace_at, span_snd_idem.
    cbn [fst snd]. now rewrite app_nil_r.
  - assert (skipWhitespace s = s) as E.
    { unfold skipWhitespace, remaining.
      replace (length (data s) - cur s) with 0 by lia. reflexivity. }
    now rewrite !E.
Qed.

Lemma skipWhitespace_at_byte (b : byte) (s : Scanner) :
  at_byte b s = true -> is_whitespace b = false -> skipWhitespace s = s.
Proof.
  unfold at_byte. intros H Hw. apply andb_prop in H as [H1 H2].
  apply negb_true_iff, Nat.leb_gt in H1. apply byte_eqb_eq in H2.
  unfold skipWhitespace, remaining.
  destruct (length (data s) - cur s) as [|n] eqn:E; [reflexivity|].
  cbn [skipWhitespace_loop].
  replace (cur s <? length (data s)) with true by (symmetry; apply Nat.ltb_lt; lia).
  now rewrite H2, Hw.
Qed.

Section FuelMono.

Variables rv1 rv2 : Scanner -> option (Res GoValue * Scanner).
Hypothesis rv_mono : forall s r, rv1 s = Some r -> rv2 s = Some r.

Lemma ReadValue_object_mono (fuel1 fuel2 : nat) (m : list (bytes * GoValue))
    (s : Scanner) (r : Res GoValue * Scanner) :
  fuel1 <= fuel2 ->
  ReadValue_object rv1 fuel1 m s = Some r -> ReadValue_object rv2 fuel2 m s = Some r.
Proof.
  revert fuel2 m s; induction fuel1 as [|fuel1 IH]; intros fuel2 m s Hf H;
    [discriminate H|].
  destruct fuel2 as [|fuel2]; [lia|]. cbn [ReadValue_object] in H |- *.
  destruct (IsEOF (skipWhitespace s)); [exact H|].
  destruct (parseString (skipWhitespace s)) as [[key|e] s2]; [|exact H].
  destruct (IsEOF (skipWhitespace s2)); [exact H|].
  destruct (skipByte ":" (skipWhitespace s2)) as [colon s4].
  destruct colon; cbn [negb] in H |- *; [|exact H].
  destruct (rv1 s4) as [[[val|e] s5]|] eqn:E; [| |discriminate H];
    rewrite (rv_mono _ _ E); [|exact H].
  destruct (IsEOF (skipWhitespace s5)); [exact H|].
  destruct (skipByte "}" (skipWhitespace s5)) as [close s7].
  destruct close; [exact H|].
  destruct (skipByte "," s7) as [comma s8].
  destruct comma; cbn [negb] in H |- *; [|exact H].
  apply IH; [lia | exact H].
Qed.

Lemma ReadValue_array_mono (fuel1 fuel2 : nat) (arr : list GoValue)
    (s : Scanner) (r : Res GoValue * Scanner) :
  fuel1 <= fuel2 ->
  ReadValue_array rv1 fuel1 arr s = Some r -> ReadValue_array rv2 fuel2 arr s = Some r.
Proof.
  revert fuel2 arr s; induction fuel1 as [|fuel1 IH]; intros fuel2 arr s Hf H;
    [discriminate H|].
  destruct fuel2 as [|fuel2]; [lia|]. cbn [ReadValue_array] in H |- *.
  destruct (IsEOF s); [exact H|].
  destruct (rv1 s) as [[[val|e] s1]|] eqn:E; [| |discriminate H];
    rewrite (rv_mono _ _ E); [|exact H].
  destruct (IsEOF (skipWhitespace s1)); [exact H|].
  destruct (skipByte "]" (skipWhitespace s1)) as [close s3].
  destruct close; [exact H|].
  destruct (skipByte "," s3) as [comma s4].
  destruct comma; cbn [negb] in H |- *; [|exact H].
  apply IH; [lia | exact H].
Qed.

End FuelMono.

Lemma ReadValue_fuel_mono (fuel1 fuel2 : nat) (s : Scanner) (r : Res GoValue * Scanner) :
  fuel1 <= fuel2 -> ReadValue_fuel fuel1 s = Some r -> ReadValue_fuel fuel2 s = Some r.
Proof.
  revert fuel2 s r; induction fuel1 as [|fuel1 IH]; intros fuel2 s r Hf H;
    [discriminate H|].
  destruct fuel2 as [|fuel2]; [lia|]. cbn [ReadValue_fuel] in H |- *.
  destruct (IsEOF (skipWhitespace s)); [exact H|].
  assert (forall s r, ReadValue_fuel fuel1 s = Some r -> ReadValue_fuel fuel2 s = Some r)
    as Hrv by (intros s' r'; apply IH; lia).
  destruct (peek (skipWhitespace s)); try exact H.
  - destruct (skipByte "]" _) as [[|] s4]; [exact H|].
    eapply ReadValue_array_mono; [exact Hrv | | exact H]. lia.
  - destruct (skipByte "}" _) as [[|] s4]; [exact H|].
    eapply ReadValue_object_mono; [exact Hrv | | exact H]. lia.
Qed.

(** With more fuel than bytes left, [ReadValue_fuel] is [ReadValue]. *)
Lemma ReadValue_fuel_any (fuel : nat) (s : Scanner) :
  remaining s < fuel -> ReadValue_fuel fuel s = Some (ReadValue s).
Proof.
  intros H. apply (ReadValue_fuel_mono (S (remaining s)) fuel); [lia|].
  apply ReadValue_fuel_enough.
Qed.

Lemma ReadValue_adv (s : Scanner) : advances s (snd (ReadValue s)).
Proof.
  destruct (ReadValue_fuel_total (S (remaining s)) s) as (r & s' & E & A); [lia|].
  rewrite ReadValue_fuel_enough in E. injection E as E. now rewrite E.
Qed.

(** [ReadValue] begins by skipping whitespace. *)
Lemma ReadValue_skipWhitespace (s : Scanner) :
  ReadValue (skipWhitespace s) = ReadValue s.
Proof.
  pose proof (advances_remaining _ _ (skipWhitespace_adv s)) as Hr.
  assert (ReadValue_fuel (S (remaining s)) (skipWhitespace s)
          = ReadValue_fuel (S (remaining s)) s) as E.
  { cbn [ReadValue_fuel]. now rewrite skipWhitespace_idem. }
  rewrite ReadValue_fuel_any in E by lia. rewrite ReadValue_fuel_enough in E.
  now injection E.
Qed.

(* ================================================================== *)
(** * The streaming readers *)

Lemma array_loops_agree (F fuel1 fuel2 : nat) (arr : list GoValue) (s : Scanner) :
  fuel1 <= F -> remaining s < fuel1 -> remaining s < fuel2 ->
  ReadValue_array (ReadValue_fuel F) fuel1 arr (skipWhitespace s)
  = match ReadArrayCallback_loop collect_elements fuel2 arr s with
    | Some (None, arr', s') => Some (Ok (GoSlice arr'), s')
    | Some (Some e, _, s') => Some (Err e, s')
    | None => None
    end.
Proof.
  revert fuel2 arr s; induction fuel1 as [|fuel1 IH]; intros fuel2 arr s HF H1 H2; [lia|].
  destruct fuel2 as [|fuel2]; [lia|].
  cbn [ReadValue_array ReadArrayCallback_loop].
  pose proof (skipWhitespace_adv s) as A1. set (s1 := skipWhitespace s) in *.
  destruct (IsEOF s1); [reflexivity|].
  rem_facts. rewrite (ReadValue_fuel_any F s1) by lia.
  pose proof (ReadValue_adv s1) as A2.
  destruct (ReadValue s1) as [[val|e] s2]; [|reflexivity]. cbn [snd] in A2.
  unfold collect_elements at 1.
  pose proof (skipWhitespace_adv s2) as A3. set (s3 := skipWhitespace s2) in *.
  destruct (IsEOF s3); [reflexivity|].
  rewrite (skipByte_spec "]" s3), (skipByte_spec "," s3).
  destruct (at_byte "]" s3) eqn:B1.
  - rewrite (at_byte_excl "]" "," s3 B1) by discriminate.
    rewrite (skipByte_spec "]" s3), B1. reflexivity.
  - rewrite (skipByte_spec "," s3).
    destruct (at_byte "," s3) eqn:B2; cbn [negb].
    + pose proof (at_byte_step "," s3 B2). rem_facts. apply IH; lia.
    + rewrite (skipByte_spec "]" s3), B1. reflexivity.
Qed.

Lemma ReadValue_at_array (s : Scanner) :
  at_byte "[" s = true ->
  ReadValue s = match ReadArray s with
                | (Ok l, s') => (Ok (GoSlice l), s')
                | (Err e, s') => (Err e, s')
                end.
Proof.
  intros Hb. pose proof (ReadValue_fuel_enough s) as H.
  cbn [ReadValue_fuel] in H.
  rewrite (skipWhitespace_at_byte "[" s Hb eq_refl) in H.
  rewrite (at_byte_not_eof "[" s Hb), (at_byte_peek "[" s Hb) in H.
  unfold ReadArray, ReadArrayCallback. rewrite (skipByte_spec "[" s), Hb. cbn [negb].
  pose proof (at_byte_step "[" s Hb) as Hs.
  pose proof (skipWhitespace_adv (set_cur s (cur s + 1))) as A1.
  set (s2 := skipWhitespace (set_cur s (cur s + 1))) in *.
  rewrite (skipByte_spec "]" s2) in H |- *.
  destruct (at_byte "]" s2).
  - now injection H.
  - rem_facts.
    assert (s2 = skipWhitespace s2) as E2.
    { unfold s2. now rewrite skipWhitespace_idem. }
    rewrite E2 in H at 1.
    rewrite (array_loops_agree (remaining s) (remaining s) (S (remaining s2)) [] s2) in H
      by lia.
    change (fun (value : GoValue) (arr : list GoValue) => (arr ++ [value], @None error))
      with collect_elements.
    destruct (ReadArrayCallback_loop collect_elements (S (remaining s2)) [] s2)
      as [[[[e|] arr'] s']|].
    + now injection H.
    + now injection H.
    + discriminate H.
Qed.

Lemma IsEOF_at_byte (b : byte) (s : Scanner) : IsEOF s = true -> at_byte b s = false.
Proof. unfold IsEOF, at_byte. now intros ->. Qed.

Lemma parseString_eof (s : Scanner) :
  IsEOF s = true -> parseString s = (Err ErrUnexpectedToken, s).
Proof.
  unfold IsEOF, parseString, peek. now intros ->.
Qed.

Lemma object_loops_agree (F fuel1 fuel2 : nat) (m : list (bytes * GoValue)) (s : Scanner) :
  fuel1 <= F -> remaining s < fuel1 -> remaining s < fuel2 ->
  match ReadValue_object (ReadValue_fuel F) fuel1 m s,
        ReadObjectCallback_loop assign_member fuel2 m s with
  | Some (Ok v, s1), Some (None, m', s2) => v = GoMap m' /\ s1 = s2
  | Some (Err e1, _), Some (Some e2, _, _) =>
      e1 = e2 \/ (e1 = ErrUnexpectedEOF /\ e2 = ErrUnexpectedToken)
  | _, _ => False
  end.
Proof.
  revert fuel2 m s; induction fuel1 as [|fuel1 IH]; intros fuel2 m s HF H1 H2; [lia|].
  destruct fuel2 as [|fuel2]; [lia|].
  cbn [ReadValue_object ReadObjectCallback_loop].
  pose proof (skipWhitespace_adv s) as A1. set (s1 := skipWhitespace s) in *.
  destruct (IsEOF s1) eqn:E1.
  { rewrite (parseString_eof s1 E1). now right. }
  pose proof (parseString_adv s1) as A2.
  destruct (parseString s1) as [[key|e] s2]; cbn [snd] in A2; [|now left].
  pose proof (skipWhitespace_adv s2) as A3. set (s3 := skipWhitespace s2) in *.
  rewrite (skipByte_spec ":" s3).
  destruct (IsEOF s3) eqn:E3.
  { rewrite (IsEOF_at_byte ":" s3 E3). cbn [negb]. now right. }
  destruct (at_byte ":" s3) eqn:B3; cbn [negb]; [|now left].
  pose proof (at_byte_step ":" s3 B3) as T3.
  rem_facts.
  rewrite (ReadValue_fuel_any F (set_cur s3 (cur s3 + 1))) by lia.
  rewrite ReadValue_skipWhitespace.
  pose proof (ReadValue_adv (set_cur s3 (cur s3 + 1))) as A4.
  destruct (ReadValue (set_cur s3 (cur s3 + 1))) as [[val|e] s5]; cbn [snd] in A4;
    [|now left].
  unfold assign_member at 1.
  pose proof (skipWhitespace_adv s5) as A5. set (s6 := skipWhitespace s5) in *.
  destruct (IsEOF s6); [now left|].
  rewrite (skipByte_spec "}" s6), (skipByte_spec "," s6).
  destruct (at_byte "}" s6) eqn:B1.
  - rewrite (at_byte_excl "}" "," s6 B1) by discriminate.
    rewrite (skipByte_spec "}" s6), B1. now split.
  - rewrite (skipByte_spec "," s6).
    destruct (at_byte "," s6) eqn:B2; cbn [negb].
    + pose proof (at_byte_step "," s6 B2). rem_facts. apply IH; lia.
    + rewrite (skipByte_spec "}" s6), B1. now left.
Qed.

Lemma ReadValue_at_object (s : Scanner) :
  at_byte "{" s = true ->
  match ReadValue s, ReadObject s with
  | (Ok v, s1), (Ok m, s2) => v = GoMap m /\ s1 = s2
  | (Err e1, _), (Err e2, _) =>
      e1 = e2 \/ (e1 = ErrUnexpectedEOF /\ e2 = ErrUnexpectedToken)
  | _, _ => False
  end.
Proof.
  intros Hb. pose proof (ReadValue_fuel_enough s) as H.
  cbn [ReadValue_fuel] in H.
  rewrite (skipWhitespace_at_byte "{" s Hb eq_refl) in H.
  rewrite (at_byte_not_eof "{" s Hb), (at_byte_peek "{" s Hb) in H.
  unfold ReadObject, ReadObjectCallback. rewrite (skipByte_spec "{" s), Hb. cbn [negb].
  pose proof (at_byte_step "{" s Hb) as Hs.
  pose proof (skipWhitespace_adv (set_cur s (cur s + 1))) as A1.
  set (s2 := skipWhitespace (set_cur s (cur s + 1))) in *.
  rewrite (skipByte_spec "}" s2) in H |- *.
  destruct (at_byte "}" s2).
  - injection H as <-. now split.
  - rem_facts.
    pose proof (object_loops_agree (remaining s) (remaining s) (S (remaining s2)) [] s2)
      as HA.
    change (fun (key : bytes) (value : GoValue) (m : list (bytes * GoValue)) =>
              (map_set key value m, @None error)) with assign_member.
    rewrite H in HA.
    destruct (ReadObjectCallback_loop assign_member (S (remaining s2)) [] s2)
      as [[[[e|] m'] s']|].
    + destruct (ReadValue s) as [[v|e1] s1]; apply HA; lia.
    + destruct (ReadValue s) as [[v|e1] s1]; apply HA; lia.
    + destruct (ReadValue s) as [[v|e1] s1]; exfalso; apply HA; lia.
Qed.

Section Visits.

Variable St : Type.

Ltac leaf_with l :=
  eexists _, l, _; split;
  [ rewrite ?app_nil_r; reflexivity
  | cbn [visit fst snd];
    repeat match goal with H : _ = (_, _) |- _ => rewrite H end;
    try reflexivity; eexists; reflexivity ].


Lemma object_loop_visits (cb : bytes -> GoValue -> St -> St * option error)
    (fuel : nat) (l0 : list (bytes * GoValue)) (st : St) (s : Scanner) :
  remaining s < fuel ->
  exists r l s',
    ReadObjectCallback_loop collect_members fuel l0 s = Some (r, l0 ++ l, s')
    /\ match visit (fun kv => cb (fst kv) (snd kv)) l st with
       | (st', Some e) =>
           exists s'', ReadObjectCallback_loop cb fuel st s = Some (Some e, st', s'')
       | (st', None) => ReadObjectCallback_loop cb fuel st s = Some (r, st', s')
       end.
Proof.
  revert l0 st s; induction fuel as [|fuel IH]; intros l0 st s Hr; [lia|].
  cbn [ReadObjectCallback_loop].
  pose proof (skipWhitespace_adv s) as A1. set (s1 := skipWhitespace s) in *.
  pose proof (parseString_adv s1) as A2.
  destruct (parseString s1) as [[key|e] s2]; cbn [snd] in A2; [|leaf_with (@nil (bytes * GoValue))].
  pose proof (skipWhitespace_adv s2) as A3. set (s3 := skipWhitespace s2) in *.
  pose proof (skipByte_adv ":" s3) as A4.
  destruct (skipByte ":" s3) as [[|] s4]; cbn [snd negb] in A4 |- *; [|leaf_with (@nil (bytes * GoValue))].
  pose proof (skipWhitespace_adv s4) as A5. set (s5 := skipWhitespace s4) in *.
  pose proof (ReadValue_adv s5) as A6.
  destruct (ReadValue s5) as [[val|e] s6]; cbn [snd] in A6; [|leaf_with (@nil (bytes * GoValue))].
  unfold collect_members at 1.
  pose proof (skipWhitespace_adv s6) as A7. set (s7 := skipWhitespace s6) in *.
  rewrite (skipByte_spec "," s7).
  destruct (cb key val st) as [st1 [e|]] eqn:Ecb.
  - destruct (IsEOF s7);
      [eexists _, [(key, val)], _; split; [reflexivity|]; cbn [visit fst snd];
       rewrite Ecb; eexists; reflexivity|].
    destruct (at_byte "," s7) eqn:B.
    + pose proof (at_byte_step "," s7 B). rem_facts.
      destruct (IH (l0 ++ [(key, val)]) st1 (set_cur s7 (cur s7 + 1)))
        as (r & l & s' & -> & _); [lia|].
      eexists _, ((key, val) :: l), _. split; [rewrite <- app_assoc; reflexivity|].
      cbn [visit fst snd]. rewrite Ecb. eexists; reflexivity.
    + destruct (skipByte "}" s7) as [[|] s8];
        (eexists _, [(key, val)], _; split; [reflexivity|]; cbn [visit fst snd];
         rewrite Ecb; eexists; reflexivity).
  - destruct (IsEOF s7);
      [eexists _, [(key, val)], _; split; [reflexivity|]; cbn [visit fst snd];
       rewrite Ecb; reflexivity|].
    destruct (at_byte "," s7) eqn:B.
    + pose proof (at_byte_step "," s7 B). rem_facts.
      destruct (IH (l0 ++ [(key, val)]) st1 (set_cur s7 (cur s7 + 1)))
        as (r & l & s' & -> & Hv); [lia|].
      eexists _, ((key, val) :: l), _. split; [rewrite <- app_assoc; reflexivity|].
      cbn [visit fst snd]. rewrite Ecb. exact Hv.
    + destruct (skipByte "}" s7) as [[|] s8];
        (eexists _, [(key, val)], _; split; [reflexivity|]; cbn [visit fst snd];
         rewrite Ecb; reflexivity).
Qed.

End Visits.


Lemma object_callback_visits
    (St : Type) (cb : bytes -> GoValue -> St -> St * option error) (st : St)
    (s : Scanner) :
  let '(r, l, s') := ReadObjectCallback collect_members s [] in
  match visit (fun kv => cb (fst kv) (snd kv)) l st with
  | (st', Some e) => fst (ReadObjectCallback cb s st) = (Some e, st')
  | (st', None) => ReadObjectCallback cb s st = (r, st', s')
  end.
Proof.
  unfold ReadObjectCallback. rewrite (skipByte_spec "{" s).
  destruct (at_byte "{" s) eqn:B1; cbn [negb]; [|reflexivity].
  pose proof (at_byte_step "{" s B1) as T1.
  pose proof (skipWhitespace_adv (set_cur s (cur s + 1))) as A1.
  set (s2 := skipWhitespace (set_cur s (cur s + 1))) in *.
  destruct (skipByte "}" s2) as [[|] s3] eqn:E3; [reflexivity|].
  rewrite skipByte_spec in E3. destruct (at_byte "}" s2); [discriminate E3|].
  injection E3 as <-.
  destruct (object_loop_visits St cb (S (remaining s2)) [] st s2) as (r & l & s' & -> & Hv);
    [lia|].
  cbn [app]. destruct (visit (fun kv => cb (fst kv) (snd kv)) l st) as [st' [e|]].
  - destruct Hv as (s'' & ->). reflexivity.
  - rewrite Hv. reflexivity.
Qed.


(* ================================================================== *)
(** * Properties of the readers *)

(** X1.  On a scanner that stands at an opening bracket, [ReadValue] and
    [ReadArray] do the same: the same elements, the same error where the
    text is wrong, and the same place of the cursor afterwards. *)
Theorem ReadArray_same_as_ReadValue (s : Scanner) :
  peek s = "["%byte ->
  ReadValue s = match ReadArray s with
                | (Ok l, s') => (Ok (GoSlice l), s')
                | (Err e, s') => (Err e, s')
                end.
Proof.
  intros H. apply ReadValue_at_array. apply peek_at_byte; [exact H | discriminate].
Qed.

Lemma ReadArray_same_as_ReadValue_witness :
  let s0 := scan_at [] (B "[1, [true] ,null] ,") 0 in
  let one := GoFloat (S754_finite false 4503599627370496 (-52)) in
  peek s0 = "["%byte
  /\ ReadArray s0
     = (Ok [one; GoSlice [GoBool true]; GoNil], scan_at (B "[1, [true] ,null]") (B " ,") 0)
  /\ ReadValue s0
     = (Ok (GoSlice [one; GoSlice [GoBool true]; GoNil]),
        scan_at (B "[1, [true] ,null]") (B " ,") 0).
Proof.
  cbv zeta. split; [reflexivity|]. split; [vm_compute; reflexivity|].
  rewrite (ReadArray_same_as_ReadValue (scan_at [] (B "[1, [true] ,null] ,") 0) eq_refl).
  vm_compute. reflexivity.
Defined.

(** X2.  On a scanner that stands at an opening brace, [ReadValue] and
    [ReadObject] succeed together, with the same map and the same place of
    the cursor, and fail together.  They report the same error, except
    that [ReadObject] reports [ErrUnexpectedToken] in places where
    [ReadValue] reports [ErrUnexpectedEOF]: [ReadObjectCallback] does not
    test for the end of the input before a key and before the colon. *)
Theorem ReadObject_against_ReadValue (s : Scanner) :
  peek s = "{"%byte ->
  match ReadValue s, ReadObject s with
  | (Ok v, s1), (Ok m, s2) => v = GoMap m /\ s1 = s2
  | (Err e1, _), (Err e2, _) =>
      e1 = e2 \/ (e1 = ErrUnexpectedEOF /\ e2 = ErrUnexpectedToken)
  | _, _ => False
  end.
Proof.
  intros H. apply ReadValue_at_object. apply peek_at_byte; [exact H | discriminate].
Qed.

Lemma ReadObject_against_ReadValue_witness :
  let s0 := scan_at [] ("{"%byte :: x22 :: B "a" ++ x22 :: B ":1,") 0 in
  peek s0 = "{"%byte
  /\ fst (ReadValue s0) = Err ErrUnexpectedEOF
  /\ fst (ReadObject s0) = Err ErrUnexpectedToken
  /\ match ReadValue s0, ReadObject s0 with
     | (Ok v, s1), (Ok m, s2) => v = GoMap m /\ s1 = s2
     | (Err e1, _), (Err e2, _) =>
         e1 = e2 \/ (e1 = ErrUnexpectedEOF /\ e2 = ErrUnexpectedToken)
     | _, _ => False
     end.
Proof.
  cbv zeta. split; [reflexivity|]. split; [vm_compute; reflexivity|].
  split; [vm_compute; reflexivity|].
  exact (ReadObject_against_ReadValue
           (scan_at [] ("{"%byte :: x22 :: B "a" ++ x22 :: B ":1,") 0) eq_refl).
Defined.



Lemma visit_assign (l m : list (bytes * GoValue)) :
  visit (fun kv => assign_member (fst kv) (snd kv)) l m = (assign_all l m, None).
Proof.
  revert m; induction l as [|[k v] l IH]; intros m; [reflexivity|].
  cbn [visit assign_member fst snd]. unfold assign_member at 1. apply IH.
Qed.

Lemma map_get_assign_all (k : bytes) (ms m : list (bytes * GoValue)) :
  map_get k (assign_all ms m)
  = match map_get k (rev ms) with
    | Some v => Some v
    | None => map_get k m
    end.
Proof.
  revert m; induction ms as [|[k0 v0] ms IH] using rev_ind; intros m.
  - reflexivity.
  - unfold assign_all. rewrite fold_left_app. cbn [fold_left fst snd].
    fold (assign_all ms m). rewrite rev_app_distr. cbn [rev app map_get].
    rewrite map_get_set. destruct (bytes_eqb k k0); [reflexivity | apply IH].
Qed.

Lemma ReadObject_assigns (s : Scanner) :
  ReadObject s
  = match ReadObjectCallback collect_members s [] with
    | (Some e, _, s') => (Err e, s')
    | (None, l, s') => (Ok (assign_all l []), s')
    end.
Proof.
  unfold ReadObject.
  change (fun (key : bytes) (value : GoValue) (m : list (bytes * GoValue)) =>
            (map_set key value m, @None error)) with assign_member.
  pose proof (object_callback_visits _ assign_member [] s) as H.
  destruct (ReadObjectCallback collect_members s []) as [[r l] s'].
  rewrite visit_assign in H. rewrite H. destruct r; reflexivity.
Qed.

(** X5.  For any text of an object, whitespace and nesting included: the
    map that [ReadValue] returns is the result of assigning the members of
    the text in their order, so each key holds the value of its last
    occurrence, and the map has no other key.  (The members of the text
    are what [ReadObjectCallback] hands to a collecting callback.) *)
Theorem ReadValue_object_last_occurrence (s s' : Scanner) (v : GoValue) :
  peek s = "{"%byte ->
  ReadValue s = (Ok v, s') ->
  exists m,
    v = GoMap m
    /\ m = assign_all (members_seen s) []
    /\ forall k, map_get k m = map_get k (rev (members_seen s)).
Proof.
  intros Hp Hr.
  pose proof (ReadValue_at_object s (peek_at_byte "{" s Hp ltac:(discriminate))) as H.
  rewrite Hr in H. rewrite ReadObject_assigns in H. unfold members_seen.
  destruct (ReadObjectCallback collect_members s []) as [[[e|] l] s2]; [destruct H|].
  destruct H as [-> _]. cbn [fst snd]. eexists; split; [reflexivity|].
  split; [reflexivity|].
  intros k. rewrite map_get_assign_all. now destruct (map_get k (rev l)).
Qed.

Lemma ReadValue_object_last_occurrence_witness :
  let s0 := scan_at [] ("{"%byte :: x22 :: B "a" ++ x22 :: B ": 1 , " ++ x22 :: B "b"
                        ++ x22 :: B ":[]," ++ x22 :: B "a" ++ x22 :: B ":2 }") 0 in
  let one := GoFloat (S754_finite false 4503599627370496 (-52)) in
  let two := GoFloat (S754_finite false 4503599627370496 (-51)) in
  peek s0 = "{"%byte
  /\ fst (ReadValue s0) = Ok (GoMap [(B "a", two); (B "b", GoSlice [])])
  /\ members_seen s0 = [(B "a", one); (B "b", GoSlice []); (B "a", two)]
  /\ exists m, fst (ReadValue s0) = Ok (GoMap m)
               /\ map_get (B "a") m = Some two.
Proof.
  cbv zeta. split; [reflexivity|]. split; [vm_compute; reflexivity|].
  split; [vm_compute; reflexivity|].
  destruct (ReadValue_object_last_occurrence
              (scan_at [] ("{"%byte :: x22 :: B "a" ++ x22 :: B ": 1 , " ++ x22 :: B "b"
                           ++ x22 :: B ":[]," ++ x22 :: B "a" ++ x22 :: B ":2 }") 0)
              (snd (ReadValue (scan_at [] ("{"%byte :: x22 :: B "a" ++ x22 :: B ": 1 , "
                           ++ x22 :: B "b" ++ x22 :: B ":[]," ++ x22 :: B "a"
                           ++ x22 :: B ":2 }") 0)))
              (GoMap [(B "a", GoFloat (S754_finite false 4503599627370496 (-51)));
                      (B "b", GoSlice [])])
              eq_refl ltac:(vm_compute; reflexivity)) as (m & Hm & _ & Hg).
  exists m. split.
  - rewrite <- Hm. vm_compute. reflexivity.
  - rewrite (Hg (B "a")). vm_compute. reflexivity.
Defined.

(* ================================================================== *)
(** * Numbers inside a text *)

Lemma parseNumber_exp_then (ep : option (bool * exp_sign * bytes))
    (pre rest : bytes) (fl : Z) :
  exp_ok ep = true ->
  stops strconv.is_digit rest -> stops is_e rest ->
  parseNumber_exp (scan_at pre (exp_text ep ++ rest) fl)
  = (true, scan_at (pre ++ exp_text ep) rest fl).
Proof.
  intros Hep Hd He. unfold parseNumber_exp.
  destruct ep as [[[capital sg] ds]|]; cbn [exp_text].
  - simpl in Hep. apply andb_prop in Hep as [Hne Hds].
    cbn [app].
    assert (skip_e (scan_at pre ((if capital then "E"%byte else "e"%byte)
                                 :: (sign_text sg ++ ds) ++ rest) fl)
            = (true, scan_at (pre ++ [if capital then "E"%byte else "e"%byte])
                             ((sign_text sg ++ ds) ++ rest) fl)) as ->.
    { unfold skip_e. destruct capital.
      - rewrite skipByte_at. change (Byte.eqb "E" "e") with false. cbv iota.
        apply skipByte_hit.
      - now rewrite skipByte_hit. }
    assert (Hd0 : forall c, strconv.is_digit c = true ->
                            Byte.eqb c "+" = false /\ Byte.eqb c "-" = false).
    { intros c Hc; split; apply is_digit_not with (1 := Hc); reflexivity. }
    assert (forall p,
      (let '(plus, s) := skipByte "+" (scan_at p ((sign_text sg ++ ds) ++ rest) fl) in
       if negb plus then snd (skipByte "-" s) else s)
      = scan_at (p ++ sign_text sg) (ds ++ rest) fl) as Hsign.
    { intros p. destruct sg; cbn [sign_text app].
      - destruct ds as [|c ds']; [discriminate Hne|].
        apply andb_prop in Hds as [Hc _]. destruct (Hd0 c Hc) as [Hp Hm].
        cbn [app]. rewrite skipByte_at, Hp. cbn [negb]. rewrite skipByte_at, Hm.
        now rewrite app_nil_r.
      - now rewrite skipByte_hit.
      - rewrite skipByte_at. change (Byte.eqb "-" "+") with false. cbv iota.
        cbn [negb]. now rewrite skipByte_hit. }
    specialize (Hsign (pre ++ [if capital then "E"%byte else "e"%byte])).
    destruct (skipByte "+" _) as [plus s1]. rewrite Hsign.
    rewrite skipDecimalDigits_run, Hne by assumption.
    cbn [negb]. rewrite skip_e_miss by exact He.
    f_equal. f_equal. list_eq.
  - cbn [app]. rewrite skip_e_miss by exact He. now rewrite app_nil_r.
Qed.

Lemma stops_app (p : byte -> bool) (a r : bytes) :
  stops p a -> (a = [] -> stops p r) -> stops p (a ++ r).
Proof. destruct a as [|c a]; cbn; auto. Qed.

Lemma exp_text_stops_then (p : byte -> bool) (ep : option (bool * exp_sign * bytes))
    (rest : bytes) :
  p "e"%byte = false -> p "E"%byte = false ->
  (ep = None -> stops p rest) -> stops p (exp_text ep ++ rest).
Proof.
  intros H1 H2 Hr. destruct ep as [[[[] sg] ds]|]; cbn [exp_text app stops]; auto.
Qed.

(** A literal, followed by what does not continue it. *)
Lemma parseNumber_literal_then (l : number_literal) (pre rest : bytes) (fl : Z) :
  literal_ok l = true -> ends_literal l rest ->
  parseNumber (scan_at pre (literal_text l ++ rest) fl)
  = (literal_result l, scan_at (pre ++ literal_text l) rest fl).
Proof.
  intros Hok (Hd & He & Hdot). pose proof (ParseFloat_literal l Hok) as HPF.
  destruct l as [minus ip fp ep]. unfold literal_ok in Hok.
  cbn [lit_minus lit_int lit_frac lit_exp] in Hok, Hdot.
  apply andb_prop in Hok as [H Hep]. apply andb_prop in H as [Hip Hfp].
  destruct (int_ok_digits ip Hip) as (_ & c & ds & Eip & Hc).
  unfold parseNumber.
  change (cur (scan_at pre (literal_text (mkLiteral minus ip fp ep) ++ rest) fl))
    with (length pre).
  assert (snd (skipByte "-" (scan_at pre (literal_text (mkLiteral minus ip fp ep) ++ rest) fl))
          = scan_at (pre ++ (if minus then ["-"%byte] else []))
                    (ip ++ frac_text fp ++ exp_text ep ++ rest) fl) as ->.
  { unfold literal_text. cbn [lit_minus lit_int lit_frac lit_exp].
    rewrite <- !app_assoc.
    destruct minus; cbn [app].
    - now rewrite skipByte_hit.
    - rewrite Eip. cbn [app]. rewrite skipByte_at.
      rewrite (is_digit_not c "-" Hc) by reflexivity. cbn [snd].
      now rewrite app_nil_r. }
  assert (stops strconv.is_digit (exp_text ep ++ rest)) as S1
    by (apply exp_text_stops_then; auto).
  assert (stops is_dot (exp_text ep ++ rest)) as S2
    by (apply exp_text_stops_then; auto).
  rewrite parseNumber_int_at.
  2: exact Hip.
  2:{ destruct fp; cbn [frac_text app]; [reflexivity | exact S1]. }
  cbn [negb].
  rewrite parseNumber_frac_at by assumption.
  cbn [negb].
  rewrite parseNumber_exp_then by assumption.
  cbn [negb].
  change (cur (scan_at ?p ?s ?f)) with (length p).
  change (data (scan_at ?p ?s ?f)) with (p ++ s).
  assert ((((pre ++ (if minus then ["-"%byte] else [])) ++ ip) ++ frac_text fp)
          ++ exp_text ep = pre ++ literal_text (mkLiteral minus ip fp ep)) as Etext.
  { unfold literal_text. cbn [lit_minus lit_int lit_frac lit_exp].
    now rewrite <- !app_assoc. }
  rewrite Etext.
  replace (slice ((pre ++ literal_text (mkLiteral minus ip fp ep)) ++ rest)
                 (length pre) (length (pre ++ literal_text (mkLiteral minus ip fp ep))))
    with (literal_text (mkLiteral minus ip fp ep)).
  2:{ rewrite <- app_assoc, length_app. now rewrite slice_app_mid. }
  rewrite HPF. unfold literal_result.
  destruct (literal_float (mkLiteral minus ip fp ep)); reflexivity.
Qed.

(** ** What [parseNumber] has consumed when it does not reject *)

Lemma span_digits_facts (suf : bytes) :
  all_digits (fst (span strconv.is_digit suf)) = true
  /\ stops strconv.is_digit (snd (span strconv.is_digit suf))
  /\ fst (span strconv.is_digit suf) ++ snd (span strconv.is_digit suf) = suf.
Proof.
  split; [|split].
  - unfold all_digits. apply forallb_forall. apply Forall_forall. apply span_all.
  - apply span_stop.
  - apply span_app.
Qed.

Lemma parseNumber_int_inv (p suf : bytes) (fl : Z) (s' : Scanner) :
  parseNumber_int (scan_at p suf fl) = (true, s') ->
  exists ip r,
    int_ok ip = true /\ suf = ip ++ r /\ s' = scan_at (p ++ ip) r fl
    /\ stops strconv.is_digit r.
Proof.
  unfold parseNumber_int. destruct suf as [|c suf].
  - rewrite skipByte_at_end.
    change (length (data (scan_at p [] fl)) <=? cur (scan_at p [] fl))
      with (IsEOF (scan_at p [] fl)).
    rewrite IsEOF_at. cbn [orb]. discriminate.
  - rewrite skipByte_at. destruct (Byte.eqb c "0") eqn:E0.
    + apply byte_eqb_eq in E0. subst c.
      destruct suf as [|x suf].
      * rewrite isDecimalDigit_at_end. intros H. injection H as <-.
        exists ["0"%byte], []. repeat split.
      * rewrite isDecimalDigit_at. destruct (strconv.is_digit x) eqn:Ex; [discriminate|].
        intros H. injection H as <-.
        exists ["0"%byte], (x :: suf). repeat split. exact Ex.
    + change (length (data (scan_at p (c :: suf) fl)) <=? cur (scan_at p (c :: suf) fl))
        with (IsEOF (scan_at p (c :: suf) fl)).
      rewrite IsEOF_at.
      change (cur (scan_at p (c :: suf) fl)) with (length p).
      change (data (scan_at p (c :: suf) fl)) with (p ++ c :: suf).
      rewrite index_app_here. cbn [orb].
      destruct (byte_ltb c "1") eqn:L1; [discriminate|].
      destruct (byte_ltb "9" c) eqn:L9; [discriminate|]. cbn [orb].
      rewrite scan_at_step, skipDecimalDigits_at. cbn [snd].
      intros H. injection H as <-.
      destruct (span_digits_facts suf) as (Hall & Hstop & Happ).
      remember (fst (span strconv.is_digit suf)) as ds0 eqn:Eds0.
      remember (snd (span strconv.is_digit suf)) as tail eqn:Etail.
      clear Eds0 Etail. subst suf.
      exists (c :: ds0), tail.
      assert (strconv.is_digit c = true) as Hc
        by (destruct c; try discriminate L1; try discriminate L9; reflexivity).
      split; [|split; [|split]].
      * cbn [int_ok]. now rewrite E0, Hc, Hall.
      * reflexivity.
      * f_equal. list_eq.
      * exact Hstop.
Qed.

Lemma stops_dot_miss (r : bytes) (p : bytes) (fl : Z) (b : bool) (s' : Scanner) :
  skipByte "." (scan_at p r fl) = (false, s') -> stops is_dot r /\ s' = scan_at p r fl.
Proof.
  destruct r as [|c r].
  - rewrite skipByte_at_end. intros H. injection H as <-. now split.
  - rewrite skipByte_at. unfold is_dot. cbn [stops].
    destruct (Byte.eqb c "."); [discriminate|]. intros H. injection H as <-. now split.
Qed.

Lemma skipByte_hit_inv (b : byte) (r p : bytes) (fl : Z) (s' : Scanner) :
  skipByte b (scan_at p r fl) = (true, s') ->
  exists r', r = b :: r' /\ s' = scan_at (p ++ [b]) r' fl.
Proof.
  destruct r as [|c r].
  - rewrite skipByte_at_end. discriminate.
  - rewrite skipByte_at. destruct (Byte.eqb c b) eqn:E; [|discriminate].
    apply byte_eqb_eq in E. subst c. intros H. injection H as <-. now exists r.
Qed.

Lemma skipByte_miss_inv (b : byte) (r p : bytes) (fl : Z) (s' : Scanner) :
  skipByte b (scan_at p r fl) = (false, s') ->
  stops (fun c => Byte.eqb c b) r /\ s' = scan_at p r fl.
Proof.
  destruct r as [|c r].
  - rewrite skipByte_at_end. intros H. injection H as <-. now split.
  - rewrite skipByte_at. cbn [stops].
    destruct (Byte.eqb c b); [discriminate|]. intros H. injection H as <-. now split.
Qed.

Lemma parseNumber_frac_inv (p suf : bytes) (fl : Z) (s' : Scanner) :
  parseNumber_frac (scan_at p suf fl) = (true, s') ->
  exists fp r,
    frac_ok fp = true /\ suf = frac_text fp ++ r /\ s' = scan_at (p ++ frac_text fp) r fl
    /\ stops is_dot r /\ (fp <> None -> stops strconv.is_digit r).
Proof.
  unfold parseNumber_frac.
  destruct (skipByte "." (scan_at p suf fl)) as [[|] s1] eqn:E1.
  - apply skipByte_hit_inv in E1 as (r1 & -> & ->).
    rewrite skipDecimalDigits_at.
    destruct (span_digits_facts r1) as (Hall & Hstop & Happ).
    remember (fst (span strconv.is_digit r1)) as ds0 eqn:Eds0.
    remember (snd (span strconv.is_digit r1)) as tail eqn:Etail.
    clear Eds0 Etail. subst r1.
    destruct ds0 as [|d ds]; cbn [negb]; [discriminate|].
    destruct (skipByte "." _) as [[|] s3] eqn:E3; [discriminate|].
    apply skipByte_miss_inv in E3 as (Hdot & ->).
    intros H. injection H as <-.
    exists (Some (d :: ds)), tail.
    split; [|split; [|split; [|split]]].
    + cbn [frac_ok nonempty]. exact Hall.
    + reflexivity.
    + cbn [frac_text]. f_equal. list_eq.
    + exact Hdot.
    + intros _. exact Hstop.
  - apply skipByte_miss_inv in E1 as (Hdot & ->).
    intros H. injection H as <-.
    exists None, suf. cbn [frac_text app]. rewrite app_nil_r.
    repeat split; [exact Hdot | congruence].
Qed.

Lemma skip_e_inv (p suf : bytes) (fl : Z) (b : bool) (s' : Scanner) :
  skip_e (scan_at p suf fl) = (b, s') ->
  if b then exists (capital : bool) (r : bytes),
              suf = (if capital then "E"%byte else "e"%byte) :: r
              /\ s' = scan_at (p ++ [if capital then "E"%byte else "e"%byte]) r fl
  else stops is_e suf /\ s' = scan_at p suf fl.
Proof.
  unfold skip_e. destruct (skipByte "e" (scan_at p suf fl)) as [[|] s1] eqn:E1.
  - apply skipByte_hit_inv in E1 as (r & -> & ->). intros H. injection H as <- <-.
    exists false, r. now split.
  - apply skipByte_miss_inv in E1 as (H1 & ->).
    destruct b; intros E2.
    + apply skipByte_hit_inv in E2 as (r & -> & ->). exists true, r. now split.
    + apply skipByte_miss_inv in E2 as (H2 & ->). split; [|reflexivity].
      destruct suf as [|c suf]; [exact I|]. cbn [stops] in *. unfold is_e.
      now rewrite H1, H2.
Qed.

Lemma parseNumber_exp_inv (p suf : bytes) (fl : Z) (s' : Scanner) :
  parseNumber_exp (scan_at p suf fl) = (true, s') ->
  exists ep r,
    exp_ok ep = true /\ suf = exp_text ep ++ r /\ s' = scan_at (p ++ exp_text ep) r fl
    /\ stops is_e r /\ (ep <> None -> stops strconv.is_digit r).
Proof.
  unfold parseNumber_exp.
  destruct (skip_e (scan_at p suf fl)) as [[|] s1] eqn:E1; apply skip_e_inv in E1.
  - destruct E1 as (capital & r1 & -> & ->).
    set (p1 := p ++ [if capital then "E"%byte else "e"%byte]).
    assert (exists sg r2, r1 = sign_text sg ++ r2
              /\ (let '(plus, s) := skipByte "+" (scan_at p1 r1 fl) in
                  if negb plus then snd (skipByte "-" s) else s)
                 = scan_at (p1 ++ sign_text sg) r2 fl
              /\ (sg = NoSign -> stops (fun c => Byte.eqb c "+") r2
                                 /\ stops (fun c => Byte.eqb c "-") r2))
      as (sg & r2 & Er1 & Hsign & Hsg).
    { destruct (skipByte "+" (scan_at p1 r1 fl)) as [[|] s2] eqn:E2.
      - apply skipByte_hit_inv in E2 as (r2 & -> & ->).
        exists Plus, r2. cbn [negb sign_text app]. repeat split; discriminate.
      - apply skipByte_miss_inv in E2 as (Hp & ->). cbn [negb].
        destruct (skipByte "-" (scan_at p1 r1 fl)) as [[|] s3] eqn:E3.
        + apply skipByte_hit_inv in E3 as (r2 & -> & ->).
          exists Minus, r2. cbn [sign_text app snd]. repeat split; discriminate.
        + apply skipByte_miss_inv in E3 as (Hm & ->).
          exists NoSign, r1. cbn [sign_text app snd]. rewrite app_nil_r. repeat split; assumption. }
    destruct (skipByte "+" (scan_at p1 r1 fl)) as [plus sx]. rewrite Hsign. subst r1.
    rewrite skipDecimalDigits_at.
    destruct (span_digits_facts r2) as (Hall & Hstop & Happ).
    remember (fst (span strconv.is_digit r2)) as ds0 eqn:Eds0.
    remember (snd (span strconv.is_digit r2)) as tail eqn:Etail.
    clear Eds0 Etail. subst r2.
    destruct ds0 as [|d ds]; cbn [negb]; [discriminate|].
    destruct (skip_e _) as [[|] s5] eqn:E5; [discriminate|].
    apply skip_e_inv in E5 as (He & ->).
    intros H. injection H as <-.
    exists (Some (capital, sg, d :: ds)), tail.
    split; [|split; [|split; [|split]]].
    + cbn [exp_ok nonempty]. exact Hall.
    + cbn [exp_text app]. f_equal. list_eq.
    + cbn [exp_text]. unfold p1. f_equal. list_eq.
    + exact He.
    + intros _. exact Hstop.
  - destruct E1 as (He & ->). intros H. injection H as <-.
    exists None, suf. cbn [exp_text app]. rewrite app_nil_r.
    repeat split; [exact He | congruence].
Qed.

(** Whatever [parseNumber] does not reject as invalid begins with a
    literal of the grammar, which it has consumed and no more. *)
Lemma parseNumber_inv (pre suf : bytes) (fl : Z) (r : Res spec_float) (s' : Scanner) :
  parseNumber (scan_at pre suf fl) = (r, s') ->
  r <> Err ErrInvalidNumber ->
  exists l rest,
    literal_ok l = true /\ suf = literal_text l ++ rest /\ ends_literal l rest
    /\ s' = scan_at (pre ++ literal_text l) rest fl
    /\ r = literal_result l.
Proof.
  intros H Hr.
  assert (exists (minus : bool) (suf1 : bytes),
            suf = (if minus then ["-"%byte] else []) ++ suf1
            /\ snd (skipByte "-" (scan_at pre suf fl))
               = scan_at (pre ++ (if minus then ["-"%byte] else [])) suf1 fl)
    as (minus & suf1 & Esuf & Eminus).
  { destruct (skipByte "-" (scan_at pre suf fl)) as [[|] s1] eqn:E1.
    - apply skipByte_hit_inv in E1 as (r1 & -> & ->). now exists true, r1.
    - apply skipByte_miss_inv in E1 as (_ & ->). exists false, suf.
      cbn [app snd]. now rewrite app_nil_r. }
  unfold parseNumber in H. rewrite Eminus in H.
  set (p0 := pre ++ (if minus then ["-"%byte] else [])) in *.
  destruct (parseNumber_int (scan_at p0 suf1 fl)) as [[|] s1] eqn:E1; cbn [negb] in H;
    [|injection H as <- _; congruence].
  apply parseNumber_int_inv in E1 as (ip & r1 & Hip & -> & -> & Hd1).
  destruct (parseNumber_frac (scan_at (p0 ++ ip) r1 fl)) as [[|] s2] eqn:E2;
    cbn [negb] in H; [|injection H as <- _; congruence].
  apply parseNumber_frac_inv in E2 as (fp & r2 & Hfp & -> & -> & Hdot2 & Hd2).
  destruct (parseNumber_exp (scan_at ((p0 ++ ip) ++ frac_text fp) r2 fl)) as [[|] s3] eqn:E3;
    cbn [negb] in H; [|injection H as <- _; congruence].
  apply parseNumber_exp_inv in E3 as (ep & rest & Hep & -> & -> & He3 & Hd3).
  set (l := mkLiteral minus ip fp ep).
  assert (literal_ok l = true) as Hok.
  { unfold literal_ok, l. cbn [lit_int lit_frac lit_exp]. now rewrite Hip, Hfp, Hep. }
  assert ((((p0 ++ ip) ++ frac_text fp) ++ exp_text ep) = pre ++ literal_text l) as Etext.
  { unfold literal_text, l, p0. cbn [lit_minus lit_int lit_frac lit_exp]. list_eq. }
  assert (suf = literal_text l ++ rest) as Esuf'.
  { rewrite Esuf. unfold literal_text, l. cbn [lit_minus lit_int lit_frac lit_exp]. list_eq. }
  change (cur (scan_at pre suf fl)) with (length pre) in H.
  change (cur (scan_at ?p ?s ?f)) with (length p) in H.
  change (data (scan_at ?p ?s ?f)) with (p ++ s) in H.
  rewrite Etext in H.
  replace (slice ((pre ++ literal_text l) ++ rest)
                 (length pre) (length (pre ++ literal_text l)))
    with (literal_text l) in H
    by (rewrite <- app_assoc, length_app; now rewrite slice_app_mid).
  rewrite (ParseFloat_literal l Hok) in H.
  exists l, rest. split; [exact Hok|]. split; [exact Esuf'|]. split.
  { unfold ends_literal, l. cbn [lit_exp]. split; [|split].
    - destruct ep as [e|]; [apply Hd3; discriminate|].
      cbn [exp_text app] in *.
      destruct fp as [f|]; [apply Hd2; discriminate|].
      cbn [frac_text app] in *. exact Hd1.
    - exact He3.
    - intros ->. cbn [exp_text app] in *. exact Hdot2. }
  unfold literal_result.
  destruct (literal_float l); injection H as <- <-; now split.
Qed.

(** X6.  Wherever it stands in a text, a literal of the JSON number
    grammar is consumed whole and no further, and read as the nearest
    binary64 number (or reported out of range), provided that what follows
    cannot continue it: no digit, no [e] or [E], and no point unless the
    literal has an exponent.  After an exponent a point does end the
    number: of [1e5.3] the scanner reads [1e5] and leaves [.3]. *)
Theorem parseNumber_literal_in_context
    (l : number_literal) (pre rest : bytes) (fl : Z) :
  literal_ok l = true -> ends_literal l rest ->
  parseNumber (scan_at pre (literal_text l ++ rest) fl)
  = (literal_result l, scan_at (pre ++ literal_text l) rest fl).
Proof. apply parseNumber_literal_then. Qed.

Lemma parseNumber_literal_in_context_witness :
  let l := mkLiteral false (B "1") None (Some (false, NoSign, B "5")) in
  literal_ok l = true
  /\ ends_literal l (B ".3]")
  /\ parseNumber (scan_at (B "[") (B "1e5.3]") 0)
     = (Ok (S754_finite false 6871947673600000 (-36)), scan_at (B "[1e5") (B ".3]") 0).
Proof.
  cbv zeta. split; [reflexivity|].
  assert (ends_literal (mkLiteral false (B "1") None (Some (false, NoSign, B "5"))) (B ".3]"))
    as He.
  { split; [reflexivity|]. split; [reflexivity|]. discriminate. }
  split; [exact He|].
  exact (parseNumber_literal_in_context
           (mkLiteral false (B "1") None (Some (false, NoSign, B "5")))
           (B "[") (B ".3]") 0 eq_refl He).
Defined.

(** X7.  [parseNumber] returns [ErrInvalidNumber] exactly for the inputs
    that do not begin with a literal of the JSON number grammar followed by
    something that cannot continue it.  So a leading zero before a digit, a
    sign or a point with no digit, a second point after a fraction and a
    second exponent are all rejected, and nothing but a literal of the
    grammar is ever accepted. *)
Theorem parseNumber_invalid_iff (pre suf : bytes) (fl : Z) :
  fst (parseNumber (scan_at pre suf fl)) = Err ErrInvalidNumber
  <-> ~ exists l rest,
        literal_ok l = true /\ suf = literal_text l ++ rest /\ ends_literal l rest.
Proof.
  split.
  - intros H (l & rest & Hok & -> & He).
    rewrite (parseNumber_literal_then l pre rest fl Hok He) in H. cbn [fst] in H.
    unfold literal_result in H. destruct (literal_float l); discriminate H.
  - intros Hn. destruct (parseNumber (scan_at pre suf fl)) as [r s'] eqn:E. cbn [fst].
    assert (r = Err ErrInvalidNumber \/ r <> Err ErrInvalidNumber) as [Hr | Hr].
    { destruct r as [f|e]; [right; discriminate|].
      destruct e; try (right; discriminate). now left. }
    + exact Hr.
    + exfalso. apply Hn.
      destruct (parseNumber_inv pre suf fl r s' E Hr) as (l & rest & Hok & Es & He & _).
      now exists l, rest.
Qed.

(* ================================================================== *)
(** * Strings: every escape, and every way to go wrong *)

Lemma slow_prefix (pfx str : bytes) :
  string_body pfx str ->
  forall (fuel : nat) (buf pre suf : bytes) (fl : Z),
  exists fuel',
    fuel <= fuel'
    /\ parseString_slow (length pfx + fuel) buf (scan_at pre (pfx ++ suf) fl)
       = parseString_slow fuel' (buf ++ str) (scan_at (pre ++ pfx) suf fl).
Proof.
  induction 1 as [|c t s Hc _ IH|c x t s Hc _ IH|h t s Hh _ IH];
    intros fuel buf pre suf fl.
  - exists fuel. split; [lia|]. cbn [length app Nat.add]. now rewrite !app_nil_r.
  - destruct (IH fuel (buf ++ [c]) (pre ++ [c]) suf fl) as (fuel' & Hf & E).
    exists fuel'. split; [exact Hf|].
    cbn [length app Nat.add]. rewrite parseString_slow_plain by exact Hc.
    rewrite E. f_equal; [list_eq | f_equal; list_eq].
  - destruct (IH (S fuel) (buf ++ [x]) (pre ++ ["\"%byte; c]) suf fl) as (fuel' & Hf & E).
    exists fuel'. split; [lia|].
    cbn [length app]. replace (S (S (length t)) + fuel) with (S (length t + S fuel)) by lia.
    rewrite parseString_slow_two.
    assert (parseString_slow (length t + S fuel) (buf ++ [x])
              (scan_at (pre ++ ["\"%byte; c]) (t ++ suf) fl)
            = parseString_slow fuel' ((buf ++ [x]) ++ s)
                (scan_at ((pre ++ ["\"%byte; c]) ++ t) suf fl)) as E' by exact E.
    replace ((buf ++ [x]) ++ s) with (buf ++ x :: s) in E' by list_eq.
    replace ((pre ++ ["\"%byte; c]) ++ t) with (pre ++ "\"%byte :: c :: t) in E' by list_eq.
    destruct c; try discriminate Hc; injection Hc as <-; exact E'.
  - destruct (IH (5 + fuel) (buf ++ utf8.string_of_rune (code_unit h))
                 (pre ++ "\"%byte :: "u"%byte :: h) suf fl) as (fuel' & Hf & E).
    exists fuel'. split; [lia|].
    pose proof (is_hex4_length h Hh) as Hl.
    cbn [length app]. rewrite length_app, Hl.
    replace (S (S (4 + length t)) + fuel) with (S (length t + (5 + fuel))) by lia.
    rewrite <- app_assoc.
    rewrite parseString_slow_unicode by exact Hh.
    rewrite E. f_equal; [list_eq | f_equal; list_eq].
Qed.

Lemma string_body_shape (pfx str : bytes) :
  string_body pfx str ->
  (Forall (fun x => is_plain x = true) pfx /\ str = pfx)
  \/ (exists pl q, Forall (fun x => is_plain x = true) pl /\ pfx = pl ++ "\"%byte :: q).
Proof.
  induction 1 as [|c t s Hc _ IH|c x t s Hc _ IH|h t s Hh _ IH].
  - left. now split.
  - destruct IH as [[Hp ->] | (pl & q & Hp & ->)].
    + left. split; [now constructor | reflexivity].
    + right. exists (c :: pl), q. split; [now constructor | reflexivity].
  - right. exists [], (c :: t). split; [constructor | reflexivity].
  - right. exists [], ("u"%byte :: h ++ t). split; [constructor | reflexivity].
Qed.

(** Where a backslash comes before any quote or control byte, the result
    is that of the escape-aware loop, run from the start of the string. *)
Lemma parseString_via_slow (pre pl q : bytes) (fl : Z) :
  Forall (fun x => is_plain x = true) pl ->
  parseString (scan_at pre (x22 :: pl ++ "\"%byte :: q) fl)
  = parseString_slow (length (pl ++ "\"%byte :: q)) []
      (scan_at (pre ++ [x22]) (pl ++ "\"%byte :: q) fl).
Proof.
  intros Hp. unfold parseString. rewrite peek_at.
  change (Byte.eqb x22 x22) with true. cbn [negb].
  replace (set_cur _ _) with (scan_at (pre ++ [x22]) (pl ++ "\"%byte :: q) fl)
    by (symmetry; apply scan_at_step).
  rewrite remaining_at.
  change (cur (scan_at (pre ++ [x22]) (pl ++ "\"%byte :: q) fl))
    with (length (pre ++ [x22])).
  rewrite length_app. rewrite parseString_fast_plain by exact Hp.
  cbn [length parseString_fast].
  change (cur (scan_at ?p ?s ?f)) with (length p).
  change (data (scan_at ?p ?s ?f)) with (p ++ s).
  rewrite lt_test_at, index_app_here.
  change (byte_leb "\" x1f) with false. change (Byte.eqb "\" "\") with true.
  cbv iota.
  replace (set_cur _ (length (pre ++ [x22])))
    with (scan_at (pre ++ [x22]) (pl ++ "\"%byte :: q) fl).
  2:{ unfold set_cur, scan_at. cbn [data cur flags]. f_equal. list_eq. }
  rewrite remaining_at, length_app. reflexivity.
Qed.

Lemma parseString_plain_quote (pre pl rest : bytes) (fl : Z) :
  Forall (fun x => is_plain x = true) pl ->
  parseString (scan_at pre (x22 :: pl ++ x22 :: rest) fl)
  = (Ok pl, scan_at (pre ++ x22 :: pl ++ [x22]) rest fl).
Proof.
  intros Hp. unfold parseString. rewrite peek_at.
  change (Byte.eqb x22 x22) with true. cbn [negb].
  replace (set_cur _ _) with (scan_at (pre ++ [x22]) (pl ++ x22 :: rest) fl)
    by (symmetry; apply scan_at_step).
  rewrite remaining_at.
  change (cur (scan_at (pre ++ [x22]) (pl ++ x22 :: rest) fl))
    with (length (pre ++ [x22])).
  rewrite length_app. rewrite parseString_fast_plain by exact Hp.
  cbn [length parseString_fast].
  change (cur (scan_at ?p ?s ?f)) with (length p).
  change (data (scan_at ?p ?s ?f)) with (p ++ s).
  rewrite lt_test_at, index_app_here.
  change (byte_leb x22 x1f) with false. change (Byte.eqb x22 "\") with false.
  change (Byte.eqb x22 x22) with true. cbv iota.
  rewrite scan_at_step.
  replace (slice (((pre ++ [x22]) ++ pl) ++ x22 :: rest) (length (pre ++ [x22]))
                 (length ((pre ++ [x22]) ++ pl)))
    with pl.
  2:{ rewrite <- app_assoc, (length_app (pre ++ [x22]) pl). now rewrite slice_app_mid. }
  f_equal. f_equal. list_eq.
Qed.

Lemma parseString_plain_stop (pre pl tail : bytes) (fl : Z) :
  Forall (fun x => is_plain x = true) pl ->
  match tail with [] => True | c :: _ => byte_leb c x1f = true end ->
  fst (parseString (scan_at pre (x22 :: pl ++ tail) fl)) = Err ErrInvalidString.
Proof.
  intros Hp Ht. unfold parseString. rewrite peek_at.
  change (Byte.eqb x22 x22) with true. cbn [negb].
  replace (set_cur _ _) with (scan_at (pre ++ [x22]) (pl ++ tail) fl)
    by (symmetry; apply scan_at_step).
  rewrite remaining_at.
  change (cur (scan_at (pre ++ [x22]) (pl ++ tail) fl)) with (length (pre ++ [x22])).
  rewrite length_app. rewrite parseString_fast_plain by exact Hp.
  destruct tail as [|c r].
  - reflexivity.
  - cbn [length parseString_fast].
    change (cur (scan_at ?p ?s ?f)) with (length p).
    change (data (scan_at ?p ?s ?f)) with (p ++ s).
    rewrite lt_test_at, index_app_here, Ht. reflexivity.
Qed.

Lemma parseString_reads (body str pre rest : bytes) (fl : Z) :
  string_body body str ->
  parseString (scan_at pre (x22 :: body ++ x22 :: rest) fl)
  = (Ok str, scan_at (pre ++ x22 :: body ++ [x22]) rest fl).
Proof.
  intros Hb. destruct (string_body_shape body str Hb) as [[Hp ->] | (pl & q & Hp & Eb)].
  - now apply parseString_plain_quote.
  - pose proof (parseString_via_slow pre pl (q ++ x22 :: rest) fl Hp) as E.
    replace (pl ++ "\"%byte :: q ++ x22 :: rest) with (body ++ x22 :: rest) in E
      by (rewrite Eb; list_eq).
    rewrite E. rewrite length_app. cbn [length].
    destruct (slow_prefix body str Hb (S (length rest)) [] (pre ++ [x22]) (x22 :: rest) fl)
      as (fuel' & Hf & ->).
    destruct fuel' as [|fuel']; [lia|].
    cbn [parseString_slow app]. rewrite next_at.
    change (Byte.eqb x22 x00) with false. change (byte_leb x22 x1f) with false.
    change (Byte.eqb x22 x22) with true. cbv iota.
    f_equal. f_equal. list_eq.
Qed.

Lemma is_hex4_not (h : bytes) :
  length h = 4 -> is_hex4 h = false -> strconv.ParseUint_16_16 h = None.
Proof.
  intros Hl Hh. unfold is_hex4 in Hh. rewrite Hl in Hh. cbn [Nat.eqb andb] in Hh.
  destruct h as [|a [|b [|c [|d [|? ?]]]]]; try discriminate Hl.
  cbn [forallb] in Hh. unfold is_hex_digit in Hh.
  unfold strconv.ParseUint_16_16. cbn [strconv.hex_acc].
  destruct (strconv.hex_val a); [|reflexivity].
  destruct (strconv.hex_val b); [|reflexivity].
  destruct (strconv.hex_val c); [|reflexivity].
  destruct (strconv.hex_val d); [|reflexivity].
  discriminate Hh.
Qed.

Lemma parseUnicode_short (pre r : bytes) (fl : Z) :
  length r < 4 ->
  parseUnicode (scan_at pre r fl) = (Err ErrInvalidUnicodeEscape, scan_at pre r fl).
Proof.
  intros Hl. unfold parseUnicode.
  change (cur (scan_at pre r fl)) with (length pre).
  change (data (scan_at pre r fl)) with (pre ++ r).
  replace (length (pre ++ r) <? length pre + 4) with true
    by (symmetry; apply Nat.ltb_lt; rewrite length_app; lia).
  reflexivity.
Qed.

(** One round of the escape-aware loop on what cannot go on a string. *)
Lemma slow_bad_tail (tail : bytes) (e : error) :
  bad_tail tail e ->
  forall (fuel : nat) (buf pre : bytes) (fl : Z),
  length tail <= fuel ->
  fst (parseString_slow fuel buf (scan_at pre tail fl)) = Err e.
Proof.
  intros Hb fuel buf pre fl Hf.
  destruct Hb as [|c r Hc| |c r Hc Hu|r Hl|h r Hl Hh].
  - destruct fuel as [|fuel]; [reflexivity|].
    cbn [parseString_slow]. now rewrite next_at_end.
  - destruct fuel as [|fuel]; [cbn [length] in Hf; lia|].
    cbn [parseString_slow]. rewrite next_at.
    destruct (Byte.eqb c x00); [reflexivity|]. now rewrite Hc.
  - destruct fuel as [|fuel]; [cbn [length] in Hf; lia|].
    cbn [parseString_slow]. rewrite next_at.
    change (Byte.eqb "\" x00) with false. change (byte_leb "\" x1f) with false.
    change (Byte.eqb "\" x22) with false. change (Byte.eqb "\" "\") with true.
    cbv iota.
    change (length (data ?s) <=? cur ?s) with (IsEOF s).
    now rewrite IsEOF_at.
  - destruct fuel as [|fuel]; [cbn [length] in Hf; lia|].
    rewrite parseString_slow_two.
    destruct c; try discriminate Hc; try reflexivity. now contradiction Hu.
  - destruct fuel as [|fuel]; [cbn [length] in Hf; lia|].
    rewrite parseString_slow_two. now rewrite parseUnicode_short.
  - destruct fuel as [|fuel]; [cbn [length] in Hf; lia|].
    rewrite parseString_slow_two. rewrite parseUnicode_at by exact Hl.
    now rewrite (is_hex4_not h Hl Hh).
Qed.

Lemma bad_tail_head (tail : bytes) (e : error) :
  bad_tail tail e ->
  (e = ErrInvalidString
   /\ match tail with [] => True | c :: _ => byte_leb c x1f = true end)
  \/ exists q, tail = "\"%byte :: q.
Proof.
  intros [|c r Hc| |c r Hc Hu|r Hl|h r Hl Hh]; eauto.
Qed.

Lemma parseString_fails (pfx str tail pre : bytes) (e : error) (fl : Z) :
  string_body pfx str -> bad_tail tail e ->
  fst (parseString (scan_at pre (x22 :: pfx ++ tail) fl)) = Err e.
Proof.
  intros Hb Ht.
  assert (forall pl q, Forall (fun x => is_plain x = true) pl ->
                       pfx ++ tail = pl ++ "\"%byte :: q ->
                       fst (parseString (scan_at pre (x22 :: pfx ++ tail) fl)) = Err e)
    as Hslow.
  { intros pl q Hp E. rewrite E, parseString_via_slow by exact Hp. rewrite <- E.
    rewrite length_app.
    destruct (slow_prefix pfx str Hb (length tail) [] (pre ++ [x22]) tail fl)
      as (fuel' & Hf & ->).
    now apply slow_bad_tail. }
  destruct (string_body_shape pfx str Hb) as [[Hp ->] | (pl & q & Hp & Eb)].
  - destruct (bad_tail_head tail e Ht) as [[-> Hh] | (q & ->)].
    + now apply parseString_plain_stop.
    + now apply (Hslow pfx q).
  - apply (Hslow pl (q ++ tail)); [exact Hp|]. rewrite Eb. list_eq.
Qed.

(** X8.  [parseString] reads every well-formed string, wherever it stands:
    bytes from 0x20 on stand for themselves (they are not checked to be
    UTF-8), the escapes for the quote, the backslash, the solidus, [b], [f],
    [n], [r] and [t] for their byte, and each [\uXXXX], in either case of
    the digits, for the UTF-8 form of that one code unit.  The cursor is
    left right after the closing quote. *)
Theorem parseString_reads_every_escape (body str pre rest : bytes) (fl : Z) :
  string_body body str ->
  parseString (scan_at pre (x22 :: body ++ x22 :: rest) fl)
  = (Ok str, scan_at (pre ++ x22 :: body ++ [x22]) rest fl).
Proof. apply parseString_reads. Qed.

Lemma parseString_reads_every_escape_witness :
  let body := B "a\/\n" ++ "\"%byte :: "u"%byte :: B "00E9"
              ++ "\"%byte :: "u"%byte :: B "00e9" ++ B "\\" in
  let str := "a"%byte :: "/"%byte :: x0a :: xc3 :: xa9 :: xc3 :: xa9 :: ["\"%byte] in
  string_body body str
  /\ parseString (scan_at [] (x22 :: body ++ x22 :: B ",") 0)
     = (Ok str, scan_at (x22 :: body ++ [x22]) (B ",") 0).
Proof.
  cbv zeta.
  assert (string_body (B "a\/\n" ++ "\"%byte :: "u"%byte :: B "00E9"
                       ++ "\"%byte :: "u"%byte :: B "00e9" ++ B "\\")
            ("a"%byte :: "/"%byte :: x0a :: xc3 :: xa9 :: xc3 :: xa9 :: ["\"%byte])) as Hb.
  { apply body_plain; [reflexivity|].
    apply (body_escape "/" "/"); [reflexivity|].
    apply (body_escape "n" x0a); [reflexivity|].
    apply (body_unicode (B "00E9") ("\"%byte :: "u"%byte :: B "00e9" ++ B "\\")
             [xc3; xa9; "\"%byte]); [reflexivity|].
    apply (body_unicode (B "00e9") (B "\\") ["\"%byte]); [reflexivity|].
    apply (body_escape "\" "\"); [reflexivity|].
    apply body_end. }
  split; [exact Hb|].
  exact (parseString_reads_every_escape _ _ [] (B ",") 0 Hb).
Defined.

(** X9.  After the opening quote and any well-formed beginning, [parseString]
    fails with [ErrInvalidString] at the end of the input (a string that is
    not closed), at a control byte that is not escaped, and at a backslash
    that no escape letter follows; it fails with [ErrInvalidUnicodeEscape]
    at [\u] before fewer than four bytes or before four bytes that are not
    all hexadecimal digits. *)
Theorem parseString_rejects (pfx str tail pre : bytes) (e : error) (fl : Z) :
  string_body pfx str -> bad_tail tail e ->
  fst (parseString (scan_at pre (x22 :: pfx ++ tail) fl)) = Err e.
Proof. apply parseString_fails. Qed.

Lemma parseString_rejects_witness :
  string_body (B "a\n") ["a"%byte; x0a]
  /\ bad_tail (("\"%byte :: "u"%byte :: B "12G4")) ErrInvalidUnicodeEscape
  /\ fst (parseString (scan_at [] (x22 :: B "a\n" ++ ("\"%byte :: "u"%byte :: B "12G4")) 0))
     = Err ErrInvalidUnicodeEscape
  /\ bad_tail (x09 :: B "b") ErrInvalidString
  /\ fst (parseString (scan_at [] (x22 :: B "a\n" ++ x09 :: B "b") 0))
     = Err ErrInvalidString.
Proof.
  assert (string_body (B "a\n") ["a"%byte; x0a]) as Hb.
  { apply body_plain; [reflexivity|].
    apply (body_escape "n" x0a); [reflexivity | apply body_end]. }
  assert (bad_tail (("\"%byte :: "u"%byte :: B "12G4")) ErrInvalidUnicodeEscape) as H1.
  { apply (bad_unicode_digits (B "12G4") []); reflexivity. }
  assert (bad_tail (x09 :: B "b") ErrInvalidString) as H2.
  { apply bad_control. reflexivity. }
  split; [exact Hb|]. split; [exact H1|].
  split; [exact (parseString_rejects _ _ _ [] _ 0 Hb H1)|].
  split; [exact H2|].
  exact (parseString_rejects _ _ _ [] _ 0 Hb H2).
Defined.

(* ================================================================== *)
(** * Around a value: byte order mark, whitespace, what follows *)

Lemma ReadValue_of_fuel (fuel : nat) (s : Scanner) (r : Res GoValue * Scanner) :
  ReadValue_fuel fuel s = Some r -> ReadValue s = r.
Proof.
  intros H.
  pose proof (ReadValue_fuel_mono fuel (fuel + S (remaining s)) s r ltac:(lia) H) as H1.
  rewrite ReadValue_fuel_any in H1 by lia. now injection H1.
Qed.

(** A number that prints back is read back before anything that does not
    continue it. *)
Lemma parseNumber_prints_back_then (f : spec_float) (pre rest : bytes) (fl : Z) :
  float_prints_back f = true -> ends_value rest ->
  parseNumber (scan_at pre (strconv.FormatFloat_g f 6 ++ rest) fl)
  = (Ok f, scan_at (pre ++ strconv.FormatFloat_g f 6) rest fl).
Proof.
  intros Hf (Hd & He & Hdot). unfold float_prints_back in Hf.
  apply andb_prop in Hf as [_ Hf].
  destruct (parseNumber (scan_at [] (strconv.FormatFloat_g f 6) 0)) as [[f'|e] s1] eqn:E;
    [|discriminate Hf].
  apply andb_prop in Hf as [Hf Hc].
  apply spec_float_eqb_eq in Hf. subst f'. apply Nat.eqb_eq in Hc.
  destruct (parseNumber_inv [] (strconv.FormatFloat_g f 6) 0 (Ok f) s1 E ltac:(discriminate))
    as (l & rest0 & Hok & Et & _ & -> & Hr).
  change (cur (scan_at ?p ?q ?g)) with (length p) in Hc.
  assert (rest0 = []) as ->.
  { apply length_zero_iff_nil. cbn [app] in Hc. rewrite Et, length_app in Hc. lia. }
  rewrite app_nil_r in Et. rewrite Et.
  rewrite (parseNumber_literal_then l pre rest fl Hok); [now rewrite <- Hr|].
  split; [exact Hd|]. split; [exact He|]. intros _. exact Hdot.
Qed.

Lemma ReadValue_text (v : GoValue) (pre rest : bytes) (fl : Z) :
  json_ok v = true -> ends_value rest ->
  ReadValue (scan_at pre (json_text v ++ rest) fl)
  = (Ok (canon v), scan_at (pre ++ json_text v) rest fl).
Proof.
  intros Hok He.
  destruct v as [ | |?|?|b|?|?|f|s|?|elems|pairs|?|? ?|?|? ?|? ? ?|?];
    try discriminate Hok.
  - apply (ReadValue_of_fuel 1). cbn [json_text canon ReadValue_fuel].
    change (B "null" ++ rest) with ("n"%byte :: B "ull" ++ rest).
    rewrite skipWhitespace_none by reflexivity.
    rewrite IsEOF_at, peek_at. cbv iota.
    change ("n"%byte :: B "ull" ++ rest) with (B "null" ++ rest).
    now rewrite skipSequence_at.
  - apply (ReadValue_of_fuel 1). cbn [json_text canon ReadValue_fuel]. destruct b.
    + change (B "true" ++ rest) with ("t"%byte :: B "rue" ++ rest).
      rewrite skipWhitespace_none by reflexivity.
      rewrite IsEOF_at, peek_at. cbv iota.
      change ("t"%byte :: B "rue" ++ rest) with (B "true" ++ rest).
      now rewrite skipSequence_at.
    + change (B "false" ++ rest) with ("f"%byte :: B "alse" ++ rest).
      rewrite skipWhitespace_none by reflexivity.
      rewrite IsEOF_at, peek_at. cbv iota.
      change ("f"%byte :: B "alse" ++ rest) with (B "false" ++ rest).
      now rewrite skipSequence_at.
  - apply (ReadValue_of_fuel 1). cbn [json_ok] in Hok. cbn [json_text canon].
    assert (exists c t, strconv.FormatFloat_g f 6 = c :: t
                        /\ (c = "-"%byte \/ strconv.is_digit c = true))
      as (c & t & Et & Hc).
    { pose proof Hok as Hok'. unfold float_prints_back in Hok'.
      apply andb_prop in Hok' as [_ Hok'].
      destruct (parseNumber (scan_at [] (strconv.FormatFloat_g f 6) 0))
        as [[f'|e] s'] eqn:E; [|discriminate Hok'].
      apply (parseNumber_ok_head (strconv.FormatFloat_g f 6) 0 f'). now rewrite E. }
    assert (ReadValue_fuel 1 (scan_at pre (strconv.FormatFloat_g f 6 ++ rest) fl)
            = match parseNumber (scan_at pre (strconv.FormatFloat_g f 6 ++ rest) fl) with
              | (Ok f, s) => Some (Ok (GoFloat f), s)
              | (Err e, s) => Some (Err e, s)
              end) as ->.
    { rewrite Et. cbn [app]. now apply ReadValue_fuel_number. }
    now rewrite parseNumber_prints_back_then.
  - apply (ReadValue_of_fuel 1). cbn [json_text canon ReadValue_fuel].
    replace (quoted s ++ rest) with (x22 :: escape s ++ x22 :: rest)
      by (unfold quoted; list_eq).
    rewrite skipWhitespace_none by reflexivity.
    rewrite IsEOF_at, peek_at. cbv iota.
    now rewrite parseString_quoted'.
  - cbn [json_ok] in Hok. rewrite forallb_forall in Hok.
    pose proof (array_text_length elems) as [L1 L2].
    apply (ReadValue_of_fuel (S (length (array_text (map json_text elems))))).
    cbn [json_text canon]. apply ReadValue_array_text; [|lia].
    rewrite Forall_forall. intros x Hx. split; [now apply Hok|].
    apply ReadValue_reads_back; [now apply Hok|]. specialize (L2 x Hx). lia.
  - cbn [json_ok] in Hok. apply andb_prop in Hok as [Hn Hok].
    apply nodup_keys_NoDup in Hn. rewrite forallb_forall in Hok.
    cbn [json_text]. rewrite (sort_map_snd json_text).
    fold (members_text (sort.Slice (@pair_less _) pairs)).
    pose proof (members_text_length (sort.Slice (@pair_less _) pairs)) as [L1 L2].
    assert (forall kv, In kv (sort.Slice (@pair_less _) pairs) -> In kv pairs) as Hin.
    { intros kv. apply Permutation_in, sort_perm. }
    apply (ReadValue_of_fuel
             (S (length (members_text (sort.Slice (@pair_less _) pairs))))).
    rewrite ReadValue_object_text.
    + cbn [canon]. rewrite (sort_map_snd canon).
      rewrite set_members_distinct; [reflexivity|].
      cbn [app]. eapply Permutation_NoDup; [|exact Hn].
      apply Permutation_map. symmetry. apply sort_perm.
    + rewrite Forall_forall. intros kv Hkv. split; [apply Hok, Hin, Hkv|].
      apply ReadValue_reads_back; [apply Hok, Hin, Hkv|].
      specialize (L2 kv Hkv). lia.
    + lia.
Qed.

Lemma blank_Forall (ws : bytes) :
  blank ws = true -> Forall (fun c => is_whitespace c = true) ws.
Proof. unfold blank. rewrite forallb_forall, Forall_forall. auto. Qed.

Lemma span_blank (ws t : bytes) :
  blank ws = true -> stops is_whitespace t -> span is_whitespace (ws ++ t) = (ws, t).
Proof. intros H Ht. apply span_prefix; [now apply blank_Forall | exact Ht]. Qed.

Lemma skipWhitespace_blank (pre ws t : bytes) (fl : Z) :
  blank ws = true -> stops is_whitespace t ->
  skipWhitespace (scan_at pre (ws ++ t) fl) = scan_at (pre ++ ws) t fl.
Proof. intros H Ht. now rewrite skipWhitespace_at, span_blank. Qed.

Lemma blank_ends_value (ws : bytes) : blank ws = true -> ends_value ws.
Proof.
  destruct ws as [|c ws]; [repeat split|]. cbn [blank forallb]. intros H.
  apply andb_prop in H as [H _].
  destruct c; try discriminate H; repeat split.
Qed.

(** The scanner that [NewScanner] returns with the default options. *)
Lemma NewScanner_lead (bom : bool) (ws t : bytes) :
  blank ws = true -> stops is_whitespace t -> stops (fun c => Byte.eqb c xef) t ->
  NewScanner ((if bom then BOM else []) ++ ws ++ t) []
  = Some (scan_at ((if bom then BOM else []) ++ ws) t 0).
Proof.
  intros Hws Ht Hx. unfold NewScanner. cbn [apply_opts flags].
  change (Z.land 0 _ =? 0)%Z with true. cbv iota.
  assert (snd (SkipBOM (mkScanner ((if bom then BOM else []) ++ ws ++ t) 0 0))
          = scan_at (if bom then BOM else []) (ws ++ t) 0) as ->.
  { destruct bom; [reflexivity|]. cbn [app]. unfold SkipBOM. cbn [data].
    assert (match ws ++ t with [] => True | c :: _ => Byte.eqb c xef = false end) as Hh.
    { destruct ws as [|c ws]; cbn [app].
      - destruct t; [exact I | exact Hx].
      - cbn [blank forallb] in Hws. apply andb_prop in Hws as [Hc _].
        destruct c; try discriminate Hc; reflexivity. }
    destruct (ws ++ t) as [|c d]; [reflexivity|].
    cbn [index nth]. rewrite Hh. now rewrite andb_false_r. }
  now rewrite skipWhitespace_blank.
Qed.

Lemma Finalize_blank (pre ws : bytes) (fl : Z) :
  blank ws = true -> fst (Finalize (scan_at pre ws fl)) = None.
Proof.
  intros H. unfold Finalize. rewrite <- (app_nil_r ws).
  rewrite skipWhitespace_blank by (try assumption; exact I).
  now rewrite IsEOF_at.
Qed.


Lemma decode_steps (text : bytes) (s0 s1 : Scanner) (r : Res GoValue) :
  NewScanner text [] = Some s0 -> ReadValue s0 = (r, s1) ->
  decode text = match r with
                | Err e => Err e
                | Ok v => match fst (Finalize s1) with
                          | Some e => Err e
                          | None => Ok v
                          end
                end.
Proof.
  intros H0 H1. unfold decode. rewrite H0, H1. destruct r as [v|e]; [|reflexivity].
  destruct (Finalize s1) as [[e|] s2]; reflexivity.
Qed.

Lemma json_text_not_bom (v : GoValue) (r : bytes) :
  json_ok v = true -> stops (fun c => Byte.eqb c xef) (json_text v ++ r).
Proof.
  intros H. destruct (json_text_start v H) as (c & t & -> & Hc).
  apply (value_start_facts c Hc).
Qed.

(** X10.  A byte order mark and whitespace before the text that [Marshal]
    wrote, and whitespace after it, change nothing: the text still decodes
    to the value that was encoded. *)
Theorem decode_ignores_bom_and_whitespace
    (v : GoValue) (bom : bool) (ws1 ws2 : bytes) :
  json_ok v = true -> blank ws1 = true -> blank ws2 = true ->
  decode ((if bom then BOM else []) ++ ws1 ++ fst (Marshal v []) ++ ws2)
  = Ok (canon v).
Proof.
  intros Hok H1 H2. rewrite (Marshal_json v Hok). cbn [fst].
  rewrite (decode_steps _ _ _ _
             (NewScanner_lead bom ws1 (json_text v ++ ws2) H1
                (text_not_ws v ws2 Hok) (json_text_not_bom v ws2 Hok))
             (ReadValue_text v _ ws2 0 Hok (blank_ends_value ws2 H2))).
  now rewrite Finalize_blank.
Qed.

Lemma decode_ignores_bom_and_whitespace_witness :
  let v := GoSlice [GoBool true; GoString (B "a")] in
  json_ok v = true
  /\ decode (BOM ++ [x0a; " "%byte] ++ "["%byte :: B "true," ++ x22 :: B "a" ++ x22
             :: B "]" ++ [x0d; x0a])
     = Ok v.
Proof.
  cbv zeta. split; [reflexivity|].
  exact (decode_ignores_bom_and_whitespace
           (GoSlice [GoBool true; GoString (B "a")]) true [x0a; " "%byte] [x0d; x0a]
           eq_refl eq_refl eq_refl).
Defined.

(** X11.  Input that holds nothing but whitespace, after a byte order mark
    or not, and the empty input among them, is reported as
    [ErrUnexpectedEOF]. *)
Theorem decode_blank_input (bom : bool) (ws : bytes) :
  blank ws = true ->
  decode ((if bom then BOM else []) ++ ws) = Err ErrUnexpectedEOF.
Proof.
  intros H.
  pose proof (NewScanner_lead bom ws [] H I I) as H0. rewrite app_nil_r in H0.
  assert (ReadValue (scan_at ((if bom then BOM else []) ++ ws) [] 0)
          = (Err ErrUnexpectedEOF, scan_at ((if bom then BOM else []) ++ ws) [] 0)) as H1.
  { apply (ReadValue_of_fuel 1). cbn [ReadValue_fuel].
    rewrite skipWhitespace_none by exact I. now rewrite IsEOF_at. }
  now rewrite (decode_steps _ _ _ _ H0 H1).
Qed.

Lemma decode_blank_input_witness :
  decode [] = Err ErrUnexpectedEOF
  /\ decode (BOM ++ [x09; x0a; " "%byte]) = Err ErrUnexpectedEOF.
Proof.
  split.
  - exact (decode_blank_input false [] eq_refl).
  - exact (decode_blank_input true [x09; x0a; " "%byte] eq_refl).
Defined.



(* ================================================================== *)
(** * A comma before the closing bracket or brace *)



Section Trailing.

Variable F : nat.






End Trailing.





(* ================================================================== *)
(** * The writers handed to user code *)

Section WriterPaths.

Context {W : Type} {writer : Writer W}.

Variable mv : GoValue -> decorator W -> decorator W.
Hypothesis mv_latched : forall v d e, err d = Some e -> mv v d = d.

Lemma run_ArrayWriter_count (calls : list GoValue) (w : arrayWriter) :
  elementCounter (run_ArrayWriter mv calls w) = elementCounter w + length calls.
Proof.
  revert w; induction calls as [|v calls IH]; intros w; cbn [run_ArrayWriter length].
  - lia.
  - rewrite IH. unfold Element; cbn [elementCounter]. lia.
Qed.

Lemma run_ObjectWriter_count (calls : list (bytes * GoValue)) (w : objectWriter) :
  fieldCounter (run_ObjectWriter mv calls w) = fieldCounter w + length calls.
Proof.
  revert w; induction calls as [|[k v] calls IH]; intros w;
    cbn [run_ObjectWriter length].
  - lia.
  - rewrite IH. unfold Member; cbn [fieldCounter]. lia.
Qed.

Lemma run_ArrayWriter_latched (calls : list GoValue) :
  forall (d : decorator W) (n : nat) (e : error),
  err d = Some e -> aw_d (run_ArrayWriter mv calls (mkArrayWriter d n)) = d.
Proof.
  induction calls as [|v calls IH]; intros d n e H; cbn [run_ArrayWriter];
    [reflexivity|].
  unfold Element; cbn [aw_d elementCounter].
  rewrite (arrayElement_latched _ _ _ H), (mv_latched _ _ _ H). now apply IH with e.
Qed.

Lemma run_ObjectWriter_latched (calls : list (bytes * GoValue)) :
  forall (d : decorator W) (n : nat) (e : error),
  err d = Some e -> ow_d (run_ObjectWriter mv calls (mkObjectWriter d n)) = d.
Proof.
  induction calls as [|[k v] calls IH]; intros d n e H; cbn [run_ObjectWriter];
    [reflexivity|].
  unfold Member; cbn [ow_d fieldCounter].
  rewrite (objectField_latched _ _ _ _ H), (mv_latched _ _ _ H). now apply IH with e.
Qed.

(** The calls of [Element] leave what the loop over a slice leaves. *)
Lemma run_ArrayWriter_elems (calls : list GoValue) :
  forall (i : nat) (d : decorator W),
  aw_d (run_ArrayWriter mv calls (mkArrayWriter d i)) = snd (marshal_elems mv i calls d).
Proof.
  induction calls as [|v calls IH]; intros i d; cbn [run_ArrayWriter marshal_elems];
    [reflexivity|].
  unfold Element; cbn [aw_d elementCounter].
  destruct (hadError (mv v (arrayElement (i =? 0) d))) eqn:E; cbn [snd].
  - unfold hadError in E.
    destruct (err (mv v (arrayElement (i =? 0) d))) as [e|] eqn:Ee; [|discriminate E].
    now apply run_ArrayWriter_latched with e.
  - rewrite Nat.add_1_r. apply IH.
Qed.

Lemma run_ObjectWriter_pairs (calls : list (bytes * GoValue)) :
  forall (i : nat) (d : decorator W),
  ow_d (run_ObjectWriter mv calls (mkObjectWriter d i))
  = snd (marshal_pairs i (map (fun kv => (fst kv, mv (snd kv))) calls) d).
Proof.
  induction calls as [|[k v] calls IH]; intros i d;
    cbn [run_ObjectWriter marshal_pairs map fst snd]; [reflexivity|].
  unfold Member; cbn [ow_d fieldCounter].
  destruct (hadError (mv v (objectField k (i =? 0) d))) eqn:E; cbn [snd].
  - unfold hadError in E.
    destruct (err (mv v (objectField k (i =? 0) d))) as [e|] eqn:Ee; [|discriminate E].
    now apply run_ObjectWriter_latched with e.
  - rewrite Nat.add_1_r. apply IH.
Qed.

Lemma marshal_elems_left (elems : list GoValue) :
  forall i d, fst (marshal_elems mv i elems d) = true ->
              exists e, err (snd (marshal_elems mv i elems d)) = Some e.
Proof.
  induction elems as [|v elems IH]; intros i d; cbn [marshal_elems].
  - discriminate.
  - destruct (hadError (mv v (arrayElement (i =? 0) d))) eqn:E; cbn [fst snd].
    + intros _. unfold hadError in E.
      destruct (err (mv v (arrayElement (i =? 0) d))) as [e|]; [now exists e | discriminate E].
    + apply IH.
Qed.

End WriterPaths.

Lemma array_paths_agree {W : Type} {writer : Writer W}
    (calls : list GoValue) (d : decorator W) :
  marshalValue (GoFuncArr calls) d = marshalValue (GoSlice calls) d.
Proof.
  unfold marshalValue. cbn [marshalAt andb].
  destruct (hadError d); [reflexivity|]. unfold arrayBegin.
  rewrite run_ArrayWriter_count. cbn [elementCounter Nat.add].
  rewrite (run_ArrayWriter_elems (marshalAt true false)
             (fun v d e => marshalValue_latched d e v)).
  pose proof (marshal_elems_left (marshalAt true false) calls 0 d) as R.
  destruct (marshal_elems (marshalAt true false) 0 calls d) as [[|] d'];
    cbn [fst snd] in *; [|reflexivity].
  destruct (R eq_refl) as [e He]. unfold arrayEnd.
  destruct (length calls =? 0); apply (put_latched _ _ _ He).
Qed.

(** X14.  The three ways to have user code write an array give what a
    slice of the same values gives, on every sink and in every state of
    the decorator: a [func(ArrayWriter)], a [func(ArrayWriter) error] that
    returns [nil], and an [ArrMarshaler] whose method returns [nil], each
    calling [Element] on the values in turn.  So the brackets and commas
    are the same, and so is the error, that of the first value that fails:
    the calls after it write nothing. *)
Theorem array_writers_same_as_slice {W : Type} {writer : Writer W}
    (calls : list GoValue) (d : decorator W)
    (sm tm : option (bytes * option error)) (pm : MethodSet GoValue) (under : GoValue) :
  marshalValue (GoFuncArr calls) d = marshalValue (GoSlice calls) d
  /\ marshalValue (GoFuncArrErr calls None) d = marshalValue (GoSlice calls) d
  /\ marshalValue (GoNamed (mkMethods None (Some (calls, None)) sm tm) pm under) d
     = marshalValue (GoSlice calls) d.
Proof.
  split; [apply array_paths_agree|]. split.
  - rewrite <- array_paths_agree. reflexivity.
  - rewrite <- array_paths_agree. unfold marshalValue. cbn [marshalAt andb].
    unfold marshalArr, arrayBegin. cbn [fst snd]. now destruct (hadError d).
Qed.

Lemma object_paths_agree {W : Type} {writer : Writer W}
    (calls : list (bytes * GoValue)) (d : decorator W) :
  marshalValue (GoFuncObj calls) d
  = if hadError d then d
    else let '(returned, d') :=
           marshal_pairs 0 (map (fun kv => (fst kv, marshalAt true false (snd kv))) calls) d in
         if returned then d' else objectEnd (length calls =? 0) d'.
Proof.
  unfold marshalValue. cbn [marshalAt andb].
  destruct (hadError d); [reflexivity|]. unfold objectBegin.
  rewrite run_ObjectWriter_count. cbn [fieldCounter Nat.add].
  rewrite (run_ObjectWriter_pairs (marshalAt true false)
             (fun v d e => marshalValue_latched d e v)).
  assert (forall (l : list (bytes * (decorator W -> decorator W))) i d0,
            fst (marshal_pairs i l d0) = true ->
            exists e, err (snd (marshal_pairs i l d0)) = Some e) as R.
  { induction l as [|[k f] l IH]; intros i d0; cbn [marshal_pairs]; [discriminate|].
    destruct (hadError (f (objectField k (i =? 0) d0))) eqn:E; cbn [fst snd].
    - intros _. unfold hadError in E.
      destruct (err (f (objectField k (i =? 0) d0))) as [e|]; [now exists e | discriminate E].
    - apply IH. }
  specialize (R (map (fun kv => (fst kv, marshalAt true false (snd kv))) calls) 0 d).
  destruct (marshal_pairs 0 _ d) as [[|] d']; cbn [fst snd] in *; [|reflexivity].
  destruct (R eq_refl) as [e He]. unfold objectEnd.
  destruct (length calls =? 0); apply (put_latched _ _ _ He).
Qed.

Lemma object_calls_Builder (prec : Z) (calls : list (bytes * GoValue)) :
  (forall kv, In kv calls -> status_of (marshalValue (snd kv)) prec = None) ->
  marshalValue (GoFuncObj calls) (mkDecorator [] prec None)
  = mkDecorator
      (object_text (map (fun kv => (fst kv, text_of (marshalValue (snd kv)) prec)) calls))
      prec None.
Proof.
  intros Hs. rewrite object_paths_agree. cbn [hadError err].
  assert (Forall (fun kv => framed (marshalAt true false (snd kv))
                            /\ status_of (marshalAt true false (snd kv)) prec = None)
                 calls) as HF.
  { rewrite Forall_forall. intros kv Hin.
    split; [apply framed_marshalAt | now apply Hs]. }
  destruct calls as [|[k v] l]; [reflexivity|].
  inversion HF as [|? ? [[_ Hf] Hv] HF']; subst. cbn [fst snd] in *.
  cbn [map marshal_pairs fst snd]. change (0 =? 0) with true.
  rewrite objectField_Builder, Hf, Hv. cbn [hadError err].
  rewrite (marshal_pairs_Builder (marshalAt true false) prec l HF').
  cbn [length Nat.eqb]. unfold objectEnd. rewrite put_Builder.
  f_equal. unfold object_text. cbn [map fst snd].
  rewrite join_comma_cons. unfold member_text at 2. cbn [fst snd].
  rewrite !map_map. cbn [fst snd]. list_eq.
Qed.

(** X15.  A [func(ObjectWriter)] writes its members in the order of its
    calls of [Member], neither sorted nor merged: a key given twice is
    written twice.  The text is that of an object whose members are the
    quoted keys, each followed by a colon and the text [Marshal] gives the
    value on its own. *)
Theorem object_writer_keeps_call_order
    (calls : list (bytes * GoValue)) (opts : list MarshalOpt) :
  snd (parseMarshalOptions opts) = None ->
  (forall kv, In kv calls -> snd (Marshal (snd kv) opts) = None) ->
  Marshal (GoFuncObj calls) opts
  = (object_text (map (fun kv => (fst kv, fst (Marshal (snd kv) opts))) calls), None).
Proof.
  intros Ho Hv.
  destruct (parseMarshalOptions opts) as [prec oe] eqn:Eo. cbn [snd] in Ho. subst oe.
  assert (Hs : forall kv, In kv calls ->
               status_of (marshalValue (snd kv)) prec = None
               /\ fst (Marshal (snd kv) opts) = text_of (marshalValue (snd kv)) prec).
  { intros kv Hin. specialize (Hv kv Hin).
    rewrite (Marshal_text _ _ _ Eo) in Hv |- *.
    destruct (status_of (marshalValue (snd kv)) prec); [discriminate Hv | now split]. }
  rewrite (Marshal_text (GoFuncObj calls) opts prec Eo). unfold status_of, text_of.
  rewrite object_calls_Builder by (intros kv Hin; apply (Hs kv Hin)).
  cbn [err out]. f_equal. f_equal.
  apply map_ext_in. intros kv Hin. f_equal. symmetry. now apply Hs.
Qed.

Lemma object_writer_keeps_call_order_witness :
  let calls := [(B "b", GoInt 1); (B "a", GoInt 2); (B "b", GoInt 3)] in
  Marshal (GoFuncObj calls) []
  = ("{"%byte :: x22 :: B "b" ++ x22 :: B ":1," ++ x22 :: B "a" ++ x22 :: B ":2,"
               ++ x22 :: B "b" ++ x22 :: B ":3}", None).
Proof.
  cbv zeta.
  rewrite (object_writer_keeps_call_order
             [(B "b", GoInt 1); (B "a", GoInt 2); (B "b", GoInt 3)] [] eq_refl).
  - reflexivity.
  - intros kv [<-|[<-|[<-|[]]]]; reflexivity.
Defined.

Lemma marshal_elems_first_error (mv : GoValue -> bdec -> bdec) (prec : Z)
    (l1 l2 : list GoValue) (x : GoValue) (e : error) :
  Forall (fun v => framed (mv v) /\ status_of (mv v) prec = None) l1 ->
  framed (mv x) -> status_of (mv x) prec = Some e ->
  forall i o,
    err (snd (marshal_elems mv i (l1 ++ x :: l2) (mkDecorator o prec None))) = Some e.
Proof.
  intros H Hx He. induction H as [|v l [[_ Hf] Hs] _ IH]; intros i o;
    cbn [app marshal_elems]; unfold arrayElement.
  - destruct Hx as [_ Hfx].
    destruct (i =? 0); rewrite put_Builder, Hfx, He; reflexivity.
  - destruct (i =? 0); rewrite put_Builder, Hf, Hs; cbn [hadError err]; apply IH.
Qed.

(** X16.  A slice all of whose elements can be written is written as a
    bracketed, comma-separated list of the texts that [Marshal] gives the
    elements one by one (an empty or nil slice as [[]]): the text of an
    element does not depend on its place. *)
Theorem Marshal_slice_elementwise (elems : list GoValue) (opts : list MarshalOpt) :
  snd (parseMarshalOptions opts) = None ->
  (forall v, In v elems -> snd (Marshal v opts) = None) ->
  Marshal (GoSlice elems) opts
  = (array_text (map (fun v => fst (Marshal v opts)) elems), None).
Proof.
  intros Ho Hv.
  destruct (parseMarshalOptions opts) as [prec oe] eqn:Eo. cbn [snd] in Ho. subst oe.
  assert (Hs : forall v, In v elems ->
               status_of (marshalValue v) prec = None
               /\ fst (Marshal v opts) = text_of (marshalValue v) prec).
  { intros v Hin. specialize (Hv v Hin).
    rewrite (Marshal_text _ _ _ Eo) in Hv |- *.
    destruct (status_of (marshalValue v) prec); [discriminate Hv | now split]. }
  rewrite (Marshal_text (GoSlice elems) opts prec Eo). unfold status_of, text_of.
  rewrite marshal_slice_Builder by (intros v Hin; apply (Hs v Hin)).
  cbn [err out]. f_equal. f_equal.
  apply map_ext_in. intros v Hin. symmetry. now apply Hs.
Qed.

Lemma Marshal_slice_elementwise_witness :
  Marshal (GoSlice [GoInt (-7); GoSlice []; GoByteSeq (B "hi"); GoNil]) []
  = (B "[-7,[]," ++ x22 :: B "hi" ++ x22 :: B ",null]", None).
Proof.
  rewrite (Marshal_slice_elementwise
             [GoInt (-7); GoSlice []; GoByteSeq (B "hi"); GoNil] [] eq_refl).
  - reflexivity.
  - intros v [<-|[<-|[<-|[<-|[]]]]]; reflexivity.
Defined.

(** X17.  A slice one of whose elements cannot be written is not written:
    [Marshal] returns the error of the first such element, and the empty
    string, whatever comes after it. *)
Theorem Marshal_slice_first_error
    (l1 l2 : list GoValue) (x : GoValue) (opts : list MarshalOpt) (e : error) :
  (forall v, In v l1 -> snd (Marshal v opts) = None) ->
  snd (Marshal x opts) = Some e ->
  Marshal (GoSlice (l1 ++ x :: l2)) opts = ([], Some e).
Proof.
  intros Hv Hx.
  destruct (parseMarshalOptions opts) as [prec [oe|]] eqn:Eo.
  - unfold Marshal in *. rewrite Eo in *. cbn [snd] in Hx. now injection Hx as ->.
  - assert (Forall (fun v => framed (marshalAt true false v)
                             /\ status_of (marshalAt true false v) prec = None) l1) as HF.
    { rewrite Forall_forall. intros v Hin. split; [apply framed_marshalAt|].
      specialize (Hv v Hin). rewrite (Marshal_text _ _ _ Eo) in Hv.
      change (marshalAt true false v) with (@marshalValue bytes Builder v).
      destruct (status_of (marshalValue v) prec); [discriminate Hv | reflexivity]. }
    assert (status_of (marshalAt true false x) prec = Some e) as He.
    { rewrite (Marshal_text _ _ _ Eo) in Hx.
      change (marshalAt true false x) with (@marshalValue bytes Builder x).
      destruct (status_of (marshalValue x) prec); [exact Hx | discriminate Hx]. }
    rewrite (Marshal_text _ _ _ Eo).
    assert (status_of (marshalValue (GoSlice (l1 ++ x :: l2))) prec = Some e) as ->;
      [|reflexivity].
    unfold status_of, marshalValue. cbn [marshalAt andb hadError err]. unfold arrayBegin.
    pose proof (marshal_elems_first_error (marshalAt true false) prec l1 l2 x e HF
                  (framed_marshalAt x true false) He 0 []) as E.
    destruct (marshal_elems (marshalAt true false) 0 (l1 ++ x :: l2)
                (mkDecorator [] prec None)) as [[|] d']; cbn [snd] in E; [exact E|].
    unfold arrayEnd. destruct (length (l1 ++ x :: l2) =? 0);
      now rewrite (put_latched _ _ _ E).
Qed.

Lemma Marshal_slice_first_error_witness :
  Marshal (GoSlice [GoInt 1; GoFloat S754_nan; GoOther (B "chan int")]) []
  = ([], Some (ErrUnsupportedFloat S754_nan)).
Proof.
  apply (Marshal_slice_first_error [GoInt 1] [GoOther (B "chan int")]
           (GoFloat S754_nan) [] (ErrUnsupportedFloat S754_nan)).
  - intros v [<-|[]]. reflexivity.
  - reflexivity.
Defined.

(* ================================================================== *)
(** * Options *)

Lemma last_cons_default (p d : Z) (ps : list Z) : last (p :: ps) d = last ps p.
Proof.
  revert p d; induction ps as [|q ps IH]; intros p d; [reflexivity|].
  change (last (p :: q :: ps) d) with (last (q :: ps) d).
  rewrite (IH q d). symmetry. apply IH.
Qed.

Lemma parseMarshalOptions_loop_spec (opts : list MarshalOpt) (p0 : Z) :
  parseMarshalOptions_loop opts p0
  = match find (fun p => p <? 0)%Z (precisions opts) with
    | Some p => (0%Z, Some (ErrInvalidFloatPrecision p))
    | None => (last (precisions opts) p0, None)
    end.
Proof.
  revert p0; induction opts as [|[p|] opts IH]; intros p0;
    cbn [parseMarshalOptions_loop precisions flat_map app find].
  - reflexivity.
  - fold (precisions opts). destruct (p <? 0)%Z; [reflexivity|].
    rewrite IH. destruct (find _ (precisions opts)); [reflexivity|].
    now rewrite last_cons_default.
  - fold (precisions opts). apply IH.
Qed.

(** X18.  Of the options given to [Marshal] only those of type
    [FloatPrecision] count; the others are passed over.  If one of them is
    negative, the first such is reported, with the empty string and
    whatever the value, even where a later option is valid; otherwise
    numbers are written with the last precision given, or with 6
    significant digits if none is. *)
Theorem Marshal_options (opts : list MarshalOpt) (v : GoValue) :
  match find (fun p => p <? 0)%Z (precisions opts) with
  | Some p =>
      parseMarshalOptions opts = (0%Z, Some (ErrInvalidFloatPrecision p))
      /\ Marshal v opts = ([], Some (ErrInvalidFloatPrecision p))
  | None =>
      parseMarshalOptions opts = (last (precisions opts) 6%Z, None)
      /\ Marshal v opts = Marshal v [FloatPrecision (last (precisions opts) 6%Z)]
  end.
Proof.
  pose proof (parseMarshalOptions_loop_spec opts 6) as H.
  fold (parseMarshalOptions opts) in H.
  destruct (find (fun p => p <? 0)%Z (precisions opts)) as [p|] eqn:E.
  - split; [exact H|]. unfold Marshal. now rewrite H.
  - split; [exact H|]. unfold Marshal. rewrite H.
    cbn [parseMarshalOptions parseMarshalOptions_loop].
    unfold parseMarshalOptions. cbn [parseMarshalOptions_loop].
    assert ((last (precisions opts) 6 <? 0)%Z = false) as ->; [|reflexivity].
    assert (forall ps d, find (fun p => p <? 0)%Z ps = None -> (d <? 0)%Z = false ->
                         (last ps d <? 0)%Z = false) as L.
    { induction ps as [|q ps IH]; intros d Hf Hd; [exact Hd|].
      cbn [find] in Hf. destruct (q <? 0)%Z eqn:Eq; [discriminate Hf|].
      rewrite last_cons_default. now apply IH. }
    now apply L.
Qed.

(* ================================================================== *)
(** * Integers *)

Lemma digit_byte (r : Z) :
  (0 <= r <= 9)%Z ->
  strconv.is_digit (byte_of_Z (48 + r)) = true
  /\ strconv.digit_val (byte_of_Z (48 + r)) = r
  /\ (r <> 0%Z -> Byte.eqb (byte_of_Z (48 + r)) "0" = false).
Proof.
  intros H.
  assert (r = 0 \/ r = 1 \/ r = 2 \/ r = 3 \/ r = 4 \/ r = 5 \/ r = 6 \/ r = 7
          \/ r = 8 \/ r = 9)%Z as C by lia.
  repeat (destruct C as [-> | C]); try subst r;
    (split; [reflexivity | split; [reflexivity | intros Hn; try reflexivity; now contradiction Hn]]).
Qed.

Lemma digits_rev_spec (fuel : nat) :
  forall n, (0 < n < 2 ^ Z.of_nat fuel)%Z ->
  exists l d,
    strconv.digits_rev fuel n = l ++ [d]
    /\ all_digits l = true /\ strconv.is_digit d = true /\ Byte.eqb d "0" = false
    /\ digits_rev_value (l ++ [d]) = n.
Proof.
  induction fuel as [|fuel IH]; intros n Hn.
  - change (2 ^ Z.of_nat 0)%Z with 1%Z in Hn. lia.
  - cbn [strconv.digits_rev].
    destruct (Z.leb_spec n 0) as [Hle|_]; [lia|].
    assert (0 <= n mod 10 <= 9)%Z as Hm by (pose proof (Z.mod_pos_bound n 10); lia).
    destruct (digit_byte (n mod 10) Hm) as (D1 & D2 & D3).
    assert (n = 10 * (n / 10) + n mod 10)%Z as Ediv by (apply Z.div_mod; lia).
    destruct (Z.eq_dec (n / 10) 0) as [Hz | Hnz].
    + assert (strconv.digits_rev fuel (n / 10) = []) as ->.
      { rewrite Hz. destruct fuel; reflexivity. }
      exists [], (byte_of_Z (48 + n mod 10)). cbn [app].
      split; [reflexivity|]. split; [reflexivity|]. split; [exact D1|].
      split; [apply D3; lia|].
      cbn [digits_rev_value fold_right]. rewrite D2. lia.
    + assert (0 <= n / 10)%Z by (apply Z.div_pos; lia).
      assert (n / 10 < 2 ^ Z.of_nat fuel)%Z as Hlt.
      { rewrite Nat2Z.inj_succ, Z.pow_succ_r in Hn by lia.
        apply Z.div_lt_upper_bound; lia. }
      destruct (IH (n / 10)%Z ltac:(lia)) as (l & d & -> & Hl & Hd & H0 & Hv).
      exists (byte_of_Z (48 + n mod 10) :: l), d. cbn [app].
      split; [reflexivity|]. split; [cbn [all_digits forallb]; now rewrite D1|].
      split; [exact Hd|]. split; [exact H0|].
      unfold digits_rev_value in *. cbn [fold_right]. rewrite Hv, D2. lia.
Qed.

Lemma digits_value_rev (l : bytes) :
  digits_value 0 (rev l) = digits_rev_value l.
Proof.
  induction l as [|c l IH]; [reflexivity|].
  cbn [rev]. unfold digits_value in *. rewrite fold_left_app. cbn [fold_left].
  rewrite IH. unfold digits_rev_value. cbn [fold_right]. lia.
Qed.

Lemma digits_of_spec (n : Z) :
  (0 < n)%Z ->
  int_ok (strconv.digits_of n) = true /\ digits_value 0 (strconv.digits_of n) = n.
Proof.
  intros Hn. unfold strconv.digits_of.
  destruct (digits_rev_spec (S (Z.to_nat (Z.log2 n))) n) as (l & d & -> & Hl & Hd & H0 & Hv).
  { split; [exact Hn|]. rewrite Nat2Z.inj_succ, Z2Nat.id by apply Z.log2_nonneg.
    apply Z.log2_spec. exact Hn. }
  split.
  - rewrite rev_app_distr. cbn [rev app int_ok]. rewrite H0, Hd. cbn [andb].
    unfold all_digits in *. rewrite forallb_forall in *. intros x Hx.
    apply Hl. now apply in_rev.
  - now rewrite digits_value_rev.
Qed.

Lemma FormatInt_literal (i : Z) :
  let l := mkLiteral (i <? 0)%Z (strconv.FormatUint (Z.abs i)) None None in
  literal_ok l = true
  /\ literal_text l = strconv.FormatInt i
  /\ literal_float l = strconv.round_decimal (i <? 0)%Z (Z.abs i) 0.
Proof.
  cbv zeta. unfold literal_ok, literal_text, literal_float, literal_mantissa,
    literal_scale, literal_exponent.
  cbn [lit_minus lit_int lit_frac lit_exp frac_ok exp_ok frac_text exp_text length].
  rewrite !app_nil_r, andb_true_r.
  unfold strconv.FormatInt, strconv.FormatUint.
  destruct (Z.ltb_spec i 0) as [Hneg | Hpos].
  - replace (Z.abs i) with (- i)%Z by lia.
    destruct (Z.leb_spec (- i) 0) as [? | _]; [lia|].
    destruct (digits_of_spec (- i)%Z ltac:(lia)) as [H1 H2].
    rewrite H1. split; [reflexivity|]. split; [reflexivity|].
    cbn [digits_value fold_left]. fold (digits_value 0 (strconv.digits_of (- i))).
    now rewrite H2.
  - replace (Z.abs i) with i by lia.
    destruct (Z.leb_spec i 0) as [Hz | Hp].
    + assert (i = 0%Z) as -> by lia. repeat split.
    + destruct (digits_of_spec i Hp) as [H1 H2].
      rewrite H1. split; [reflexivity|]. split; [reflexivity|].
      cbn [digits_value fold_left]. fold (digits_value 0 (strconv.digits_of i)).
      now rewrite H2.
Qed.

(** X19.  An integer is written in decimal, with a minus sign if negative
    and no leading zero, and the text is read back as a number: the
    binary64 number nearest to the integer, since the reader has no
    integers.  The integer itself is read back only if it is a binary64
    number; 9007199254740993 (2^53 + 1) is read back as 9007199254740992. *)
Theorem Marshal_int_decodes_to_nearest_float (i : Z) :
  Marshal (GoInt i) [] = (strconv.FormatInt i, None)
  /\ decode (strconv.FormatInt i)
     = match strconv.round_decimal (i <? 0)%Z (Z.abs i) 0 with
       | S754_infinity _ => Err ErrNumericValueOutOfRange
       | f => Ok (GoFloat f)
       end.
Proof.
  split; [reflexivity|].
  destruct (FormatInt_literal i) as (Hok & Et & Ef).
  set (l := mkLiteral (i <? 0)%Z (strconv.FormatUint (Z.abs i)) None None) in *.
  assert (exists c t, literal_text l = c :: t
                      /\ (c = "-"%byte \/ strconv.is_digit c = true)) as (c & t & Ec & Hc).
  { unfold literal_text, l. cbn [lit_minus lit_int lit_frac lit_exp frac_text exp_text].
    rewrite !app_nil_r. destruct (i <? 0)%Z.
    - eexists _, _. split; [reflexivity | now left].
    - unfold literal_ok in Hok. cbn [lit_int l] in Hok.
      apply andb_prop in Hok as [Hok _]. apply andb_prop in Hok as [Hok _].
      destruct (int_ok_digits _ Hok) as (_ & c & ds & -> & Hd).
      exists c, ds. split; [reflexivity | now right]. }
  assert (is_whitespace c = false /\ Byte.eqb c xef = false) as [Hw Hx].
  { destruct Hc as [-> | Hc]; [split; reflexivity|].
    destruct c; try discriminate Hc; split; reflexivity. }
  rewrite <- Et.
  pose proof (NewScanner_lead false [] (literal_text l) eq_refl) as H0.
  rewrite Ec in H0. specialize (H0 Hw Hx). rewrite <- Ec in H0. cbn [app] in H0.
  assert (ReadValue (scan_at [] (literal_text l) 0)
          = (match literal_result l with
             | Ok f => Ok (GoFloat f)
             | Err e => Err e
             end, scan_at (literal_text l) [] 0)) as H1.
  { apply (ReadValue_of_fuel 1). rewrite Ec.
    rewrite (ReadValue_fuel_number 0 c t [] 0 Hc). rewrite <- Ec.
    pose proof (parseNumber_literal_then l [] [] 0 Hok) as HP.
    rewrite app_nil_r in HP. rewrite HP by (repeat split).
    cbn [app]. destruct (literal_result l); reflexivity. }
  rewrite (decode_steps _ _ _ _ H0 H1).
  unfold literal_result. rewrite Ef.
  destruct (strconv.round_decimal (i <? 0)%Z (Z.abs i) 0); try reflexivity;
    now rewrite (Finalize_blank _ [] 0 eq_refl).
Qed.

Lemma Marshal_int_decodes_to_nearest_float_witness :
  Marshal (GoInt 9007199254740993) [] = (B "9007199254740993", None)
  /\ decode (B "9007199254740993") = Ok (GoFloat (S754_finite false 4503599627370496 1))
  /\ decode (B "-42") = Ok (GoFloat (S754_finite true 5910974510923776 (-47))).
Proof.
  split; [vm_compute; reflexivity|]. split.
  - exact (proj2 (Marshal_int_decodes_to_nearest_float 9007199254740993)).
  - exact (proj2 (Marshal_int_decodes_to_nearest_float (-42))).
Defined.

(* ================================================================== *)
(** * Pointers and receivers *)

Section Pointers.

Context {W : Type} {writer : Writer W}.

Lemma marshalAt_data_kind (v : GoValue) (entry addr : bool) (d : decorator W) :
  data_kind v = true -> hadError d = false ->
  marshalAt entry addr v d = marshalValue v d.
Proof.
  intros Hk Hd. unfold marshalValue.
  destruct v; try discriminate Hk; cbn [marshalAt]; rewrite Hd, !andb_false_r;
    reflexivity.
Qed.

Lemma hadError_latched (d : decorator W) :
  hadError d = true -> exists e, err d = Some e.
Proof. unfold hadError. destruct (err d) as [e|]; [now exists e | discriminate]. Qed.

Lemma pointers_transparent (n : nat) (v : GoValue) (d : decorator W) :
  data_kind v = true -> marshalValue (indirect n v) d = marshalValue v d.
Proof.
  intros Hk. destruct (hadError d) eqn:Hd.
  - destruct (hadError_latched d Hd) as [e He].
    now rewrite !(marshalValue_latched _ _ _ He).
  - destruct n as [|n]; [reflexivity|]. cbn [indirect].
    unfold marshalValue at 1. cbn [marshalAt]. rewrite Hd. cbn [andb].
    induction n as [|n IH]; cbn [indirect marshalAt].
    + now apply marshalAt_data_kind.
    + exact IH.
Qed.



End Pointers.

(** X20.  A pointer to a value that is written by its kind (a boolean, a
    number, a string, a byte slice, a slice, a map) is written as the
    value, through any number of pointers, on every sink and in every
    state of the decorator. *)
Theorem pointer_written_as_its_target {W : Type} {writer : Writer W}
    (n : nat) (v : GoValue) (d : decorator W) :
  data_kind v = true -> marshalValue (indirect n v) d = marshalValue v d.
Proof. apply pointers_transparent. Qed.

Lemma pointer_written_as_its_target_witness :
  Marshal (GoPtr (GoPtr (GoSlice [GoInt 1; GoPtr (GoString (B "a"))]))) []
  = Marshal (GoSlice [GoInt 1; GoPtr (GoString (B "a"))]) [].
Proof.
  unfold Marshal. cbn [parseMarshalOptions parseMarshalOptions_loop].
  now rewrite (pointer_written_as_its_target 2
                 (GoSlice [GoInt 1; GoPtr (GoString (B "a"))])
                 (mkDecorator [] 6%Z None) eq_refl).
Defined.



(** X22.  When [MarshalText] of a value receiver returns an error, the
    error is recorded and nothing is written, on every sink: the branch
    goes on to [marshalString] where its sibling branches return, but the
    decorator, holding the error, lets nothing through.  The outcome is
    the one of the pointer receiver, whose branch does return. *)
Theorem failed_MarshalText_writes_nothing {W : Type} {writer : Writer W}
    (s : bytes) (e : error) (pm : MethodSet GoValue) (under : GoValue)
    (d : decorator W) :
  err d = None ->
  let byValue := GoNamed (mkMethods None None None (Some (s, Some e))) pm under in
  let byPointer :=
    GoPtr (GoNamed no_methods (mkMethods None None None (Some (s, Some e))) under) in
  marshalValue byValue d = mkDecorator (out d) (floatPrecision d) (Some e)
  /\ marshalValue byPointer d = marshalValue byValue d.
Proof.
  intros Hd byValue byPointer.
  assert (err (handleError e d) = Some e) as He by (unfold handleError; now rewrite Hd).
  assert (handleError e d = mkDecorator (out d) (floatPrecision d) (Some e)) as E
    by (unfold handleError; now rewrite Hd).
  assert (marshalValue byValue d = handleError e d) as H1.
  { unfold marshalValue, byValue. cbn [marshalAt]. unfold hadError. rewrite Hd.
    cbn [andb]. apply (marshalString_latched _ _ _ He). }
  split; [now rewrite H1|]. rewrite H1.
  unfold marshalValue, byPointer. cbn [marshalAt no_methods]. unfold hadError.
  now rewrite Hd.
Qed.

Lemma failed_MarshalText_writes_nothing_witness :
  Marshal (GoNamed (mkMethods None None None (Some (B "half", Some (ErrForeign (B "boom")))))
                   no_methods (GoInt 1)) []
  = ([], Some (ErrForeign (B "boom"))).
Proof.
  unfold Marshal. cbn [parseMarshalOptions parseMarshalOptions_loop].
  rewrite (proj1 (failed_MarshalText_writes_nothing (B "half") (ErrForeign (B "boom"))
                    no_methods (GoInt 1) (mkDecorator [] 6%Z None) eq_refl)).
  reflexivity.
Defined.

(* ================================================================== *)
(** * What is not the beginning of a value *)

Lemma skipSequence_loop_starts (seq : bytes) :
  forall (l r : bytes) (c i : nat) (fl : Z),
  length l = c + i -> length seq <= length r ->
  skipSequence_loop seq i (mkScanner (l ++ r) c fl) = starts_with seq r.
Proof.
  induction seq as [|b seq IH]; intros l r c i fl Hl Hr; cbn [skipSequence_loop];
    [reflexivity|].
  destruct r as [|x r]; [cbn [length] in Hr; lia|].
  cbn [data cur starts_with]. rewrite <- Hl, index_app_here.
  destruct (Byte.eqb x b); cbn [andb]; [|reflexivity].
  specialize (IH (l ++ [x]) r c (S i) fl).
  rewrite <- app_assoc in IH. cbn [app] in IH. apply IH.
  - rewrite length_app. cbn [length]. lia.
  - cbn [length] in Hr. lia.
Qed.

Lemma starts_with_short (seq r : bytes) :
  length r < length seq -> starts_with seq r = false.
Proof.
  revert r; induction seq as [|b seq IH]; intros r H; [cbn [length] in H; lia|].
  destruct r as [|x r]; [reflexivity|]. cbn [starts_with].
  rewrite IH by (cbn [length] in H; lia). apply andb_false_r.
Qed.

Lemma skipSequence_miss (seq pre suf : bytes) (fl : Z) :
  starts_with seq suf = false ->
  skipSequence seq (scan_at pre suf fl) = (false, scan_at pre suf fl).
Proof.
  intros H. unfold skipSequence.
  change (cur (scan_at pre suf fl)) with (length pre).
  change (data (scan_at pre suf fl)) with (pre ++ suf).
  destruct (length (pre ++ suf) <? length pre + length seq) eqn:E; [reflexivity|].
  apply Nat.ltb_ge in E. rewrite length_app in E.
  unfold scan_at.
  rewrite (skipSequence_loop_starts seq pre suf (length pre) 0 fl) by lia.
  now rewrite H.
Qed.

Lemma ReadValue_other_token (pre ws suf : bytes) (fl : Z) :
  blank ws = true -> stops is_whitespace suf -> suf <> [] ->
  begins_value suf = false ->
  ReadValue (scan_at pre (ws ++ suf) fl)
  = (Err ErrUnexpectedToken, scan_at (pre ++ ws) suf fl).
Proof.
  intros Hws Hs Hne Hb. apply (ReadValue_of_fuel 1). cbn [ReadValue_fuel].
  rewrite skipWhitespace_blank by assumption.
  destruct suf as [|c suf]; [congruence|]. clear Hne Hs.
  rewrite IsEOF_at, peek_at. cbv iota.
  unfold begins_value in Hb.
  repeat (apply orb_false_elim in Hb; destruct Hb as [Hb ?]).
  destruct c; try reflexivity;
    try discriminate;
    rewrite skipSequence_miss by assumption; reflexivity.
Qed.

(** X23.  Where the next byte after any whitespace begins no JSON value,
    [ReadValue] returns [ErrUnexpectedToken] and leaves the cursor on that
    byte.  A value begins with a brace, a bracket, a double quote, a minus,
    a digit, or with [true], [false] or [null] written out in lower case:
    so [True], [nul], [NaN], a plus sign, a point and a single quote are
    all rejected. *)
Theorem ReadValue_rejects_what_begins_no_value (pre ws suf : bytes) (fl : Z) :
  blank ws = true -> stops is_whitespace suf -> suf <> [] ->
  begins_value suf = false ->
  ReadValue (scan_at pre (ws ++ suf) fl)
  = (Err ErrUnexpectedToken, scan_at (pre ++ ws) suf fl).
Proof. apply ReadValue_other_token. Qed.

Lemma ReadValue_rejects_what_begins_no_value_witness :
  ReadValue (scan_at [] (B " True") 0) = (Err ErrUnexpectedToken, scan_at (B " ") (B "True") 0)
  /\ ReadValue (scan_at [] (B "nul") 0) = (Err ErrUnexpectedToken, scan_at [] (B "nul") 0)
  /\ ReadValue (scan_at [] (B "+1") 0) = (Err ErrUnexpectedToken, scan_at [] (B "+1") 0).
Proof.
  split; [|split].
  - apply (ReadValue_rejects_what_begins_no_value [] (B " ") (B "True") 0);
      [reflexivity | reflexivity | discriminate | reflexivity].
  - apply (ReadValue_rejects_what_begins_no_value [] [] (B "nul") 0);
      [reflexivity | reflexivity | discriminate | reflexivity].
  - apply (ReadValue_rejects_what_begins_no_value [] [] (B "+1") 0);
      [reflexivity | reflexivity | discriminate | reflexivity].
Defined.

(* ================================================================== *)
(** * The text of a value holds no control byte *)











(* ================================================================== *)
(** * The cursor only moves forward *)

(** X25.  Whatever the input and whatever the outcome, [ReadValue] leaves
    the data of the scanner as it was and never moves the cursor back: on
    an error too the scanner it returns is at or after the place where the
    read began. *)
Theorem ReadValue_never_goes_back (s : Scanner) :
  data (snd (ReadValue s)) = data s /\ cur s <= cur (snd (ReadValue s)).
Proof. exact (ReadValue_adv s). Qed.
